(** * prop: promise chaining on top of a cooperative event loop

    A shallow embedding of [src/prop/promise.py] and
    [src/prop/chain_link/fulfillment.py].

    The coroutines of the source ([resolve_awaitable] and the [_wrapper]
    method of each link class) are written in a small coroutine monad whose
    constructors are the things a coroutine of this library does: return,
    raise, suspend at an [await], enter a user callback, read or write an
    attribute of [self].  Promise objects live in a heap indexed by object
    identity; the event loop is a step function that resumes one task at a
    time, so every interleaving of task steps and of calls of the public
    methods is a list of actions.

    The event loop itself is asyncio's.  Of its tasks the model keeps what
    the library relies on: a task runs its coroutine from one await to the
    next; [cancel()] on a pending task makes its next step raise
    [CancelledError] at the await the coroutine is suspended on (or closes
    a coroutine that never started); the outer future of [shield] ends as
    the promise it follows does, and cancelling it leaves that promise
    alone.

    A callback is a function of its argument: it returns a plain value or
    an awaitable, or raises, and each entry is logged.  The awaitable it
    returns is foreign to the heap, not one of the program's promises, and
    gives way to a cancellation; the theorems in which [cancel()] reaches
    a link say where the link is then.  A callback that calls a method of
    a promise is that method call placed after the task step that entered
    the callback. *)

From stdpp Require Import base option list strings.
From Stdlib Require Import ZArith Lia.

Local Open Scope Z_scope.
Local Open Scope nat_scope.

(** ** Python values, exceptions and outcomes *)

(** The exceptions the source tells apart.  [CancelledError] is the event
    loop's cancellation condition; [Exception name] stands for an instance
    of Python's [Exception] class; [BaseOnly name] for an exception that
    derives from [BaseException] without deriving from [Exception]
    (GeneratorExit, a user class deriving from BaseException, ...). *)
Inductive exn : Type :=
| CancelledError
| Exception (name : string)
| BaseOnly (name : string).

Inductive value : Type :=
| VNone
| VInt (n : Z)
| VStr (s : string).

(** What [await] produces: a value, or an exception raised at the await. *)
Inductive outcome : Type :=
| Fulfilled (v : value)
| Raised (e : exn).

#[global] Instance exn_eq_dec : EqDecision exn.
Proof. solve_decision. Defined.

#[global] Instance value_eq_dec : EqDecision value.
Proof. solve_decision. Defined.

#[global] Instance outcome_eq_dec : EqDecision outcome.
Proof. solve_decision. Defined.

Definition Cancelled : outcome := Raised CancelledError.

Definition is_CancelledError (e : exn) : bool :=
  match e with CancelledError => true | _ => false end.

(** [isinstance(e, Exception)].  Since Python 3.8 [CancelledError] derives
    from [BaseException] only; the source lists its [except CancelledError]
    clause before [except Exception], so the older classification gives the
    same behaviour (see [rejection_clause_order]). *)
Definition isinstance_Exception (e : exn) : bool :=
  match e with Exception _ => true | _ => false end.

Definition isinstance_Exception_py37 (e : exn) : bool :=
  match e with Exception _ | CancelledError => true | BaseOnly _ => false end.

(** The state of a deferred value, as the spec names it. *)
Inductive pstate : Type :=
| Pending
| Done (o : outcome).

(** Things a coroutine can wait for: the outer future of
    [shield(promise)], which follows the promise at heap address [p] and is
    cancelled without touching it; or a foreign awaitable (the awaitable a
    root wraps, or one a callback returned), described by the outcome it
    has when the loop gets to it.  A foreign awaitable is not an object of
    the heap and is taken to give way to a cancellation: a callback that
    hands back one of the program's own promises, and an awaitable that
    catches the cancellation handed to it, are not described. *)
Inductive awaitable : Type :=
| Shielded (p : nat)
| Foreign (o : outcome).

(** What a callback hands back, seen from [resolve_awaitable]. *)
Inductive result : Type :=
| Plain (v : value)
| Awaitable (o : outcome).

(** A call of a user callback returns or raises. *)
Inductive call : Type :=
| Returns (r : result)
| Raises (e : exn).

(** The argument a callback was entered with, kept in the log. *)
Inductive argument : Type :=
| ArgValue (v : value)
| ArgExn (e : exn)
| NoArg.

(** ** Coroutines *)

Inductive coro (A : Type) : Type :=
| Ret (a : A)
| Throw (e : exn)
| Await (w : awaitable) (k : outcome -> coro A)
| Entered (a : argument) (k : coro A)
| GetDirectCancellation (k : bool -> coro A)
| SetWaitingChainResult (b : bool) (k : coro A).

Arguments Ret {A} a.
Arguments Throw {A} e.
Arguments Await {A} w k.
Arguments Entered {A} a k.
Arguments GetDirectCancellation {A} k.
Arguments SetWaitingChainResult {A} b k.

Fixpoint bind {A B : Type} (c : coro A) (f : A -> coro B) : coro B :=
  match c with
  | Ret a => f a
  | Throw e => Throw e
  | Await w k => Await w (fun o => bind (k o) f)
  | Entered a k => Entered a (bind k f)
  | GetDirectCancellation k => GetDirectCancellation (fun b => bind (k b) f)
  | SetWaitingChainResult b k => SetWaitingChainResult b (bind k f)
  end.

Notation "x <- c ;; k" := (bind c (fun x => k))
  (at level 100, c at next level, right associativity).
Notation "c ;;; k" := (bind c (fun _ => k))
  (at level 100, right associativity).

(** [await w]: suspend on [w]; resume with its value or raise its error. *)
Definition resume_with (o : outcome) : coro value :=
  match o with Fulfilled v => Ret v | Raised e => Throw e end.

Definition await (w : awaitable) : coro value := Await w resume_with.

(** [try: c  except <clauses>]: the first clause whose test accepts the
    exception handles it; with no such clause the exception propagates. *)
Definition clause (A : Type) : Type := (exn -> bool) * (exn -> coro A).

Fixpoint dispatch {A : Type} (cs : list (clause A)) (e : exn) : coro A :=
  match cs with
  | [] => Throw e
  | (test, handler) :: cs' => if test e then handler e else dispatch cs' e
  end.

Fixpoint try_except {A : Type} (c : coro A) (cs : list (clause A)) : coro A :=
  match c with
  | Ret a => Ret a
  | Throw e => dispatch cs e
  | Await w k => Await w (fun o => try_except (k o) cs)
  | Entered a k => Entered a (try_except k cs)
  | GetDirectCancellation k => GetDirectCancellation (fun b => try_except (k b) cs)
  | SetWaitingChainResult b k => SetWaitingChainResult b (try_except k cs)
  end.

(** [try: c  finally: fin]: [fin] runs on every exit path of [c]; when it
    ends normally the outcome of [c] continues, when it raises its
    exception replaces that outcome. *)
Fixpoint try_finally {A : Type} (c : coro A) (fin : coro unit) : coro A :=
  match c with
  | Ret a => fin ;;; Ret a
  | Throw e => fin ;;; Throw e
  | Await w k => Await w (fun o => try_finally (k o) fin)
  | Entered a k => Entered a (try_finally k fin)
  | GetDirectCancellation k => GetDirectCancellation (fun b => try_finally (k b) fin)
  | SetWaitingChainResult b k => SetWaitingChainResult b (try_finally k fin)
  end.

(** Calling a user callback: the entry is observable, then the call
    returns or raises. *)
Definition invoke (a : argument) (c : call) : coro result :=
  Entered a (match c with Returns r => Ret r | Raises e => Throw e end).

(** [resolve_awaitable] (promise.py, lines 16-22): [ensure_future] raises
    TypeError on a plain value, which is returned as it is; an awaitable is
    awaited, without a shield, and the coroutine is suspended on it
    once. *)
Definition resolve_awaitable (r : result) : coro value :=
  match r with
  | Awaitable o => await (Foreign o)
  | Plain v => Ret v
  end.

(** [shield(promise, loop=promise.loop)] *)
Definition shield (promise : nat) : awaitable := Shielded promise.

(** ** Promise objects *)

(** The classes of the two source files.  [ChainLinkFulfillmentC] is the
    [FulfillmentPromise] of chain_link/fulfillment.py. *)
Inductive pclass : Type :=
| PromiseC
| FulfillmentC
| RejectionC
| ResolutionC
| ChainLinkFulfillmentC.

(** A promise object: its attributes, and the task [_fut] that drives its
    coroutine.  The task is the suspended coroutine itself, [Ret] and
    [Throw] being the finished task, with the two bits of [asyncio.Task]
    that matter here: whether a cancellation is waiting to be thrown into
    the coroutine, and whether the coroutine has started running. *)
Record promise : Type := MkPromise {
  cls : pclass;
  _is_managed : bool;
  _direct_cancellation : bool;
  _waiting_chain_result : bool;
  must_cancel : bool;
  started : bool;
  _fut : coro value
}.

Definition set_is_managed (b : bool) (p : promise) : promise :=
  MkPromise (cls p) b (_direct_cancellation p) (_waiting_chain_result p)
            (must_cancel p) (started p) (_fut p).

Definition set_direct_cancellation (b : bool) (p : promise) : promise :=
  MkPromise (cls p) (_is_managed p) b (_waiting_chain_result p)
            (must_cancel p) (started p) (_fut p).

Definition set_waiting_chain_result (b : bool) (p : promise) : promise :=
  MkPromise (cls p) (_is_managed p) (_direct_cancellation p) b
            (must_cancel p) (started p) (_fut p).

Definition set_must_cancel (b : bool) (p : promise) : promise :=
  MkPromise (cls p) (_is_managed p) (_direct_cancellation p)
            (_waiting_chain_result p) b (started p) (_fut p).

Definition set_started (b : bool) (p : promise) : promise :=
  MkPromise (cls p) (_is_managed p) (_direct_cancellation p)
            (_waiting_chain_result p) (must_cancel p) b (_fut p).

Definition set_fut (c : coro value) (p : promise) : promise :=
  MkPromise (cls p) (_is_managed p) (_direct_cancellation p)
            (_waiting_chain_result p) (must_cancel p) (started p) c.

Definition done (p : promise) : option outcome :=
  match _fut p with
  | Ret v => Some (Fulfilled v)
  | Throw e => Some (Raised e)
  | _ => None
  end.

Definition state (p : promise) : pstate :=
  match done p with Some o => Done o | None => Pending end.

(** ** The classes and their methods *)

Module AbstractPromise.
(** Modelled from the spec: the abstract base class is not among the
    sources; section 4.1 says of [cancel() -> bool] that it "requests
    cancellation of the underlying computation; returns whether the request
    was accepted (false if already terminal)" and "propagates the
    scheduler's native cancellation signal into the wrapped computation at
    its current suspension point". *)
Definition cancel (p : promise) : promise * bool :=
  match done p with
  | Some _ => (p, false)
  | None => (set_must_cancel true p, true)
  end.
End AbstractPromise.

Module Promise.
(** promise.py, line 31, overridden at line 100 *)
Definition _warn_no_management (c : pclass) : bool :=
  match c with PromiseC => true | _ => false end.

(** promise.py, lines 33-40: the task for the awaitable, and
    [_is_managed = not self._warn_no_management] *)
Definition __init__ (c : pclass) (coroutine : coro value) : promise :=
  MkPromise c (negb (_warn_no_management c)) false false false false coroutine.

(** promise.py, lines 42-44 *)
Definition __enter__ (p : promise) : promise := set_is_managed true p.
End Promise.

Module ChainPromise.
(** promise.py, lines 102-108.  Line 108 only silences the loop's
    "destroy pending task" warning and has no counterpart here. *)
Definition __init__ (c : pclass) (_wrapper : awaitable -> coro value) (parent : nat)
  : promise :=
  Promise.__init__ c (_wrapper (shield parent)).
End ChainPromise.

Module FulfillmentPromise.
(** promise.py, line 137 *)
Definition _wrapper (on_fulfilled : value -> call) (promise : awaitable) : coro value :=
  x <- await promise ;;
  r <- invoke (ArgValue x) (on_fulfilled x) ;;
  resolve_awaitable r.

(** promise.py, lines 116-122 *)
Definition __init__ (parent : nat) (on_fulfilled : value -> call) : promise :=
  ChainPromise.__init__ FulfillmentC (_wrapper on_fulfilled) parent.
End FulfillmentPromise.

Module RejectionPromise.
(** promise.py, lines 166-169: the two [except] clauses, in order *)
Definition clauses (isinstance_exception : exn -> bool) (on_reject : exn -> call)
  : list (clause value) :=
  [ (is_CancelledError, fun e => Throw e);
    (isinstance_exception,
     fun exc => r <- invoke (ArgExn exc) (on_reject exc) ;; resolve_awaitable r) ].

(** promise.py, lines 164-169 *)
Definition _wrapper (on_reject : exn -> call) (promise : awaitable) : coro value :=
  try_except (await promise) (clauses isinstance_Exception on_reject).

(** promise.py, lines 141-147 *)
Definition __init__ (parent : nat) (on_reject : exn -> call) : promise :=
  ChainPromise.__init__ RejectionC (_wrapper on_reject) parent.
End RejectionPromise.

Module ResolutionPromise.
(** promise.py, lines 198-200: the body of the [finally] block *)
Definition finalizer (on_resolution : unit -> call) : coro unit :=
  GetDirectCancellation (fun direct =>
    if negb direct
    then r <- invoke NoArg (on_resolution tt) ;; resolve_awaitable r ;;; Ret tt
    else Ret tt).

(** promise.py, lines 195-200 *)
Definition _wrapper (on_resolution : unit -> call) (promise : awaitable) : coro value :=
  try_finally (await promise) (finalizer on_resolution).

(** promise.py, lines 173-178 *)
Definition __init__ (parent : nat) (on_resolution : unit -> call) : promise :=
  set_direct_cancellation false
    (ChainPromise.__init__ ResolutionC (_wrapper on_resolution) parent).

(** promise.py, lines 180-182, with the method of the base class that
    [super().cancel()] reaches as a parameter *)
Definition cancel_via (super_cancel : promise -> promise * bool) (p : promise)
  : promise * bool :=
  super_cancel (set_direct_cancellation true p).

Definition cancel : promise -> promise * bool := cancel_via AbstractPromise.cancel.
End ResolutionPromise.

Module ChainLinkPromise.
(** Modelled from the spec: [ChainLinkPromise._ensure_chain] is not among
    the sources; section 4.3 says of the callback's return value "if [it]
    is itself awaitable, await it and use its result as this link's
    outcome; otherwise use it directly". *)
Definition _ensure_chain (r : result) : coro value := resolve_awaitable r.

(** Modelled from the spec: [ChainLinkPromise.__init__] is not among the
    sources; a link is built like a [ChainPromise] and accepts cancellation
    until its callback starts. *)
Definition __init__ (c : pclass) (_wrapper : awaitable -> coro value) (parent : nat)
  : promise :=
  set_waiting_chain_result true (ChainPromise.__init__ c _wrapper parent).

(** Modelled from the spec: [ChainLinkPromise.cancel] is not among the
    sources; section 4.3 says the non-cancellable window "is enforced by
    disabling the ordinary cancellation acceptance path for the remainder
    of the computation once the callback has started". *)
Definition cancel (p : promise) : promise * bool :=
  if _waiting_chain_result p then AbstractPromise.cancel p else (p, false).
End ChainLinkPromise.

Module ChainLinkFulfillmentPromise.
(** chain_link/fulfillment.py, lines 37-48.  [del promise] drops a
    reference and has no counterpart here. *)
Definition _wrapper (on_fulfilled : value -> call) (promise : awaitable) : coro value :=
  result <- await promise ;;
  SetWaitingChainResult false
    (r <- invoke (ArgValue result) (on_fulfilled result) ;;
     ChainLinkPromise._ensure_chain r).

(** chain_link/fulfillment.py, lines 16-22 *)
Definition __init__ (parent : nat) (on_fulfilled : value -> call) : promise :=
  ChainLinkPromise.__init__ ChainLinkFulfillmentC (_wrapper on_fulfilled) parent.
End ChainLinkFulfillmentPromise.

(** ** The heap and the event loop *)

(** What the callbacks and the loop's error-reporting channel let an
    observer see. *)
Inductive event : Type :=
| Invoked (p : nat) (a : argument)
| Diagnostic (p : nat).

Record world : Type := World {
  heap : list promise;
  log : list event
}.

Definition empty : world := World [] [].

Definition state_of (s : world) (p : nat) : option pstate := state <$> heap s !! p.

(** A new object gets the next address. *)
Definition new (p : promise) (s : world) : nat * world :=
  (length (heap s), World (heap s ++ [p]) (log s)).

(** Apply a method to the object at [self]; no such object, no change. *)
Definition modify (self : nat) (f : promise -> promise * list event) (s : world) : world :=
  match heap s !! self with
  | Some p => World (<[self := (f p).1]> (heap s)) (log s ++ (f p).2)
  | None => s
  end.

(** Is the awaited thing finished, and with what.  The outer future of a
    shield finishes with the outcome of the promise it follows. *)
Definition poll (h : list promise) (w : awaitable) : option outcome :=
  match w with
  | Foreign o => Some o
  | Shielded q => h !! q ≫= done
  end.

(** Run a resumed coroutine up to its next suspension or to its end,
    performing what it does on the way. *)
Fixpoint advance (self : nat) (c : coro value) (p : promise) : promise * list event :=
  match c with
  | Entered a k =>
      let r := advance self k p in (r.1, Invoked self a :: r.2)
  | GetDirectCancellation k => advance self (k (_direct_cancellation p)) p
  | SetWaitingChainResult b k => advance self k (set_waiting_chain_result b p)
  | _ => (set_fut c p, [])
  end.

(** One step of the task of promise [self].  A waiting cancellation is
    thrown into the coroutine at the await it is suspended on, or closes a
    coroutine that has not started; otherwise the coroutine resumes when
    what it waits for has finished, and stays suspended when not.
    [Task.cancel] hands the request to the future the task waits for:
    behind a shield that is the outer future, which is cancelled and wakes
    the task with the cancellation while the promise behind it is left
    alone, and this step is what happens.  On a foreign awaitable the step
    takes the awaitable to give way. *)
Definition task_step (self : nat) (h : list promise) (p : promise) : promise * list event :=
  match _fut p with
  | Await w k =>
      if must_cancel p then
        if started p
        then advance self (k Cancelled) (set_must_cancel false p)
        else (set_fut (Throw CancelledError) (set_must_cancel false p), [])
      else
        match poll h w with
        | Some o => advance self (k o) (set_started true p)
        | None => (set_started true p, [])
        end
  | _ => (p, [])
  end.

(** [self.cancel()]: the method of the object's class. *)
Definition cancel_method (p : promise) : promise * bool :=
  match cls p with
  | ResolutionC => ResolutionPromise.cancel p
  | ChainLinkFulfillmentC => ChainLinkPromise.cancel p
  | _ => AbstractPromise.cancel p
  end.

Definition cancel_accepted (self : nat) (s : world) : bool :=
  match heap s !! self with
  | Some p => (cancel_method p).2
  | None => false
  end.

(** promise.py, lines 49-55: nothing when managed, otherwise one call of
    the loop's exception handler. *)
Definition _assert_management (self : nat) (s : world) : option world :=
  p ← heap s !! self;
  Some (if _is_managed p then s else World (heap s) (log s ++ [Diagnostic self])).

(** promise.py, lines 57-69 *)
Definition then_ (self : nat) (on_fulfilled : value -> call) (s : world)
  : option (nat * world) :=
  s' ← _assert_management self s;
  Some (new (FulfillmentPromise.__init__ self on_fulfilled) s').

(** promise.py, lines 71-83 *)
Definition catch (self : nat) (on_reject : exn -> call) (s : world)
  : option (nat * world) :=
  s' ← _assert_management self s;
  Some (new (RejectionPromise.__init__ self on_reject) s').

(** promise.py, lines 85-94 *)
Definition lastly (self : nat) (on_resolved : unit -> call) (s : world)
  : option (nat * world) :=
  s' ← _assert_management self s;
  Some (new (ResolutionPromise.__init__ self on_resolved) s').

(** Modelled from the spec: the [then] that builds the link of
    chain_link/fulfillment.py is not among the sources; it is taken to do
    what [then] of promise.py does, with that class. *)
Definition chain_link_then (self : nat) (on_fulfilled : value -> call) (s : world)
  : option (nat * world) :=
  s' ← _assert_management self s;
  Some (new (ChainLinkFulfillmentPromise.__init__ self on_fulfilled) s').

(** The callback of a link, by the method that registers it, and that
    method. *)
Inductive handler : Type :=
| OnFulfilled (on_fulfilled : value -> call)
| OnRejected (on_reject : exn -> call)
| OnResolved (on_resolved : unit -> call)
| OnFulfilledChainLink (on_fulfilled : value -> call).

Definition chain (k : handler) (self : nat) (s : world) : option (nat * world) :=
  match k with
  | OnFulfilled f => then_ self f s
  | OnRejected g => catch self g s
  | OnResolved h => lastly self h s
  | OnFulfilledChainLink f => chain_link_then self f s
  end.

(** Modelled from the spec: the constructor of the abstract base class is
    not among the sources; section 3 says a deferred value is "created when
    constructed from an awaitable", and stays pending until the loop has
    driven that awaitable to its end. *)
Definition promise_of (o : outcome) (s : world) : nat * world :=
  new (Promise.__init__ PromiseC (await (Foreign o))) s.

(** What can happen to the promises there are: the loop steps a task, or
    the caller uses a public method ([__exit__], promise.py lines 46-47,
    is [self.cancel()]). *)
Inductive action : Type :=
| Step (p : nat)
| Cancel (p : nat)
| Enter (p : nat)
| Exit (p : nat).

Definition target (a : action) : nat :=
  match a with Step p | Cancel p | Enter p | Exit p => p end.

(** What an action does to the object it is aimed at. *)
Definition local (a : action) (h : list promise) (p : promise) : promise * list event :=
  match a with
  | Step self => task_step self h p
  | Cancel _ | Exit _ => ((cancel_method p).1, [])
  | Enter _ => (Promise.__enter__ p, [])
  end.

Definition act (a : action) (s : world) : world :=
  modify (target a) (local a (heap s)) s.

Fixpoint run (acts : list action) (s : world) : world :=
  match acts with
  | [] => s
  | a :: acts' => run acts' (act a s)
  end.

(** A caller's program also makes promises. *)
Inductive command : Type :=
| Act (a : action)
| New (o : outcome)
| Then (self : nat) (on_fulfilled : value -> call)
| Catch (self : nat) (on_reject : exn -> call)
| Lastly (self : nat) (on_resolved : unit -> call)
| ChainLinkThen (self : nat) (on_fulfilled : value -> call).

Definition made (s : world) (r : option (nat * world)) : world :=
  match r with Some (_, s') => s' | None => s end.

Definition exec1 (c : command) (s : world) : world :=
  match c with
  | Act a => act a s
  | New o => (promise_of o s).2
  | Then self f => made s (then_ self f s)
  | Catch self g => made s (catch self g s)
  | Lastly self h => made s (lastly self h s)
  | ChainLinkThen self f => made s (chain_link_then self f s)
  end.

Fixpoint exec (cs : list command) (s : world) : world :=
  match cs with
  | [] => s
  | c :: cs' => exec cs' (exec1 c s)
  end.

(** The arguments the callback of promise [p] was entered with, in order,
    and how often that was. *)
Definition arguments_of (p : nat) (l : list event) : list argument :=
  flat_map (fun ev => match ev with
                      | Invoked q a => if Nat.eqb p q then [a] else []
                      | Diagnostic _ => []
                      end) l.

Definition invocations (p : nat) (l : list event) : nat := length (arguments_of p l).

Definition diagnostics_of (p : nat) (l : list event) : nat :=
  length (flat_map (fun ev => match ev with
                              | Diagnostic q => if Nat.eqb p q then [tt] else []
                              | Invoked _ _ => []
                              end) l).

Definition event_promise (ev : event) : nat :=
  match ev with Invoked p _ | Diagnostic p => p end.

(** Does the action call [cancel()] on promise [c] itself. *)
Definition cancels (c : nat) (a : action) : bool :=
  match a with
  | Cancel p | Exit p => Nat.eqb p c
  | Step _ | Enter _ => false
  end.

Definition never_cancels (c : nat) (acts : list action) : bool :=
  forallb (fun a => negb (cancels c a)) acts.

(** The outcome a call settles to: the value returned, the result of the
    awaitable returned, or the error raised. *)
Definition settled (c : call) : outcome :=
  match c with
  | Returns (Plain v) => Fulfilled v
  | Returns (Awaitable o) => o
  | Raises e => Raised e
  end.

(** ** Reading coroutines *)

(** [may_await q c]: on some path [c] suspends on the shield of promise
    [q]. *)
Fixpoint may_await {A : Type} (q : nat) (c : coro A) : Prop :=
  match c with
  | Ret _ | Throw _ => False
  | Await w k => w = Shielded q ∨ ∃ o, may_await q (k o)
  | Entered _ k => may_await q k
  | GetDirectCancellation k => ∃ b, may_await q (k b)
  | SetWaitingChainResult _ k => may_await q k
  end.

(** A coroutine at rest: finished, or suspended at an await. *)
Definition at_rest {A : Type} (c : coro A) : Prop :=
  match c with
  | Ret _ | Throw _ | Await _ _ => True
  | _ => False
  end.

(** [callfree c]: on no path does [c] enter a callback. *)
Fixpoint callfree {A : Type} (c : coro A) : Prop :=
  match c with
  | Ret _ | Throw _ => True
  | Await _ k => ∀ o, callfree (k o)
  | Entered _ _ => False
  | GetDirectCancellation k => ∀ b, callfree (k b)
  | SetWaitingChainResult _ k => callfree k
  end.

(** [cancels_quietly direct c]: run with [_direct_cancellation = direct],
    [c] ends at once with the cancellation and enters no callback. *)
Fixpoint cancels_quietly (direct : bool) (c : coro value) : Prop :=
  match c with
  | Throw e => e = CancelledError
  | GetDirectCancellation k => cancels_quietly direct (k direct)
  | SetWaitingChainResult _ k => cancels_quietly direct k
  | Ret _ | Await _ _ | Entered _ _ => False
  end.

(** The undisturbed run of a coroutine: the parent has outcome [parent],
    every foreign awaitable is waited for, nobody cancels. *)
Definition look (parent : outcome) (w : awaitable) : outcome :=
  match w with Shielded _ => parent | Foreign o => o end.

Fixpoint finish (parent : outcome) (direct : bool) (c : coro value)
  : outcome * list argument :=
  match c with
  | Ret v => (Fulfilled v, [])
  | Throw e => (Raised e, [])
  | Await w k => finish parent direct (k (look parent w))
  | Entered a k => let r := finish parent direct k in (r.1, a :: r.2)
  | GetDirectCancellation k => finish parent direct (k direct)
  | SetWaitingChainResult _ k => finish parent direct k
  end.

Fixpoint suspensions (parent : outcome) (direct : bool) (c : coro value) : nat :=
  match c with
  | Ret _ | Throw _ => 0
  | Await w k => S (suspensions parent direct (k (look parent w)))
  | Entered _ k => suspensions parent direct k
  | GetDirectCancellation k => suspensions parent direct (k direct)
  | SetWaitingChainResult _ k => suspensions parent direct k
  end.

(** ** Invariants *)

(** Every world a program can build has these: a coroutine only awaits
    promises older than its own, chain links are managed, and the log only
    speaks of promises there are. *)
Record wf (s : world) : Prop := Wf {
  wf_parent : ∀ p pp q, heap s !! p = Some pp → may_await q (_fut pp) → q < p;
  wf_at_rest : ∀ p pp, heap s !! p = Some pp → at_rest (_fut pp);
  wf_managed : ∀ p pp, heap s !! p = Some pp → cls pp ≠ PromiseC → _is_managed pp = true;
  wf_log : ∀ ev, ev ∈ log s → event_promise ev < length (heap s)
}.

(** The parent [v] is pending, or done with [op]. *)
Definition parent_may_be (s : world) (v : nat) (op : outcome) : Prop :=
  state_of s v = Some Pending ∨ state_of s v = Some (Done op).

(** A link [c] on parent [v] whose coroutine began as [W] and on which
    [cancel()] was never called: what is in the log and what is left of
    the coroutine add up to the undisturbed run of [W]. *)
Definition undisturbed (c v : nat) (W : coro value) (s : world) : Prop :=
  ∃ pc, heap s !! c = Some pc
    ∧ must_cancel pc = false
    ∧ _direct_cancellation pc = false
    ∧ at_rest (_fut pc)
    ∧ (∀ q, may_await q (_fut pc) → q = v)
    ∧ (state_of s v = Some Pending → _fut pc = W)
    ∧ ∀ op, parent_may_be s v op →
        arguments_of c (log s) ++ (finish op false (_fut pc)).2 = (finish op false W).2
        ∧ (finish op false (_fut pc)).1 = (finish op false W).1
        ∧ suspensions op false (_fut pc) ≤ suspensions op false W.

(** A link on which [cancel()] was called before its coroutine got past
    its first await: the cancellation is waiting, or has been delivered. *)
Definition doomed (p : promise) : Prop :=
  (cls p = ResolutionC → _direct_cancellation p = true)
  ∧ (_fut p = Throw CancelledError
     ∨ (must_cancel p = true
        ∧ ∃ w k, _fut p = Await w k
                 ∧ cancels_quietly (_direct_cancellation p) (k Cancelled))).

(** A link [c] on parent [v] for an outcome [op] of the parent that its
    wrapper [W] hands on without entering the callback: unless the parent
    ended otherwise, the callback was never entered and the link waits, is
    cancelled, or has ended as the parent did. *)
Definition passive (c v : nat) (W : coro value) (op : outcome) (s : world) : Prop :=
  (∃ o, state_of s v = Some (Done o) ∧ o ≠ op)
  ∨ (arguments_of c (log s) = []
     ∧ ∃ pc, heap s !! c = Some pc
             ∧ (_fut pc = W ∨ _fut pc = Throw CancelledError
                ∨ _fut pc = resume_with op)).

(** A resolution link at any time: still at its first await, or past the
    point where the finalizer could be entered. *)
Definition resolution_link (W : coro value) (p : promise) : Prop :=
  cls p = ResolutionC ∧ (_fut p = W ∨ callfree (_fut p)).

(** A link [c] of class [X] begun as [W], in any interleaving: nothing
    that is left of its coroutine enters a callback; or it still waits at
    its first await, its callback not entered and, for the link of
    chain_link/fulfillment.py, [_waiting_chain_result] still set. *)
Definition waiting_or_spent (c : nat) (X : pclass) (W : coro value) (s : world) : Prop :=
  ∃ pc, heap s !! c = Some pc
    ∧ cls pc = X
    ∧ (callfree (_fut pc)
       ∨ (arguments_of c (log s) = []
          ∧ _fut pc = W
          ∧ (X = ChainLinkFulfillmentC → _waiting_chain_result pc = true))).

(** ** What a link makes of its parent's outcome *)

(** The outcome of [v.then(f)] for an outcome of [v], by lines 124-137 of
    promise.py, and of [v.catch(g)], by lines 164-169. *)
Definition fulfillment_result (f : value -> call) (o : outcome) : outcome :=
  match o with
  | Fulfilled x => settled (f x)
  | Raised e => Raised e
  end.

Definition rejection_result (g : exn -> call) (o : outcome) : outcome :=
  match o with
  | Fulfilled x => Fulfilled x
  | Raised e =>
      if is_CancelledError e then Raised e
      else if isinstance_Exception e then settled (g e)
      else Raised e
  end.

(** The outcome of [v.lastly(h)], by lines 195-200, and the outcome of
    any link by the method that made it. *)
Definition resolution_result (h : unit -> call) (o : outcome) : outcome :=
  match settled (h tt) with
  | Fulfilled _ => o
  | Raised e => Raised e
  end.

Definition link_result (k : handler) (o : outcome) : outcome :=
  match k with
  | OnFulfilled f => fulfillment_result f o
  | OnRejected g => rejection_result g o
  | OnResolved h => resolution_result h o
  | OnFulfilledChainLink f => fulfillment_result f o
  end.

(** The one argument list a link's callback can be entered with, for an
    outcome of the parent. *)
Definition expected_arguments (k : handler) (o : outcome) : list argument :=
  match k, o with
  | OnFulfilled _, Fulfilled x => [ArgValue x]
  | OnFulfilledChainLink _, Fulfilled x => [ArgValue x]
  | OnRejected _, Raised e =>
      if is_CancelledError e then []
      else if isinstance_Exception e then [ArgExn e] else []
  | OnResolved _, _ => [NoArg]
  | _, _ => []
  end.

(** A link [c] of class [X] on parent [v], begun as [W], in any
    interleaving: it has not got past its first await and its callback was
    not entered; or the parent is done, nothing of the coroutine that is
    left enters a callback, and the callback was entered with the
    arguments of the undisturbed run, if at all. *)
Definition lifecycle (c v : nat) (X : pclass) (W : coro value) (s : world) : Prop :=
  ∃ pc, heap s !! c = Some pc
    ∧ cls pc = X
    ∧ ((arguments_of c (log s) = []
        ∧ (_fut pc = W ∨ _fut pc = Throw CancelledError)
        ∧ (must_cancel pc = true →
           ∀ w k, W = Await w k →
                  cancels_quietly (_direct_cancellation pc) (k Cancelled)))
       ∨ (∃ o, state_of s v = Some (Done o)
               ∧ callfree (_fut pc)
               ∧ (arguments_of c (log s) = []
                  ∨ arguments_of c (log s) = (finish o false W).2))).

(** The actions of an interleaving, those that call [cancel()] on [c] left
    out. *)
Definition drop_cancels (c : nat) (acts : list action) : list action :=
  List.filter (fun a => negb (cancels c a)) acts.

(** Two worlds that differ at most in promise [c] and in what the log says
    of it, when no other promise awaits [c]. *)
Definition agree_off (c : nat) (sA sB : world) : Prop :=
  length (heap sA) = length (heap sB)
  ∧ (∀ q, q ≠ c → heap sA !! q = heap sB !! q)
  ∧ (∀ q, q ≠ c → arguments_of q (log sA) = arguments_of q (log sB))
  ∧ (∀ q pq, heap sB !! q = Some pq → ¬ may_await c (_fut pq)).

(** [yields res c]: at every await [c] can be suspended on, a cancellation
    thrown in ends it at once with that cancellation; for the coroutine of
    a resolution link ([res]), given that its [_direct_cancellation] flag
    is set. *)
Fixpoint yields (res : bool) (c : coro value) : Prop :=
  match c with
  | Ret _ | Throw _ => True
  | Await _ k =>
      (∀ d, (res = true → d = true) → cancels_quietly d (k Cancelled))
      ∧ ∀ o, yields res (k o)
  | Entered _ k => yields res k
  | GetDirectCancellation k => ∀ b, yields res (k b)
  | SetWaitingChainResult _ k => yields res k
  end.

Definition is_resolution (X : pclass) : bool :=
  match X with ResolutionC => true | _ => false end.

(** Every promise of the classes of promise.py yields to cancellation. *)
Definition yielding (s : world) : Prop :=
  ∀ p pp, heap s !! p = Some pp → cls pp ≠ ChainLinkFulfillmentC →
          yields (is_resolution (cls pp)) (_fut pp).

(** Two worlds that differ in [_is_managed] and in diagnostics at most. *)
Definition forget_managed (p : promise) : promise := set_is_managed true p.

Definition same_but_managed (sA sB : world) : Prop :=
  forget_managed <$> heap sA = forget_managed <$> heap sB
  ∧ ∀ c, arguments_of c (log sA) = arguments_of c (log sB).

(** A program with its [__enter__] calls left out. *)
Definition is_enter (c : command) : bool :=
  match c with Act (Enter _) => true | _ => false end.

Definition without_scopes (prog : list command) : list command :=
  List.filter (fun c => negb (is_enter c)) prog.

(** The call of a link's callback that an outcome of the parent leads to,
    if it leads to one, and whether that call hands back an awaitable, on
    which [resolve_awaitable] (promise.py, lines 16-22) then waits. *)
Definition callback_call (k : handler) (o : outcome) : option call :=
  match k, o with
  | OnFulfilled f, Fulfilled x => Some (f x)
  | OnFulfilledChainLink f, Fulfilled x => Some (f x)
  | OnRejected g, Raised e =>
      if is_CancelledError e then None
      else if isinstance_Exception e then Some (g e) else None
  | OnResolved h, _ => Some (h tt)
  | _, _ => None
  end.

Definition hands_back_awaitable (k : handler) (o : outcome) : bool :=
  match callback_call k o with
  | Some (Returns (Awaitable _)) => true
  | _ => false
  end.

(** A link [c] of chain_link/fulfillment.py on parent [v] whose callback
    [f] has been entered, with [x]: line 46 has cleared
    [_waiting_chain_result], no cancellation waits, and the coroutine has
    ended as the callback did or waits for the awaitable it handed back. *)
Definition latched (c v : nat) (f : value -> call) (x : value) (s : world) : Prop :=
  state_of s v = Some (Done (Fulfilled x))
  ∧ arguments_of c (log s) = [ArgValue x]
  ∧ ∃ pc, heap s !! c = Some pc
      ∧ cls pc = ChainLinkFulfillmentC
      ∧ _waiting_chain_result pc = false
      ∧ must_cancel pc = false
      ∧ (_fut pc = resume_with (settled (f x))
         ∨ ∃ a, f x = Returns (Awaitable a) ∧ _fut pc = await (Foreign a)).

(** Such a link at any time: at its first await or ended without its
    callback, or past line 46. *)
Definition window (c v : nat) (f : value -> call) (s : world) : Prop :=
  (arguments_of c (log s) = []
   ∧ ∃ pc, heap s !! c = Some pc
       ∧ cls pc = ChainLinkFulfillmentC
       ∧ (_fut pc = ChainLinkFulfillmentPromise._wrapper f (Shielded v)
          ∨ ∃ e, _fut pc = Throw e))
  ∨ ∃ x, latched c v f x s.

(** ** The scenarios of the spec *)

Definition plus_one (v : value) : call :=
  match v with
  | VInt n => Returns (Plain (VInt (n + 1)))
  | _ => Raises (Exception "TypeError")
  end.

Definition times_two (v : value) : call :=
  match v with
  | VInt n => Returns (Plain (VInt (n * 2)))
  | _ => Raises (Exception "TypeError")
  end.

Definition recovered (_ : exn) : call := Returns (Plain (VStr "recovered")).

Definition side_effect (_ : unit) : call := Returns (Plain (VInt 42)).

Definition slow_plus_one (v : value) : call :=
  match v with
  | VInt n => Returns (Awaitable (Fulfilled (VInt (n + 1))))
  | _ => Raises (Exception "TypeError")
  end.

Definition failing_cleanup (_ : unit) : call := Raises (Exception "CleanupError").

(** root resolves to 5; [then(x => x+1).then(x => x*2)] *)
Definition scenario_then_then : world :=
  exec [New (Fulfilled (VInt 5)); Then 0 plus_one; Then 1 times_two;
        Act (Step 0); Act (Step 1); Act (Step 2)] empty.

(** root rejects with E; [then(f).catch(e => "recovered")] *)
Definition scenario_then_catch : world :=
  exec [New (Raised (Exception "E")); Then 0 plus_one; Catch 1 recovered;
        Act (Step 0); Act (Step 1); Act (Step 2)] empty.

(** root fulfills with 1; [lastly(() => sideEffect())] *)
Definition scenario_lastly : world :=
  exec [New (Fulfilled (VInt 1)); Lastly 0 side_effect;
        Act (Step 0); Act (Step 1)] empty.

(** * Theorems *)

Example scenario_then_then_yields_12 :
  state_of scenario_then_then 2 = Some (Done (Fulfilled (VInt 12))).
Proof. reflexivity. Qed.

Example scenario_then_catch_recovers :
  state_of scenario_then_catch 2 = Some (Done (Fulfilled (VStr "recovered")))
  ∧ invocations 1 (log scenario_then_catch) = 0.
Proof. split; reflexivity. Qed.

Example scenario_lastly_passes_through :
  state_of scenario_lastly 1 = Some (Done (Fulfilled (VInt 1)))
  ∧ invocations 1 (log scenario_lastly) = 1.
Proof. split; reflexivity. Qed.

(** ** The heap *)

Section Heap.
Implicit Types (s : world) (p : promise) (f : promise → promise * list event).

Lemma modify_missing self f s :
  heap s !! self = None → modify self f s = s.
Proof. unfold modify. by intros ->. Qed.

Lemma modify_length self f s :
  length (heap (modify self f s)) = length (heap s).
Proof.
  unfold modify. destruct (heap s !! self); [|done].
  simpl. by rewrite length_insert.
Qed.

Lemma modify_lookup_ne self f s q :
  q ≠ self → heap (modify self f s) !! q = heap s !! q.
Proof.
  intros Hne. unfold modify. destruct (heap s !! self); [|done].
  simpl. by rewrite list_lookup_insert_ne.
Qed.

Lemma modify_lookup self f s p :
  heap s !! self = Some p → heap (modify self f s) !! self = Some (f p).1.
Proof.
  intros Hp. unfold modify. rewrite Hp. simpl.
  apply list_lookup_insert_eq. by eapply lookup_lt_Some.
Qed.

Lemma modify_log self f s p :
  heap s !! self = Some p → log (modify self f s) = log s ++ (f p).2.
Proof. intros Hp. unfold modify. by rewrite Hp. Qed.

Lemma act_missing a s : heap s !! target a = None → act a s = s.
Proof. apply modify_missing. Qed.

Lemma act_length a s : length (heap (act a s)) = length (heap s).
Proof. apply modify_length. Qed.

Lemma act_other a s q : q ≠ target a → heap (act a s) !! q = heap s !! q.
Proof. apply modify_lookup_ne. Qed.

Lemma act_here a s p :
  heap s !! target a = Some p →
  heap (act a s) !! target a = Some (local a (heap s) p).1
  ∧ log (act a s) = log s ++ (local a (heap s) p).2.
Proof.
  intros Hp. split; [by apply modify_lookup | by apply modify_log].
Qed.

Lemma run_app acts1 acts2 s : run (acts1 ++ acts2) s = run acts2 (run acts1 s).
Proof. revert s. induction acts1 as [|a acts1 IH]; intros s; simpl; [done | apply IH]. Qed.

Lemma run_length acts s : length (heap (run acts s)) = length (heap s).
Proof.
  revert s. induction acts as [|a acts IH]; intros s; simpl; [done|].
  by rewrite IH, act_length.
Qed.

End Heap.

(** ** The log *)

Lemma arguments_of_app p l1 l2 :
  arguments_of p (l1 ++ l2) = arguments_of p l1 ++ arguments_of p l2.
Proof. unfold arguments_of. apply flat_map_app. Qed.

Lemma invocations_app p l1 l2 :
  invocations p (l1 ++ l2) = invocations p l1 + invocations p l2.
Proof. unfold invocations. by rewrite arguments_of_app, length_app. Qed.

Lemma arguments_of_foreign p l :
  Forall (λ ev, event_promise ev ≠ p) l → arguments_of p l = [].
Proof.
  induction 1 as [|ev l Hev _ IH]; [done|].
  unfold arguments_of in *. simpl. rewrite IH, app_nil_r.
  destruct ev as [q a|q]; [|done]. simpl in Hev.
  destruct (Nat.eqb_spec p q); [congruence | done].
Qed.

(** ** Running a resumed coroutine *)

Section Advance.
Context (self : nat).
Implicit Types (c : coro value) (p : promise).

Lemma advance_attributes c p :
  cls (advance self c p).1 = cls p
  ∧ _is_managed (advance self c p).1 = _is_managed p
  ∧ _direct_cancellation (advance self c p).1 = _direct_cancellation p
  ∧ must_cancel (advance self c p).1 = must_cancel p
  ∧ started (advance self c p).1 = started p.
Proof.
  revert p. induction c as [v|e|w k _|a k IH|k IH|b k IH]; intros p; simpl;
    [done | done | done | apply IH | apply IH |].
  destruct (IH (set_waiting_chain_result b p)) as (H1 & H2 & H3 & H4 & H5).
  by rewrite H1, H2, H3, H4, H5.
Qed.

Lemma advance_at_rest c p : at_rest (_fut (advance self c p).1).
Proof.
  revert p. induction c as [v|e|w k _|a k IH|k IH|b k IH]; intros p; simpl;
    [done | done | done | apply IH | apply IH | apply IH].
Qed.

Lemma advance_may_await c p q :
  may_await q (_fut (advance self c p).1) → may_await q c.
Proof.
  revert p. induction c as [v|e|w k _|a k IH|k IH|b k IH]; intros p; simpl;
    [done | done | done | apply IH | | apply IH].
  intros H. eexists. eapply IH, H.
Qed.

Lemma advance_events c p :
  Forall (λ ev, ∃ a, ev = Invoked self a) (advance self c p).2.
Proof.
  revert p. induction c as [v|e|w k _|a k IH|k IH|b k IH]; intros p; simpl;
    [by constructor | by constructor | by constructor | | apply IH | apply IH].
  constructor; [by eexists | apply IH].
Qed.

Lemma advance_finish op c p :
  (finish op (_direct_cancellation p) c).1
    = (finish op (_direct_cancellation p) (_fut (advance self c p).1)).1
  ∧ (finish op (_direct_cancellation p) c).2
    = arguments_of self (advance self c p).2
        ++ (finish op (_direct_cancellation p) (_fut (advance self c p).1)).2
  ∧ suspensions op (_direct_cancellation p) c
    = suspensions op (_direct_cancellation p) (_fut (advance self c p).1).
Proof.
  revert p. induction c as [v|e|w k _|a k IH|k IH|b k IH]; intros p; simpl;
    [done | done | done | | apply IH | apply (IH (set_waiting_chain_result b p))].
  destruct (IH p) as (H1 & H2 & H3). rewrite H1, H2, H3.
  unfold arguments_of. simpl. by rewrite Nat.eqb_refl.
Qed.

Lemma advance_callfree c p :
  callfree c → (advance self c p).2 = [] ∧ callfree (_fut (advance self c p).1).
Proof.
  revert p. induction c as [v|e|w k _|a k IH|k IH|b k IH]; intros p; simpl;
    [done | done | done | done | | apply IH].
  intros H. apply IH, H.
Qed.

Lemma advance_cancels_quietly c p :
  cancels_quietly (_direct_cancellation p) c →
  (advance self c p).2 = [] ∧ _fut (advance self c p).1 = Throw CancelledError.
Proof.
  revert p. induction c as [v|e|w k _|a k IH|k IH|b k IH]; intros p; simpl;
    [done | by intros -> | done | done | apply IH
    | apply (IH (set_waiting_chain_result b p))].
Qed.

End Advance.

(** ** What the wrappers wait for *)

Section MayAwait.
Context {A B : Type}.

Lemma may_await_bind q (c : coro A) (f : A → coro B) :
  may_await q (bind c f) → may_await q c ∨ ∃ a, may_await q (f a).
Proof.
  induction c as [a|e|w k IH|a k IH|k IH|b k IH]; simpl.
  - intros H. right. by exists a.
  - done.
  - intros [H|[o H]]; [by left; left|].
    destruct (IH o H) as [H'|H']; [left; right; by exists o | by right].
  - apply IH.
  - intros [b H]. destruct (IH b H) as [H'|H']; [left; by exists b | by right].
  - apply IH.
Qed.

Lemma may_await_try_except q (c : coro A) (cs : list (clause A)) :
  may_await q (try_except c cs) → may_await q c ∨ ∃ e, may_await q (dispatch cs e).
Proof.
  induction c as [a|e|w k IH|a k IH|k IH|b k IH]; simpl.
  - done.
  - intros H. right. by exists e.
  - intros [H|[o H]]; [by left; left|].
    destruct (IH o H) as [H'|H']; [left; right; by exists o | by right].
  - apply IH.
  - intros [b H]. destruct (IH b H) as [H'|H']; [left; by exists b | by right].
  - apply IH.
Qed.

End MayAwait.

Lemma may_await_try_finally {A : Type} q (c : coro A) (fin : coro unit) :
  may_await q (try_finally c fin) → may_await q c ∨ may_await q fin.
Proof.
  induction c as [a|e|w k IH|a k IH|k IH|b k IH]; simpl.
  - intros H. apply may_await_bind in H as [H|[? []]]. by right.
  - intros H. apply may_await_bind in H as [H|[? []]]. by right.
  - intros [H|[o H]]; [by left; left|].
    destruct (IH o H) as [H'|H']; [left; right; by exists o | by right].
  - apply IH.
  - intros [b H]. destruct (IH b H) as [H'|H']; [left; by exists b | by right].
  - apply IH.
Qed.

Lemma may_await_await q w : may_await q (await w) → w = Shielded q.
Proof. simpl. intros [H|[o H]]; [done | by destruct o]. Qed.

Lemma may_await_resolve_awaitable q r : ¬ may_await q (resolve_awaitable r).
Proof.
  destruct r as [v|o]; simpl; [tauto|].
  intros [H|[o' H]]; [done | by destruct o'].
Qed.

Lemma may_await_invoke q a c : ¬ may_await q (invoke a c).
Proof. destruct c; simpl; tauto. Qed.

Lemma may_await_callback q a (cb : call) :
  ¬ may_await q (r <- invoke a cb ;; resolve_awaitable r).
Proof.
  intros H. apply may_await_bind in H as [H|[r H]].
  - by apply may_await_invoke in H.
  - by apply may_await_resolve_awaitable in H.
Qed.

Lemma fulfillment_wrapper_awaits q v f :
  may_await q (FulfillmentPromise._wrapper f (Shielded v)) → q = v.
Proof.
  unfold FulfillmentPromise._wrapper. intros H.
  apply may_await_bind in H as [H|[x H]].
  - apply may_await_await in H. congruence.
  - by apply may_await_callback in H.
Qed.

Lemma rejection_wrapper_awaits q v g :
  may_await q (RejectionPromise._wrapper g (Shielded v)) → q = v.
Proof.
  unfold RejectionPromise._wrapper. intros H.
  apply may_await_try_except in H as [H|[e H]].
  - apply may_await_await in H. congruence.
  - simpl in H. destruct (is_CancelledError e); [done|].
    destruct (isinstance_Exception e); [|done].
    by apply may_await_callback in H.
Qed.

Lemma resolution_wrapper_awaits q v h :
  may_await q (ResolutionPromise._wrapper h (Shielded v)) → q = v.
Proof.
  unfold ResolutionPromise._wrapper. intros H.
  apply may_await_try_finally in H as [H|H].
  - apply may_await_await in H. congruence.
  - simpl in H. destruct H as [[] H]; simpl in H; [done|].
    destruct (h tt) as [r|e]; simpl in H; [|done].
    apply may_await_bind in H as [H|[? H]]; [|done].
    by apply may_await_resolve_awaitable in H.
Qed.

Lemma chain_link_wrapper_awaits q v f :
  may_await q (ChainLinkFulfillmentPromise._wrapper f (Shielded v)) → q = v.
Proof.
  unfold ChainLinkFulfillmentPromise._wrapper. intros H.
  apply may_await_bind in H as [H|[x H]].
  - apply may_await_await in H. congruence.
  - destruct (may_await_callback q (ArgValue x) (f x) H).
Qed.

(** ** What one action does to its promise *)

Section Local.
Implicit Types (a : action) (h : list promise) (p : promise).

Lemma cancel_method_attributes p :
  cls (cancel_method p).1 = cls p
  ∧ _is_managed (cancel_method p).1 = _is_managed p
  ∧ started (cancel_method p).1 = started p
  ∧ _waiting_chain_result (cancel_method p).1 = _waiting_chain_result p
  ∧ _fut (cancel_method p).1 = _fut p.
Proof.
  unfold cancel_method, ResolutionPromise.cancel, ResolutionPromise.cancel_via,
    ChainLinkPromise.cancel, AbstractPromise.cancel, done.
  destruct p as [c m d w mc st fut]; simpl. by destruct c, w, fut.
Qed.

Lemma cancel_method_direct p :
  _direct_cancellation p = true → _direct_cancellation (cancel_method p).1 = true.
Proof.
  unfold cancel_method, ResolutionPromise.cancel, ResolutionPromise.cancel_via,
    ChainLinkPromise.cancel, AbstractPromise.cancel, done.
  destruct p as [c m d w mc st fut]; simpl. by destruct c, w, fut.
Qed.

Lemma cancel_method_must_cancel p :
  must_cancel p = true → must_cancel (cancel_method p).1 = true.
Proof.
  unfold cancel_method, ResolutionPromise.cancel, ResolutionPromise.cancel_via,
    ChainLinkPromise.cancel, AbstractPromise.cancel, done.
  destruct p as [c m d w mc st fut]; simpl. by destruct c, w, fut.
Qed.

Lemma task_step_attributes self h p :
  cls (task_step self h p).1 = cls p
  ∧ _is_managed (task_step self h p).1 = _is_managed p
  ∧ _direct_cancellation (task_step self h p).1 = _direct_cancellation p.
Proof.
  destruct p as [c m d wt mc st fut]. unfold task_step. simpl.
  destruct fut as [v|e|w k|x k|k|b k]; try done.
  destruct mc.
  - destruct st; [|done].
    match goal with |- context [advance self ?c ?q] =>
      by destruct (advance_attributes self c q) as (-> & -> & -> & _) end.
  - destruct (poll h w) as [o|]; [|done].
    match goal with |- context [advance self ?c ?q] =>
      by destruct (advance_attributes self c q) as (-> & -> & -> & _) end.
Qed.

Lemma task_step_at_rest self h p :
  at_rest (_fut p) → at_rest (_fut (task_step self h p).1).
Proof.
  destruct p as [c m d wt mc st fut]. unfold task_step. simpl.
  destruct fut as [v|e|w k|x k|k|b k]; try done. intros _.
  destruct mc.
  - destruct st; [apply advance_at_rest | done].
  - destruct (poll h w) as [o|]; [apply advance_at_rest | done].
Qed.

Lemma task_step_may_await self h p q :
  may_await q (_fut (task_step self h p).1) → may_await q (_fut p).
Proof.
  destruct p as [c m d wt mc st fut]. unfold task_step. simpl.
  destruct fut as [v|e|w k|x k|k|b k]; try done.
  destruct mc.
  - destruct st; [|done].
    intros H%advance_may_await. right. by eexists.
  - destruct (poll h w) as [o|]; [|done].
    intros H%advance_may_await. right. by eexists.
Qed.

Lemma task_step_events self h p :
  Forall (λ ev, ∃ x, ev = Invoked self x) (task_step self h p).2.
Proof.
  unfold task_step.
  destruct (_fut p) as [v|e|w k|x k|k|b k]; try by constructor.
  destruct (must_cancel p).
  - destruct (started p); [apply advance_events | by constructor].
  - destruct (poll h w) as [o|]; [apply advance_events | by constructor].
Qed.

Lemma task_step_done self h p o :
  done p = Some o → task_step self h p = (p, []).
Proof.
  unfold done, task_step. by destruct (_fut p).
Qed.

Lemma task_step_heap self h h' p :
  (∀ q, may_await q (_fut p) → h !! q = h' !! q) →
  task_step self h p = task_step self h' p.
Proof.
  unfold task_step. intros Hh.
  destruct (_fut p) as [v|e|w k|x k|k|b k]; try done.
  destruct (must_cancel p); [done|].
  assert (poll h w = poll h' w) as ->; [|done].
  destruct w as [q|o]; [|done]. simpl. rewrite (Hh q); [done|]. by left.
Qed.

Lemma local_attributes a h p :
  cls (local a h p).1 = cls p
  ∧ (_is_managed p = true → _is_managed (local a h p).1 = true)
  ∧ (_direct_cancellation p = true → _direct_cancellation (local a h p).1 = true).
Proof.
  destruct a as [self|self|self|self]; simpl.
  - destruct (task_step_attributes self h p) as (-> & -> & ->). done.
  - destruct (cancel_method_attributes p) as (-> & -> & _).
    split_and!; [done | done | apply cancel_method_direct].
  - done.
  - destruct (cancel_method_attributes p) as (-> & -> & _).
    split_and!; [done | done | apply cancel_method_direct].
Qed.

Lemma local_at_rest a h p :
  at_rest (_fut p) → at_rest (_fut (local a h p).1).
Proof.
  destruct a as [self|self|self|self]; simpl.
  - apply task_step_at_rest.
  - by destruct (cancel_method_attributes p) as (_ & _ & _ & _ & ->).
  - done.
  - by destruct (cancel_method_attributes p) as (_ & _ & _ & _ & ->).
Qed.

Lemma local_may_await a h p q :
  may_await q (_fut (local a h p).1) → may_await q (_fut p).
Proof.
  destruct a as [self|self|self|self]; simpl.
  - apply task_step_may_await.
  - by destruct (cancel_method_attributes p) as (_ & _ & _ & _ & ->).
  - done.
  - by destruct (cancel_method_attributes p) as (_ & _ & _ & _ & ->).
Qed.

Lemma local_events a h p :
  Forall (λ ev, ∃ x, ev = Invoked (target a) x) (local a h p).2.
Proof.
  destruct a as [self|self|self|self]; simpl;
    [apply task_step_events | by constructor ..].
Qed.

Lemma local_done a h p o :
  done p = Some o → done (local a h p).1 = Some o ∧ (local a h p).2 = [].
Proof.
  intros Hd. destruct a as [self|self|self|self]; simpl.
  - by rewrite (task_step_done _ _ _ _ Hd).
  - unfold done in *. by destruct (cancel_method_attributes p) as (_ & _ & _ & _ & ->).
  - done.
  - unfold done in *. by destruct (cancel_method_attributes p) as (_ & _ & _ & _ & ->).
Qed.

Lemma local_heap a h h' p :
  (∀ q, may_await q (_fut p) → h !! q = h' !! q) →
  local a h p = local a h' p.
Proof.
  destruct a as [self|self|self|self]; simpl; [apply task_step_heap | done ..].
Qed.

Lemma local_foreign_arguments a h p c :
  target a ≠ c → arguments_of c (local a h p).2 = [].
Proof.
  intros Hne. apply arguments_of_foreign.
  eapply Forall_impl; [apply local_events|].
  intros ev [x ->]. done.
Qed.

End Local.

(** ** Every world a program builds is well formed *)

Section WellFormed.
Implicit Types (a : action) (s : world) (p : promise).

Lemma act_lookup a s q pp :
  heap (act a s) !! q = Some pp →
  ∃ p0, heap s !! q = Some p0
        ∧ (pp = p0 ∨ (q = target a ∧ pp = (local a (heap s) p0).1)).
Proof.
  intros H. destruct (decide (q = target a)) as [->|Hne].
  - destruct (heap s !! target a) as [p0|] eqn:Hp0.
    + destruct (act_here a s p0 Hp0) as [Hh _]. rewrite Hh in H.
      exists p0. split; [done|]. right. split; [done | congruence].
    + rewrite (act_missing a s Hp0), Hp0 in H. done.
  - rewrite act_other in H by done. exists pp. split; [done | by left].
Qed.

Lemma act_log a s :
  ∃ evs, log (act a s) = log s ++ evs
         ∧ Forall (λ ev, (∃ x, ev = Invoked (target a) x)
                         ∧ target a < length (heap s)) evs.
Proof.
  destruct (heap s !! target a) as [p0|] eqn:Hp0.
  - destruct (act_here a s p0 Hp0) as [_ Hl]. eexists. split; [exact Hl|].
    eapply Forall_impl; [apply local_events|].
    intros ev Hev. split; [done | by eapply lookup_lt_Some].
  - exists []. rewrite (act_missing a s Hp0), app_nil_r. split; [done | constructor].
Qed.

Lemma wf_empty : wf empty.
Proof. split; simpl; intros *; try by rewrite lookup_nil. by intros ?%elem_of_nil. Qed.

Lemma wf_act a s : wf s → wf (act a s).
Proof.
  intros [Hpar Hrest Hman Hlog]. split.
  - intros q pp r (p0 & Hp0 & [->|[-> ->]])%act_lookup Hr; [by eapply Hpar|].
    eapply Hpar; [done|]. by eapply local_may_await.
  - intros q pp (p0 & Hp0 & [->|[-> ->]])%act_lookup; [by eapply Hrest|].
    eapply local_at_rest, Hrest, Hp0.
  - intros q pp (p0 & Hp0 & [->|[-> ->]])%act_lookup Hc; [by eapply Hman|].
    destruct (local_attributes a (heap s) p0) as (Hcls & Hm & _).
    apply Hm. eapply Hman; [done|]. by rewrite <- Hcls.
  - intros ev. destruct (act_log a s) as (evs & -> & Hevs).
    rewrite act_length. intros [Hev|Hev]%elem_of_app; [by apply Hlog|].
    rewrite Forall_forall in Hevs. destruct (Hevs ev Hev) as [[x ->] Hlt]. done.
Qed.

Lemma wf_run acts s : wf s → wf (run acts s).
Proof.
  revert s. induction acts as [|a acts IH]; intros s Hs; simpl; [done|].
  by apply IH, wf_act.
Qed.

Lemma wf_new p s :
  wf s →
  at_rest (_fut p) →
  (∀ q, may_await q (_fut p) → q < length (heap s)) →
  (cls p ≠ PromiseC → _is_managed p = true) →
  wf (new p s).2.
Proof.
  intros [Hpar Hrest Hman Hlog] Hp1 Hp2 Hp3. split; simpl.
  - intros q pp r [Hq|[Hq Hx]]%lookup_app_Some Hr; [by eapply Hpar|].
    apply list_lookup_singleton_Some in Hx as [Hz ->].
    apply Hp2 in Hr. lia.
  - intros q pp [Hq|[Hq Hx]]%lookup_app_Some; [by eapply Hrest|].
    by apply list_lookup_singleton_Some in Hx as [Hz ->].
  - intros q pp [Hq|[Hq Hx]]%lookup_app_Some; [by eapply Hman|].
    by apply list_lookup_singleton_Some in Hx as [Hz ->].
  - intros ev Hev. rewrite length_app. apply Hlog in Hev. lia.
Qed.

Lemma assert_management_spec self s s' :
  _assert_management self s = Some s' →
  ∃ p, heap s !! self = Some p
       ∧ heap s' = heap s
       ∧ log s' = log s ++ (if _is_managed p then [] else [Diagnostic self]).
Proof.
  unfold _assert_management. destruct (heap s !! self) as [p|]; simpl; [|done].
  intros [= <-]. exists p. split; [done|].
  destruct (_is_managed p); simpl; [|done]. by rewrite app_nil_r.
Qed.

Lemma wf_assert_management self s s' :
  wf s → _assert_management self s = Some s' → wf s'.
Proof.
  intros [Hpar Hrest Hman Hlog] (p & Hp & Hh & Hl)%assert_management_spec.
  split; rewrite ?Hh, ?Hl; try done.
  intros ev [Hev|Hev]%elem_of_app; [by apply Hlog|].
  destruct (_is_managed p); [by apply elem_of_nil in Hev|].
  apply list_elem_of_singleton in Hev as ->. simpl. by eapply lookup_lt_Some.
Qed.

(** A chaining method allocates a link built by [mk]. *)
Lemma wf_chain (mk : nat → promise) self s s' :
  wf s →
  _assert_management self s = Some s' →
  at_rest (_fut (mk self)) →
  (∀ q, may_await q (_fut (mk self)) → q = self) →
  _is_managed (mk self) = true →
  wf (new (mk self) s').2.
Proof.
  intros Hs Ha H1 H2 H3.
  destruct (assert_management_spec _ _ _ Ha) as (p & Hp & Hh & _).
  apply wf_new; [by eapply wf_assert_management | done | | done].
  intros q ->%H2. rewrite Hh. by eapply lookup_lt_Some.
Qed.

Lemma wf_exec1 c s : wf s → wf (exec1 c s).
Proof.
  intros Hs. destruct c as [a|o|self f|self g|self h|self f]; simpl.
  - by apply wf_act.
  - apply wf_new; simpl; try done. intros q [H|[o' H]]; [done | by destruct o'].
  - unfold then_. destruct (_assert_management self s) as [s'|] eqn:Ha; simpl; [|done].
    eapply (wf_chain (λ x, FulfillmentPromise.__init__ x f)); [exact Hs | exact Ha | done | | done].
    intros q. apply fulfillment_wrapper_awaits.
  - unfold catch. destruct (_assert_management self s) as [s'|] eqn:Ha; simpl; [|done].
    eapply (wf_chain (λ x, RejectionPromise.__init__ x g)); [exact Hs | exact Ha | done | | done].
    intros q. apply rejection_wrapper_awaits.
  - unfold lastly. destruct (_assert_management self s) as [s'|] eqn:Ha; simpl; [|done].
    eapply (wf_chain (λ x, ResolutionPromise.__init__ x h)); [exact Hs | exact Ha | done | | done].
    intros q. apply resolution_wrapper_awaits.
  - unfold chain_link_then.
    destruct (_assert_management self s) as [s'|] eqn:Ha; simpl; [|done].
    eapply (wf_chain (λ x, ChainLinkFulfillmentPromise.__init__ x f)); [exact Hs | exact Ha | done | | done].
    intros q. apply chain_link_wrapper_awaits.
Qed.

Lemma wf_exec cs s : wf s → wf (exec cs s).
Proof.
  revert s. induction cs as [|c cs IH]; intros s Hs; simpl; [done|].
  by apply IH, wf_exec1.
Qed.

Lemma wf_program cs : wf (exec cs empty).
Proof. apply wf_exec, wf_empty. Qed.

End WellFormed.

(** ** A finished promise stays as it is *)

Section Stable.
Implicit Types (a : action) (s : world).

Lemma state_Done p o : state p = Done o ↔ done p = Some o.
Proof. unfold state. destruct (done p); split; congruence. Qed.

Lemma state_Pending p : state p = Pending ↔ done p = None.
Proof. unfold state. destruct (done p); split; congruence. Qed.

Lemma poll_shielded s v o :
  poll (heap s) (Shielded v) = Some o ↔ state_of s v = Some (Done o).
Proof.
  unfold state_of. simpl. destruct (heap s !! v) as [p|]; simpl; [|done].
  rewrite <- state_Done. split; congruence.
Qed.

Lemma act_done_stable a s q o :
  state_of s q = Some (Done o) → state_of (act a s) q = Some (Done o).
Proof.
  unfold state_of. destruct (heap s !! q) as [p0|] eqn:Hp0; simpl; [|done].
  intros [= Hd%state_Done].
  destruct (decide (q = target a)) as [->|Hne].
  - destruct (act_here a s p0 Hp0) as [-> _]. simpl. f_equal.
    apply state_Done. by apply local_done.
  - rewrite act_other, Hp0 by done. simpl. f_equal. by apply state_Done.
Qed.

Lemma run_done_stable acts s q o :
  state_of s q = Some (Done o) → state_of (run acts s) q = Some (Done o).
Proof.
  revert s. induction acts as [|a acts IH]; intros s Hs; simpl; [done|].
  by apply IH, act_done_stable.
Qed.

Lemma act_state_backward a s q st :
  state_of (act a s) q = Some st →
  state_of s q = Some Pending ∨ state_of s q = Some st.
Proof.
  intros H. destruct (state_of s q) as [[|o]|] eqn:Hq.
  - by left.
  - right. apply (act_done_stable a) in Hq. congruence.
  - unfold state_of in *. destruct (heap (act a s) !! q) as [pp|] eqn:Hpp; [|done].
    apply act_lookup in Hpp as (p0 & Hp0 & _). by rewrite Hp0 in Hq.
Qed.

Lemma act_pending_backward a s q :
  state_of (act a s) q = Some Pending → state_of s q = Some Pending.
Proof. intros H. by destruct (act_state_backward _ _ _ _ H). Qed.

Lemma parent_may_be_backward a s v op :
  parent_may_be (act a s) v op → parent_may_be s v op.
Proof.
  intros [H|H].
  - left. by eapply act_pending_backward.
  - by apply act_state_backward in H.
Qed.

Lemma act_state_other a s q :
  q ≠ target a → state_of (act a s) q = state_of s q.
Proof. intros H. unfold state_of. by rewrite act_other. Qed.

Lemma act_arguments_other a s c :
  target a ≠ c → arguments_of c (log (act a s)) = arguments_of c (log s).
Proof.
  intros Hne. destruct (act_log a s) as (evs & -> & Hevs).
  rewrite arguments_of_app, (arguments_of_foreign c evs), app_nil_r; [done|].
  eapply Forall_impl; [exact Hevs|]. intros ev [[x ->] _]. done.
Qed.

End Stable.

(** ** A link nobody cancels runs its wrapper undisturbed *)

Lemma finish_resume_with op d o : finish op d (resume_with o) = (o, []).
Proof. by destruct o. Qed.

Section Undisturbed.
Context (c v : nat) (k0 : outcome → coro value).
Context (Hvc : v ≠ c).
Context (W : coro value) (HW : W = Await (Shielded v) k0).

Lemma undisturbed_act a s :
  cancels c a = false → undisturbed c v W s → undisturbed c v W (act a s).
Proof.
  intros Ha (pc & Hpc & Hmc & Hd & Hrest & Hscope & Hpend & Htot).
  unfold undisturbed.
  destruct (decide (target a = c)) as [Hta|Hta].
  - (* the action is aimed at the link *)
    assert (state_of (act a s) v = state_of s v) as Hv
      by (apply act_state_other; congruence).
    assert (∀ op, parent_may_be (act a s) v op ↔ parent_may_be s v op) as Hmay
      by (intros op; unfold parent_may_be; by rewrite Hv).
    rewrite <- Hta in Hpc. destruct (act_here a s pc Hpc) as [Hh Hl].
    rewrite Hta in Hh, Hpc.
    destruct a as [self|self|self|self]; simpl in Hta, Ha; subst self;
      try (by rewrite Nat.eqb_refl in Ha).
    + (* the loop steps the link *)
      simpl in Hh, Hl. unfold task_step in Hh, Hl. rewrite Hmc in Hh, Hl.
      destruct (_fut pc) as [x|e|w k| | |] eqn:Hfut; try done.
      * exists pc. rewrite Hl, app_nil_r, Hv, Hfut.
        split_and!; try done. intros op Hop%Hmay. by apply Htot.
      * exists pc. rewrite Hl, app_nil_r, Hv, Hfut.
        split_and!; try done. intros op Hop%Hmay. by apply Htot.
      * destruct (poll (heap s) w) as [o|] eqn:Hpoll.
        -- set (p1 := set_started true pc) in *.
           destruct (advance_attributes c (k o) p1) as (_ & _ & Hd' & Hmc' & _).
           eexists. split; [exact Hh|]. rewrite Hv, Hl. split_and!.
           ++ by rewrite Hmc'.
           ++ by rewrite Hd'.
           ++ apply advance_at_rest.
           ++ intros q Hq%advance_may_await. apply Hscope. right. by exists o.
           ++ intros Hp. specialize (Hpend Hp). rewrite HW in Hpend.
              injection Hpend as -> _.
              apply poll_shielded in Hpoll. congruence.
           ++ intros op Hop%Hmay. destruct (Htot op Hop) as (H1 & H2 & H3).
              assert (look op w = o) as Hlook.
              { destruct w as [q|o']; simpl in *; [|congruence].
                assert (q = v) as -> by (apply Hscope; by left).
                apply (poll_shielded s v o) in Hpoll.
                destruct Hop as [Hop|Hop]; congruence. }
              simpl in H1, H2, H3. rewrite Hlook in H1, H2, H3.
              destruct (advance_finish c op (k o) p1) as (F1 & F2 & F3).
              change (_direct_cancellation p1) with (_direct_cancellation pc)
                in F1, F2, F3.
              rewrite Hd in F1, F2, F3.
              rewrite arguments_of_app, <- app_assoc, <- F2, <- F1, <- F3.
              split_and!; [done | done | lia].
        -- exists (set_started true pc). rewrite Hl, app_nil_r, Hv. simpl.
           rewrite Hfut. split_and!; try done.
           intros op Hop%Hmay. by apply Htot.
    + (* the caller enters the link's scope *)
      simpl in Hh, Hl. exists (Promise.__enter__ pc).
      rewrite Hl, app_nil_r, Hv. simpl. split_and!; try done.
      intros op Hop%Hmay. by apply Htot.
  - (* the action is aimed elsewhere *)
    exists pc. rewrite act_other by done.
    rewrite (act_arguments_other a s c Hta). split_and!; try done.
    + intros Hp%act_pending_backward. by apply Hpend.
    + intros op Hop%parent_may_be_backward. by apply Htot.
Qed.

Lemma undisturbed_run acts s :
  never_cancels c acts = true → undisturbed c v W s → undisturbed c v W (run acts s).
Proof.
  revert s. induction acts as [|a acts IH]; intros s Hn Hs; simpl; [done|].
  simpl in Hn. apply andb_prop in Hn as [Ha Hn].
  apply IH; [done|]. apply undisturbed_act; [|done]. by destruct (cancels c a).
Qed.

(** With the parent done, each step of the link takes it past one await. *)
Lemma undisturbed_progress s op n :
  undisturbed c v W s →
  state_of s v = Some (Done op) →
  (∀ pc, heap s !! c = Some pc → suspensions op false (_fut pc) ≤ n) →
  ∃ pF, heap (run (replicate n (Step c)) s) !! c = Some pF
        ∧ suspensions op false (_fut pF) = 0
        ∧ undisturbed c v W (run (replicate n (Step c)) s)
        ∧ state_of (run (replicate n (Step c)) s) v = Some (Done op).
Proof.
  revert s. induction n as [|n IH]; intros s Hs Hv Hn; simpl.
  - destruct Hs as (pc & Hpc & Hs). exists pc.
    split_and!; [done | specialize (Hn pc Hpc); lia | by exists pc | done].
  - apply IH.
    + by apply undisturbed_act.
    + by apply act_done_stable.
    + destruct Hs as (pc & Hpc & Hmc & Hd & Hrest & Hscope & _).
      specialize (Hn pc Hpc).
      destruct (act_here (Step c) s pc Hpc) as [Hh _]. simpl in Hh.
      intros pc'. rewrite Hh. intros [= <-].
      unfold task_step. rewrite Hmc.
      destruct (_fut pc) as [x|e|w k| | |] eqn:Hfut; try done.
      * simpl. rewrite Hfut. simpl. lia.
      * simpl. rewrite Hfut. simpl. lia.
      * assert (poll (heap s) w = Some (look op w)) as ->.
        { destruct w as [q|o']; [|done].
          assert (q = v) as -> by (apply Hscope; by left).
          by apply poll_shielded. }
        destruct (advance_finish c op (k (look op w)) (set_started true pc))
          as (_ & _ & F3).
        change (_direct_cancellation (set_started true pc))
          with (_direct_cancellation pc) in F3.
        rewrite Hd in F3. rewrite <- F3. simpl in Hn. lia.
Qed.

Lemma undisturbed_settles s op n :
  undisturbed c v W s →
  state_of s v = Some (Done op) →
  suspensions op false W ≤ n →
  state_of (run (replicate n (Step c)) s) c = Some (Done (finish op false W).1)
  ∧ arguments_of c (log (run (replicate n (Step c)) s)) = (finish op false W).2.
Proof.
  intros Hs Hv Hn.
  destruct (undisturbed_progress s op n Hs Hv) as (pF & HpF & H0 & HF & HvF).
  { destruct Hs as (pc & Hpc & _ & _ & _ & _ & _ & Htot).
    intros pc' Hpc'. assert (pc' = pc) as -> by congruence.
    destruct (Htot op) as (_ & _ & H3); [by right | lia]. }
  destruct HF as (pc & Hpc & _ & _ & Hrest & _ & _ & Htot).
  assert (pc = pF) as -> by congruence.
  destruct (Htot op) as (H1 & H2 & _); [by right|].
  unfold state_of. rewrite HpF. simpl.
  destruct (_fut pF) as [x|e|w k| | |] eqn:Hfut; try done; simpl in *.
  - rewrite app_nil_r in H1. split; [|done].
    unfold state, done. rewrite Hfut. by rewrite <- H2.
  - rewrite app_nil_r in H1. split; [|done].
    unfold state, done. rewrite Hfut. by rewrite <- H2.
Qed.

End Undisturbed.

(** ** A link at its creation *)

Section Born.
Implicit Types (s : world) (mk : nat → promise).

Lemma chain_spec mk self s c s1 :
  (s' ← _assert_management self s; Some (new (mk self) s')) = Some (c, s1) →
  ∃ p, heap s !! self = Some p
       ∧ c = length (heap s)
       ∧ self < c
       ∧ heap s1 = heap s ++ [mk self]
       ∧ log s1 = log s ++ (if _is_managed p then [] else [Diagnostic self]).
Proof.
  destruct (_assert_management self s) as [s'|] eqn:Ha; simpl; [|done].
  apply assert_management_spec in Ha as (p & Hp & Hh & Hl).
  unfold new. intros [= <- <-]. simpl. exists p. rewrite Hh, Hl.
  split_and!; try done. by eapply lookup_lt_Some.
Qed.

Lemma born_lookup s s1 c pc :
  c = length (heap s) → heap s1 = heap s ++ [pc] → heap s1 !! c = Some pc.
Proof. intros -> ->. by rewrite lookup_app_r, Nat.sub_diag by lia. Qed.

Lemma born_arguments s s1 c diag :
  wf s → c = length (heap s) →
  log s1 = log s ++ diag → Forall (λ ev, ∃ q, ev = Diagnostic q) diag →
  arguments_of c (log s1) = [].
Proof.
  intros Hs -> -> Hdiag. rewrite arguments_of_app.
  rewrite (arguments_of_foreign _ (log s)).
  - simpl. unfold arguments_of.
    induction Hdiag as [|ev l [q ->] _ IH]; [done | by simpl].
  - apply Forall_forall. intros ev Hev. apply (wf_log s Hs) in Hev. lia.
Qed.

Lemma managed_diag self p :
  Forall (λ ev, ∃ q, ev = Diagnostic q)
         (if _is_managed p then [] else [Diagnostic self]).
Proof. destruct (_is_managed p); repeat constructor. by eexists. Qed.

Lemma born_undisturbed mk self s c s1 k0 :
  wf s →
  (s' ← _assert_management self s; Some (new (mk self) s')) = Some (c, s1) →
  _fut (mk self) = Await (Shielded self) k0 →
  must_cancel (mk self) = false →
  _direct_cancellation (mk self) = false →
  (∀ q, may_await q (_fut (mk self)) → q = self) →
  self ≠ c ∧ undisturbed c self (Await (Shielded self) k0) s1.
Proof.
  intros Hs (p & Hp & Hc & Hlt & Hh & Hl)%chain_spec Hfut Hmc Hd Hscope.
  split; [lia|]. exists (mk self).
  rewrite (born_arguments s s1 c _ Hs Hc Hl (managed_diag self p)), Hfut.
  split_and!; try done.
  - by eapply born_lookup.
  - by rewrite <- Hfut.
Qed.

End Born.

(** ** The undisturbed run of each wrapper *)

Lemma fulfillment_finish f v op :
  finish op false (FulfillmentPromise._wrapper f (Shielded v))
  = match op with
    | Fulfilled x => (settled (f x), [ArgValue x])
    | Raised e => (Raised e, [])
    end
  ∧ suspensions op false (FulfillmentPromise._wrapper f (Shielded v)) ≤ 2.
Proof.
  destruct op as [x|e]; simpl; [|split; [done | lia]].
  destruct (f x) as [[y|[y|e]]|e]; simpl; split; (done || lia).
Qed.

Lemma rejection_finish g v op :
  finish op false (RejectionPromise._wrapper g (Shielded v))
  = match op with
    | Fulfilled x => (Fulfilled x, [])
    | Raised e =>
        if is_CancelledError e then (Raised e, [])
        else if isinstance_Exception e then (settled (g e), [ArgExn e])
        else (Raised e, [])
    end
  ∧ suspensions op false (RejectionPromise._wrapper g (Shielded v)) ≤ 2.
Proof.
  destruct op as [x|[|n|n]]; simpl; try (split; [done | lia]).
  destruct (g (Exception n)) as [[y|[y|e]]|e]; simpl; split; (done || lia).
Qed.

Lemma resolution_finish h v op :
  finish op false (ResolutionPromise._wrapper h (Shielded v))
  = (match settled (h tt) with
     | Fulfilled _ => op
     | Raised e => Raised e
     end, [NoArg])
  ∧ suspensions op false (ResolutionPromise._wrapper h (Shielded v)) ≤ 2.
Proof.
  destruct op as [x|e]; simpl;
    destruct (h tt) as [[y|[y|e']]|e']; simpl; split; (done || lia).
Qed.

Lemma chain_link_finish f v op :
  finish op false (ChainLinkFulfillmentPromise._wrapper f (Shielded v))
  = match op with
    | Fulfilled x => (settled (f x), [ArgValue x])
    | Raised e => (Raised e, [])
    end
  ∧ suspensions op false (ChainLinkFulfillmentPromise._wrapper f (Shielded v)) ≤ 2.
Proof.
  destruct op as [x|e]; simpl; [|split; [done | lia]].
  destruct (f x) as [[y|[y|e]]|e]; simpl; split; (done || lia).
Qed.

Lemma link_settles (mk : nat → promise) self s c s1 acts op :
  wf s →
  (s' ← _assert_management self s; Some (new (mk self) s')) = Some (c, s1) →
  (∃ k0, _fut (mk self) = Await (Shielded self) k0) →
  must_cancel (mk self) = false →
  _direct_cancellation (mk self) = false →
  (∀ q, may_await q (_fut (mk self)) → q = self) →
  never_cancels c acts = true →
  state_of (run acts s1) self = Some (Done op) →
  suspensions op false (_fut (mk self)) ≤ 2 →
  state_of (run (acts ++ [Step c; Step c]) s1) c
    = Some (Done (finish op false (_fut (mk self))).1)
  ∧ arguments_of c (log (run (acts ++ [Step c; Step c]) s1))
    = (finish op false (_fut (mk self))).2.
Proof.
  intros Hs Hmk [k0 Hfut] Hmc Hd Hscope Hacts Hv Hn.
  destruct (born_undisturbed mk self s c s1 k0 Hs Hmk Hfut Hmc Hd Hscope) as [Hne Hu].
  rewrite run_app. rewrite Hfut in Hn |- *.
  apply (undisturbed_settles c self k0 Hne _ eq_refl (run acts s1) op 2); try done.
  by apply (undisturbed_run c self k0 Hne _ eq_refl).
Qed.

(** ** Outcomes a wrapper hands on *)

Section Passive.
Context (c v : nat) (k0 : outcome → coro value) (op : outcome).
Context (Hvc : v ≠ c).
Context (W : coro value) (HW : W = Await (Shielded v) k0).
Context (Hquiet : ∀ d, cancels_quietly d (k0 Cancelled)).
Context (Hpass : ∀ p, advance c (k0 op) p = (set_fut (resume_with op) p, [])).

Lemma passive_act a s : passive c v W op s → passive c v W op (act a s).
Proof.
  intros [(o & Ho & Hne)|(Hargs & pc & Hpc & Hfut)].
  { left. exists o. split; [by apply act_done_stable | done]. }
  destruct (decide (target a = c)) as [Hta|Hta].
  - assert (state_of (act a s) v = state_of s v) as Hv
      by (apply act_state_other; congruence).
    rewrite <- Hta in Hpc. destruct (act_here a s pc Hpc) as [Hh Hl].
    rewrite Hta in Hh, Hpc.
    assert (∀ pc', (pc' = (cancel_method pc).1 ∨ pc' = Promise.__enter__ pc) →
                   _fut pc' = _fut pc) as Hsame.
    { intros pc' [->| ->]; [|done].
      by destruct (cancel_method_attributes pc) as (_ & _ & _ & _ & ->). }
    destruct a as [self|self|self|self]; simpl in Hta; subst self; simpl in Hh, Hl;
      try (right; rewrite Hl, app_nil_r; split; [done|]; eexists; split; [exact Hh|];
           rewrite Hsame; [done | by (left + right)]).
    unfold task_step in Hh, Hl.
    destruct Hfut as [Hfut|[Hfut|Hfut]].
    + rewrite Hfut, HW in Hh, Hl. destruct (must_cancel pc).
      * destruct (started pc).
        -- destruct (advance_cancels_quietly c (k0 Cancelled) (set_must_cancel false pc)
                       (Hquiet _)) as [Hev Hf].
           right. rewrite Hl, Hev, app_nil_r. split; [done|].
           eexists. split; [exact Hh|]. right. by left.
        -- right. rewrite Hl, app_nil_r. split; [done|].
           eexists. split; [exact Hh|]. right. by left.
      * destruct (poll (heap s) (Shielded v)) as [o|] eqn:Hpoll.
        -- apply poll_shielded in Hpoll. destruct (decide (o = op)) as [->|Hne].
           ++ rewrite Hpass in Hh, Hl. right. rewrite Hl, app_nil_r. split; [done|].
              eexists. split; [exact Hh|]. right. by right.
           ++ left. exists o. by rewrite Hv.
        -- right. rewrite Hl, app_nil_r. split; [done|].
           eexists. split; [exact Hh|]. left. simpl. by rewrite Hfut, HW.
    + rewrite Hfut in Hh, Hl. right. rewrite Hl, app_nil_r. split; [done|].
      eexists. split; [exact Hh|]. right. by left.
    + assert (task_step c (heap s) pc = (pc, [])) as Hstep.
      { unfold task_step. rewrite Hfut. by destruct op. }
      unfold task_step in Hstep. rewrite Hstep in Hh, Hl.
      right. rewrite Hl, app_nil_r. split; [done|].
      eexists. split; [exact Hh|]. right. by right.
  - right. rewrite (act_arguments_other a s c Hta). split; [done|].
    exists pc. by rewrite act_other.
Qed.

Lemma passive_run acts s : passive c v W op s → passive c v W op (run acts s).
Proof.
  revert s. induction acts as [|a acts IH]; intros s Hs; simpl; [done|].
  by apply IH, passive_act.
Qed.

(** Once the parent has ended with [op]: no call so far, the link can
    only have ended as cancelled or as the parent did, and its next step
    ends it. *)
Lemma passive_done s :
  passive c v W op s →
  state_of s v = Some (Done op) →
  arguments_of c (log s) = []
  ∧ (state_of s c = Some Pending ∨ state_of s c = Some (Done Cancelled)
     ∨ state_of s c = Some (Done op))
  ∧ arguments_of c (log (act (Step c) s)) = []
  ∧ (state_of (act (Step c) s) c = Some (Done Cancelled)
     ∨ state_of (act (Step c) s) c = Some (Done op)).
Proof.
  intros Hs Hv. pose proof (passive_act (Step c) s Hs) as Hs'.
  pose proof (act_done_stable (Step c) s v op Hv) as Hv'.
  destruct Hs as [(o & Ho & Hne)|(Hargs & pc & Hpc & Hfut)]; [congruence|].
  destruct Hs' as [(o & Ho & Hne)|(Hargs' & pc' & Hpc' & Hfut')]; [congruence|].
  assert (state_of s c = Some Pending ∨ state_of s c = Some (Done Cancelled)
          ∨ state_of s c = Some (Done op)) as Hc.
  { unfold state_of. rewrite Hpc. simpl. unfold state, done.
    destruct Hfut as [->|[->| ->]]; [rewrite HW; by left | right; by left |].
    right. right. by destruct op. }
  split_and!; try done.
  destruct (act_here (Step c) s pc Hpc) as [Hh _]. simpl in Hh.
  unfold state_of. rewrite Hh. simpl. unfold task_step.
  destruct Hfut as [Hfut|[Hfut|Hfut]]; rewrite Hfut.
  - rewrite HW. destruct (must_cancel pc).
    + destruct (started pc); [|by left].
      destruct (advance_cancels_quietly c (k0 Cancelled) (set_must_cancel false pc)
                  (Hquiet _)) as [_ Hf].
      left. unfold state, done. by rewrite Hf.
    + apply poll_shielded in Hv. rewrite Hv, Hpass. right.
      unfold state, done. simpl. by destruct op.
  - left. simpl. f_equal. apply state_Done. unfold done. by rewrite Hfut.
  - right. f_equal. apply state_Done. unfold done.
    destruct op; simpl; by rewrite Hfut.
Qed.

End Passive.

Lemma born_passive (mk : nat → promise) self s c s1 k0 op :
  wf s →
  (s' ← _assert_management self s; Some (new (mk self) s')) = Some (c, s1) →
  _fut (mk self) = Await (Shielded self) k0 →
  self ≠ c ∧ passive c self (Await (Shielded self) k0) op s1.
Proof.
  intros Hs (p & Hp & Hc & Hlt & Hh & Hl)%chain_spec Hfut.
  split; [lia|]. right. split.
  - by eapply born_arguments, managed_diag.
  - exists (mk self). split; [by eapply born_lookup | by left].
Qed.

(** ** A link cancelled before its coroutine got anywhere *)

Section Doomed.
Implicit Types (a : action) (s : world) (p : promise).

Lemma act_cls a s c p0 :
  heap s !! c = Some p0 →
  ∃ pc, heap (act a s) !! c = Some pc ∧ cls pc = cls p0.
Proof.
  intros Hp0. destruct (decide (c = target a)) as [->|Hne].
  - destruct (act_here a s p0 Hp0) as [Hh _]. eexists. split; [exact Hh|].
    by destruct (local_attributes a (heap s) p0) as (-> & _).
  - exists p0. by rewrite act_other.
Qed.

Lemma run_cls acts s c p0 :
  heap s !! c = Some p0 →
  ∃ pc, heap (run acts s) !! c = Some pc ∧ cls pc = cls p0.
Proof.
  revert s p0. induction acts as [|a acts IH]; intros s p0 Hp0; simpl.
  - by exists p0.
  - destruct (act_cls a s c p0 Hp0) as (p1 & Hp1 & <-). by apply IH.
Qed.

Lemma cancel_method_direct_eq p :
  (cls p = ResolutionC → _direct_cancellation p = true) →
  _direct_cancellation (cancel_method p).1 = _direct_cancellation p.
Proof.
  destruct p as [c m d w mc st fut]; simpl. intros H.
  destruct c, w, fut; simpl; try done; by rewrite H.
Qed.

Lemma doomed_local a h p :
  doomed p → doomed (local a h p).1 ∧ (local a h p).2 = [].
Proof.
  intros [Hres Hp].
  destruct a as [self|self|self|self]; simpl.
  - unfold task_step. destruct Hp as [Hfut|(Hmc & w & k & Hfut & Hq)]; rewrite Hfut.
    + by split; [split; [|left]|].
    + rewrite Hmc. destruct (started p).
      * destruct (advance_cancels_quietly self (k Cancelled) (set_must_cancel false p) Hq)
          as [Hev Hf].
        destruct (advance_attributes self (k Cancelled) (set_must_cancel false p))
          as (Hc & _ & Hd & _).
        split; [|done]. split; [by rewrite Hc, Hd | by left].
      * split; [|done]. split; [done | by left].
  - split; [|done].
    destruct (cancel_method_attributes p) as (Hc & _ & _ & _ & Hf).
    pose proof (cancel_method_direct_eq p Hres) as Hd.
    split; [by rewrite Hc, Hd|]. rewrite Hf, Hd.
    destruct Hp as [Hfut|(Hmc & Hp)]; [by left | right].
    split; [by apply cancel_method_must_cancel | done].
  - by split; [split|].
  - split; [|done].
    destruct (cancel_method_attributes p) as (Hc & _ & _ & _ & Hf).
    pose proof (cancel_method_direct_eq p Hres) as Hd.
    split; [by rewrite Hc, Hd|]. rewrite Hf, Hd.
    destruct Hp as [Hfut|(Hmc & Hp)]; [by left | right].
    split; [by apply cancel_method_must_cancel | done].
Qed.

Lemma doomed_act a s c pc :
  heap s !! c = Some pc → doomed pc →
  ∃ pc', heap (act a s) !! c = Some pc' ∧ doomed pc'
         ∧ arguments_of c (log (act a s)) = arguments_of c (log s).
Proof.
  intros Hpc Hd. destruct (decide (target a = c)) as [Hta|Hta].
  - rewrite <- Hta in Hpc. destruct (act_here a s pc Hpc) as [Hh Hl].
    destruct (doomed_local a (heap s) pc Hd) as [Hd' Hev].
    rewrite Hta in Hh. eexists. split; [exact Hh|]. split; [done|].
    by rewrite Hl, Hev, app_nil_r.
  - exists pc. rewrite act_other by done. split_and!; try done.
    by apply act_arguments_other.
Qed.

Lemma doomed_run acts s c pc :
  heap s !! c = Some pc → doomed pc →
  arguments_of c (log (run acts s)) = arguments_of c (log s)
  ∧ ∃ pc', heap (run acts s) !! c = Some pc' ∧ doomed pc'.
Proof.
  revert s pc. induction acts as [|a acts IH]; intros s pc Hpc Hd; simpl.
  - split; [done | by exists pc].
  - destruct (doomed_act a s c pc Hpc Hd) as (pc' & Hpc' & Hd' & <-). by eapply IH.
Qed.

(** [cancel()] on a link that still waits at its first await dooms it. *)
Lemma cancel_dooms p w k :
  _fut p = Await w k →
  (∀ d, (cls p = ResolutionC → d = true) → cancels_quietly d (k Cancelled)) →
  (cls p = ChainLinkFulfillmentC → _waiting_chain_result p = true) →
  doomed (cancel_method p).1.
Proof.
  destruct p as [c m d wt mc st fut]; simpl. intros -> Hq Hw.
  destruct c; simpl; try (split; [done|]; right; split; [done|];
    eexists _, _; split; [done|]; by apply Hq).
  rewrite Hw by done. simpl. split; [done|]. right. split; [done|].
  eexists _, _; split; [done|]. by apply Hq.
Qed.

End Doomed.

Lemma done_quiet_run acts s c o :
  state_of s c = Some (Done o) →
  arguments_of c (log (run acts s)) = arguments_of c (log s).
Proof.
  revert s. induction acts as [|a acts IH]; intros s Hc; simpl; [done|].
  rewrite IH by (by apply act_done_stable).
  destruct (decide (target a = c)) as [Hta|Hta]; [|by apply act_arguments_other].
  unfold state_of in Hc. destruct (heap s !! c) as [pc|] eqn:Hpc; [|done].
  simpl in Hc. injection Hc as Hc%state_Done.
  rewrite <- Hta in Hpc. destruct (act_here a s pc Hpc) as [_ ->].
  destruct (local_done a (heap s) pc o Hc) as [_ ->]. by rewrite app_nil_r.
Qed.

(** ** Shielding *)

Section Shielding.
Implicit Types (a : action) (s sA sB : world) (last : promise).

(** A promise at the end of the heap is invisible to the older ones. *)
Lemma act_prefix a sA sB last :
  wf sB → heap sA = heap sB ++ [last] →
  ∃ x', heap (act a sA) = heap (act a sB) ++ [x'].
Proof.
  intros HB HA. unfold act, modify. rewrite HA.
  destruct (heap sB !! target a) as [p|] eqn:Hp.
  - pose proof (lookup_lt_Some _ _ _ Hp) as Hlt.
    rewrite lookup_app_l, Hp by done. simpl. exists last.
    rewrite insert_app_l by done. do 3 f_equal.
    apply local_heap. intros q Hq%(wf_parent sB HB _ _ _ Hp).
    apply lookup_app_l. lia.
  - apply lookup_ge_None in Hp.
    destruct ((heap sB ++ [last]) !! target a) as [p|] eqn:Hp'; simpl; [|by exists last].
    apply lookup_app_Some in Hp' as [Hp'|[_ Hp']].
    { apply lookup_lt_Some in Hp'. lia. }
    apply list_lookup_singleton_Some in Hp' as [Hz ->].
    eexists. rewrite insert_app_r_alt by done. rewrite Hz. done.
Qed.

Lemma run_prefix acts sA sB last :
  wf sB → heap sA = heap sB ++ [last] →
  ∃ x', heap (run acts sA) = heap (run acts sB) ++ [x'].
Proof.
  revert sA sB last. induction acts as [|a acts IH]; intros sA sB last HB HA; simpl.
  - by exists last.
  - destruct (act_prefix a sA sB last HB HA) as [x' Hx'].
    eapply IH; [by apply wf_act | exact Hx'].
Qed.

Lemma chain_born k r s c s1 :
  chain k r s = Some (c, s1) →
  ∃ pc p k0,
    heap s !! r = Some p
    ∧ c = length (heap s)
    ∧ heap s1 = heap s ++ [pc]
    ∧ log s1 = log s ++ (if _is_managed p then [] else [Diagnostic r])
    ∧ _fut pc = Await (Shielded r) k0
    ∧ (∀ d, (cls pc = ResolutionC → d = true) → cancels_quietly d (k0 Cancelled))
    ∧ (cls pc = ChainLinkFulfillmentC → _waiting_chain_result pc = true).
Proof.
  destruct k as [f|g|h|f]; simpl.
  - intros (p & Hp & Hc & _ & Hh & Hl)%(chain_spec (λ x, FulfillmentPromise.__init__ x f)).
    eexists _, p, _. by split_and!.
  - intros (p & Hp & Hc & _ & Hh & Hl)%(chain_spec (λ x, RejectionPromise.__init__ x g)).
    eexists _, p, _. by split_and!.
  - intros (p & Hp & Hc & _ & Hh & Hl)%(chain_spec (λ x, ResolutionPromise.__init__ x h)).
    eexists _, p, _. split_and!; try done. intros d ->; done.
  - intros (p & Hp & Hc & _ & Hh & Hl)
      %(chain_spec (λ x, ChainLinkFulfillmentPromise.__init__ x f)).
    eexists _, p, _. by split_and!.
Qed.

End Shielding.

(** ** Direct cancellation of a resolution link *)

Section DirectCancellation.
Context (v : nat) (h : unit → call).
Implicit Types (a : action) (s : world) (p : promise).

Lemma resolution_resumed self o p :
  callfree (_fut (advance self (try_finally (resume_with o)
                                            (ResolutionPromise.finalizer h)) p).1)
  ∧ (_direct_cancellation p = true →
     advance self (try_finally (resume_with o) (ResolutionPromise.finalizer h)) p
     = (set_fut (resume_with o) p, [])).
Proof.
  destruct p as [c m d w mc st fut].
  destruct o as [x|e], d; simpl; try done;
    destruct (h tt) as [[y|[y|e']]|e']; simpl; split; try done; by intros [].
Qed.

Lemma resolution_wrapper_unfold :
  ResolutionPromise._wrapper h (Shielded v)
  = Await (Shielded v)
          (λ o, try_finally (resume_with o) (ResolutionPromise.finalizer h)).
Proof. reflexivity. Qed.

Lemma resolution_local a h0 p :
  resolution_link (ResolutionPromise._wrapper h (Shielded v)) p →
  resolution_link (ResolutionPromise._wrapper h (Shielded v)) (local a h0 p).1
  ∧ (_direct_cancellation p = true → (local a h0 p).2 = []).
Proof.
  intros [Hcls Hfut].
  destruct (local_attributes a h0 p) as (Hcls' & _).
  assert (∀ p', _fut p' = _fut p → cls p' = cls p →
                resolution_link (ResolutionPromise._wrapper h (Shielded v)) p') as Hsame.
  { intros p' Hf Hc. split; [congruence | by rewrite Hf]. }
  destruct a as [self|self|self|self]; simpl in *.
  - unfold resolution_link. rewrite Hcls'. unfold task_step.
    destruct Hfut as [Hfut|Hfut].
    + rewrite Hfut, resolution_wrapper_unfold. cbv beta iota.
      destruct (must_cancel p).
      * destruct (started p); [|by split; [split; [|right]|]].
        destruct (resolution_resumed self Cancelled (set_must_cancel false p))
          as [Hcf Hev].
        split; [split; [done | by right]|]. intros Hd. by rewrite Hev.
      * destruct (poll h0 (Shielded v)) as [o|].
        -- destruct (resolution_resumed self o (set_started true p)) as [Hcf Hev].
           split; [split; [done | by right]|]. intros Hd. by rewrite Hev.
        -- split; [|done]. split; [done|]. left. done.
    + destruct (_fut p) as [x|e|w k| | |] eqn:Hf;
        try (split; [|done]; split; [done|]; right; simpl; by rewrite Hf).
      destruct (must_cancel p).
      * destruct (started p); [|by split; [split; [|right]|]].
        destruct (advance_callfree self (k Cancelled) (set_must_cancel false p)
                    (Hfut Cancelled)) as [Hev Hcf].
        split; [split; [done | by right] | done].
      * destruct (poll h0 w) as [o|].
        -- destruct (advance_callfree self (k o) (set_started true p) (Hfut o))
             as [Hev Hcf].
           split; [split; [done | by right] | done].
        -- split; [|done]. split; [done|]. right. simpl. by rewrite Hf.
  - split; [|done]. apply Hsame; [|done].
    by destruct (cancel_method_attributes p) as (_ & _ & _ & _ & ->).
  - split; [|done]. by apply Hsame.
  - split; [|done]. apply Hsame; [|done].
    by destruct (cancel_method_attributes p) as (_ & _ & _ & _ & ->).
Qed.

Lemma resolution_act a s c pc :
  heap s !! c = Some pc →
  resolution_link (ResolutionPromise._wrapper h (Shielded v)) pc →
  ∃ pc', heap (act a s) !! c = Some pc'
         ∧ resolution_link (ResolutionPromise._wrapper h (Shielded v)) pc'
         ∧ (_direct_cancellation pc = true →
            _direct_cancellation pc' = true
            ∧ arguments_of c (log (act a s)) = arguments_of c (log s)).
Proof.
  intros Hpc Hr. destruct (decide (target a = c)) as [Hta|Hta].
  - rewrite <- Hta in Hpc. destruct (act_here a s pc Hpc) as [Hh Hl].
    destruct (resolution_local a (heap s) pc Hr) as [Hr' Hev].
    destruct (local_attributes a (heap s) pc) as (_ & _ & Hd).
    rewrite Hta in Hh. eexists. split; [exact Hh|]. split; [done|].
    intros Hdir. split; [by apply Hd|]. by rewrite Hl, Hev, app_nil_r.
  - exists pc. rewrite act_other by done. split_and!; try done.
    intros Hd. split; [done|]. by apply act_arguments_other.
Qed.

Lemma resolution_run acts s c pc :
  heap s !! c = Some pc →
  resolution_link (ResolutionPromise._wrapper h (Shielded v)) pc →
  ∃ pc', heap (run acts s) !! c = Some pc'
         ∧ resolution_link (ResolutionPromise._wrapper h (Shielded v)) pc'
         ∧ (_direct_cancellation pc = true →
            _direct_cancellation pc' = true
            ∧ arguments_of c (log (run acts s)) = arguments_of c (log s)).
Proof.
  revert s pc. induction acts as [|a acts IH]; intros s pc Hpc Hr; simpl.
  - by exists pc.
  - destruct (resolution_act a s c pc Hpc Hr) as (p1 & Hp1 & Hr1 & Hd1).
    destruct (IH _ _ Hp1 Hr1) as (p2 & Hp2 & Hr2 & Hd2).
    exists p2. split_and!; try done. intros Hd.
    destruct (Hd1 Hd) as [Hd1' <-]. by apply Hd2.
Qed.

End DirectCancellation.

(** ** Each wrapper in the interleavings *)

Lemma fulfillment_passive prog v f c s1 acts e :
  then_ v f (exec prog empty) = Some (c, s1) →
  state_of (run acts s1) v = Some (Done (Raised e)) →
  arguments_of c (log (run acts s1)) = [].
Proof.
  intros Hthen Hv.
  set (k0 := λ o, x <- resume_with o ;;
                  r <- invoke (ArgValue x) (f x) ;; resolve_awaitable r).
  destruct (born_passive (λ x, FulfillmentPromise.__init__ x f) v _ c s1 k0 (Raised e)
              (wf_program prog) Hthen eq_refl) as [Hne Hb].
  assert (∀ d, cancels_quietly d (k0 Cancelled)) as Hquiet by done.
  assert (∀ p, advance c (k0 (Raised e)) p = (set_fut (resume_with (Raised e)) p, []))
    as Hpass by done.
  apply (passive_done c v k0 (Raised e) Hne _ eq_refl Hquiet Hpass); [|exact Hv].
  by apply (passive_run c v k0 (Raised e) Hne _ eq_refl Hquiet Hpass).
Qed.

Lemma fulfillment_settles prog v f c s1 acts op :
  then_ v f (exec prog empty) = Some (c, s1) →
  never_cancels c acts = true →
  state_of (run acts s1) v = Some (Done op) →
  (state_of (run (acts ++ [Step c; Step c]) s1) c,
   arguments_of c (log (run (acts ++ [Step c; Step c]) s1)))
  = match op with
    | Fulfilled x => (Some (Done (settled (f x))), [ArgValue x])
    | Raised e => (Some (Done (Raised e)), [])
    end.
Proof.
  intros Hthen Hacts Hv.
  destruct (fulfillment_finish f v op) as [Hfin Hsus].
  pose proof (link_settles (λ x, FulfillmentPromise.__init__ x f) v _ c s1 acts op
                (wf_program prog) Hthen (ex_intro _ _ eq_refl) eq_refl eq_refl
                (λ q, fulfillment_wrapper_awaits q v f) Hacts Hv Hsus) as [H1 H2].
  cbv beta in H1, H2.
  change (_fut (FulfillmentPromise.__init__ v f))
    with (FulfillmentPromise._wrapper f (Shielded v)) in H1, H2.
  rewrite Hfin in H1, H2. rewrite H1, H2. by destruct op.
Qed.

Lemma rejection_passes c g op p :
  (∀ n, op ≠ Raised (Exception n)) →
  advance c (try_except (resume_with op)
                        (RejectionPromise.clauses isinstance_Exception g)) p
  = (set_fut (resume_with op) p, []).
Proof.
  intros Hop. destruct op as [x|[|n|n]]; simpl; try done. by destruct (Hop n).
Qed.

Lemma rejection_passive prog v g c s1 acts op :
  catch v g (exec prog empty) = Some (c, s1) →
  (∀ n, op ≠ Raised (Exception n)) →
  state_of (run acts s1) v = Some (Done op) →
  arguments_of c (log (run acts s1)) = []
  ∧ (state_of (run acts s1) c = Some Pending
     ∨ state_of (run acts s1) c = Some (Done Cancelled)
     ∨ state_of (run acts s1) c = Some (Done op))
  ∧ arguments_of c (log (run (acts ++ [Step c]) s1)) = []
  ∧ (state_of (run (acts ++ [Step c]) s1) c = Some (Done Cancelled)
     ∨ state_of (run (acts ++ [Step c]) s1) c = Some (Done op)).
Proof.
  intros Hcatch Hop Hv. rewrite run_app. simpl.
  set (k0 := λ o, try_except (resume_with o)
                    (RejectionPromise.clauses isinstance_Exception g)).
  destruct (born_passive (λ x, RejectionPromise.__init__ x g) v _ c s1 k0 op
              (wf_program prog) Hcatch eq_refl) as [Hne Hb].
  assert (∀ d, cancels_quietly d (k0 Cancelled)) as Hquiet by done.
  assert (∀ p, advance c (k0 op) p = (set_fut (resume_with op) p, [])) as Hpass
    by (intros p; by apply rejection_passes).
  apply (passive_done c v k0 op Hne _ eq_refl Hquiet Hpass); [|exact Hv].
  by apply (passive_run c v k0 op Hne _ eq_refl Hquiet Hpass).
Qed.

Lemma rejection_settles prog v g c s1 acts op :
  catch v g (exec prog empty) = Some (c, s1) →
  never_cancels c acts = true →
  state_of (run acts s1) v = Some (Done op) →
  (state_of (run (acts ++ [Step c; Step c]) s1) c,
   arguments_of c (log (run (acts ++ [Step c; Step c]) s1)))
  = match op with
    | Fulfilled x => (Some (Done (Fulfilled x)), [])
    | Raised e =>
        if is_CancelledError e then (Some (Done (Raised e)), [])
        else if isinstance_Exception e then (Some (Done (settled (g e))), [ArgExn e])
        else (Some (Done (Raised e)), [])
    end.
Proof.
  intros Hcatch Hacts Hv.
  destruct (rejection_finish g v op) as [Hfin Hsus].
  pose proof (link_settles (λ x, RejectionPromise.__init__ x g) v _ c s1 acts op
                (wf_program prog) Hcatch (ex_intro _ _ eq_refl) eq_refl eq_refl
                (λ q, rejection_wrapper_awaits q v g) Hacts Hv Hsus) as [H1 H2].
  cbv beta in H1, H2.
  change (_fut (RejectionPromise.__init__ v g))
    with (RejectionPromise._wrapper g (Shielded v)) in H1, H2.
  rewrite Hfin in H1, H2. rewrite H1, H2.
  destruct op as [x|e]; [done|].
  destruct (is_CancelledError e); [done|]. by destruct (isinstance_Exception e).
Qed.

(** The order of the two [except] clauses makes the class of
    [CancelledError] irrelevant. *)
Lemma rejection_clause_order g e :
  dispatch (RejectionPromise.clauses isinstance_Exception_py37 g) e
  = dispatch (RejectionPromise.clauses isinstance_Exception g) e.
Proof. by destruct e. Qed.

Lemma resolution_settles prog v h c s1 acts op :
  lastly v h (exec prog empty) = Some (c, s1) →
  never_cancels c acts = true →
  state_of (run acts s1) v = Some (Done op) →
  state_of (run (acts ++ [Step c; Step c]) s1) c
    = Some (Done (match settled (h tt) with Fulfilled _ => op | Raised e => Raised e end))
  ∧ arguments_of c (log (run (acts ++ [Step c; Step c]) s1)) = [NoArg].
Proof.
  intros Hlastly Hacts Hv.
  destruct (resolution_finish h v op) as [Hfin Hsus].
  pose proof (link_settles (λ x, ResolutionPromise.__init__ x h) v _ c s1 acts op
                (wf_program prog) Hlastly (ex_intro _ _ eq_refl) eq_refl eq_refl
                (λ q, resolution_wrapper_awaits q v h) Hacts Hv Hsus) as H.
  cbv beta in H.
  change (_fut (ResolutionPromise.__init__ v h))
    with (ResolutionPromise._wrapper h (Shielded v)) in H.
  by rewrite Hfin in H.
Qed.

Lemma resolution_cancels_quietly h :
  cancels_quietly true
    (try_finally (resume_with Cancelled) (ResolutionPromise.finalizer h)).
Proof. done. Qed.

(** ** The life of a link in any interleaving *)

Lemma task_step_callfree self h p :
  callfree (_fut p) →
  (task_step self h p).2 = [] ∧ callfree (_fut (task_step self h p).1).
Proof.
  destruct p as [X m d wt mc st fut]. unfold task_step. simpl.
  destruct fut as [x|e|w k| | |]; try done. intros Hk.
  destruct mc.
  - destruct st; [|done]. by apply advance_callfree.
  - destruct (poll h w) as [o|]; [|done]. by apply advance_callfree.
Qed.

Lemma cancel_method_resolution p :
  cls p = ResolutionC → _direct_cancellation (cancel_method p).1 = true.
Proof.
  destruct p as [X m d wt mc st fut]. simpl. intros ->. simpl. by destruct fut.
Qed.

Lemma cancel_method_keeps_direct p :
  cls p ≠ ResolutionC →
  _direct_cancellation (cancel_method p).1 = _direct_cancellation p.
Proof.
  destruct p as [X m d wt mc st fut]. simpl. intros HX.
  by destruct X, wt, fut.
Qed.

Section Lifecycle.
Context (c v : nat) (X : pclass) (k0 : outcome → coro value).
Context (Hvc : v ≠ c).
Context (W : coro value) (HW : W = Await (Shielded v) k0).
Context (Hq : ∀ d, (X = ResolutionC → d = true) → cancels_quietly d (k0 Cancelled)).
Context (Hres : ∀ o p,
  callfree (_fut (advance c (k0 o) p).1)
  ∧ (arguments_of c (advance c (k0 o) p).2 = []
     ∨ arguments_of c (advance c (k0 o) p).2 = (finish o false W).2)).

Lemma lifecycle_act a s : lifecycle c v X W s → lifecycle c v X W (act a s).
Proof.
  intros (pc & Hpc & HX & Hcase). unfold lifecycle.
  destruct (decide (target a = c)) as [Hta|Hta]; cycle 1.
  { exists pc. rewrite act_other by done.
    rewrite (act_arguments_other a s c Hta). split_and!; try done.
    destruct Hcase as [?|(o & Ho & ?)]; [by left | right].
    exists o. split; [by apply act_done_stable | done]. }
  assert (state_of (act a s) v = state_of s v) as Hv
    by (apply act_state_other; congruence).
  rewrite <- Hta in Hpc. destruct (act_here a s pc Hpc) as [Hh Hl].
  rewrite Hta in Hh, Hpc.
  destruct (local_attributes a (heap s) pc) as (Hcls & _).
  eexists. split; [exact Hh|]. split; [congruence|]. rewrite Hl, Hv.
  destruct Hcase as [(Hargs & Hfut & Hmc)|(o & Ho & Hcf & Hargs)].
  - (* the link has not got past its first await *)
    destruct a as [self|self|self|self]; simpl in Hta; subst self; simpl.
    + unfold task_step. destruct Hfut as [Hfut|Hfut]; rewrite Hfut; cycle 1.
      { left. rewrite app_nil_r. split_and!; [done | by right | done]. }
      rewrite HW. destruct (must_cancel pc) eqn:Hm.
      * left. destruct (started pc).
        -- destruct (advance_cancels_quietly c (k0 Cancelled) (set_must_cancel false pc))
             as [Hev Hf]; [by eapply Hmc|].
           destruct (advance_attributes c (k0 Cancelled) (set_must_cancel false pc))
             as (_ & _ & _ & Hm' & _).
           rewrite Hev, app_nil_r. split_and!; [done | by right |].
           by rewrite Hm'.
        -- simpl. rewrite app_nil_r. split_and!; [done | by right | done].
      * destruct (poll (heap s) (Shielded v)) as [o|] eqn:Hpoll.
        -- right. exists o. split; [by apply poll_shielded|].
           destruct (Hres o (set_started true pc)) as [Hcf Hev].
           split; [done|]. rewrite arguments_of_app, Hargs. simpl.
           rewrite HW in Hev. exact Hev.
        -- left. simpl. rewrite app_nil_r, Hfut, Hm.
           split_and!; [done | by left; rewrite HW | done].
    + left. rewrite app_nil_r.
      destruct (cancel_method_attributes pc) as (_ & _ & _ & _ & ->).
      split_and!; [done | done |]. intros _ w k Hwk.
      rewrite HW in Hwk. injection Hwk as _ <-. apply Hq. intros HR.
      apply cancel_method_resolution. congruence.
    + left. rewrite app_nil_r. by split_and!.
    + left. rewrite app_nil_r.
      destruct (cancel_method_attributes pc) as (_ & _ & _ & _ & ->).
      split_and!; [done | done |]. intros _ w k Hwk.
      rewrite HW in Hwk. injection Hwk as _ <-. apply Hq. intros HR.
      apply cancel_method_resolution. congruence.
  - (* the parent is done and the link was resumed *)
    right. exists o. split; [done|].
    assert ((local a (heap s) pc).2 = [] ∧ callfree (_fut (local a (heap s) pc).1))
      as [-> Hcf'].
    { destruct a as [self|self|self|self]; simpl.
      - by apply task_step_callfree.
      - by destruct (cancel_method_attributes pc) as (_ & _ & _ & _ & ->).
      - done.
      - by destruct (cancel_method_attributes pc) as (_ & _ & _ & _ & ->). }
    by rewrite app_nil_r.
Qed.

Lemma lifecycle_run acts s : lifecycle c v X W s → lifecycle c v X W (run acts s).
Proof.
  revert s. induction acts as [|a acts IH]; intros s Hs; simpl; [done|].
  by apply IH, lifecycle_act.
Qed.

Lemma lifecycle_arguments s :
  lifecycle c v X W s →
  match state_of s v with
  | Some (Done o) =>
      arguments_of c (log s) = [] ∨ arguments_of c (log s) = (finish o false W).2
  | _ => arguments_of c (log s) = []
  end.
Proof.
  intros (pc & _ & _ & [(Hargs & _)|(o & -> & _ & Hargs)]); [|done].
  destruct (state_of s v) as [[|o]|]; try done. by left.
Qed.

End Lifecycle.

Lemma born_lifecycle (mk : nat → promise) self s c s1 k0 :
  wf s →
  (s' ← _assert_management self s; Some (new (mk self) s')) = Some (c, s1) →
  _fut (mk self) = Await (Shielded self) k0 →
  must_cancel (mk self) = false →
  self ≠ c ∧ lifecycle c self (cls (mk self)) (Await (Shielded self) k0) s1.
Proof.
  intros Hs (p & Hp & Hc & Hlt & Hh & Hl)%chain_spec Hfut Hmc.
  split; [lia|]. exists (mk self). split; [by eapply born_lookup|].
  split; [done|]. left. split_and!.
  - by eapply born_arguments, managed_diag.
  - by left.
  - by rewrite Hmc.
Qed.

Lemma callfree_resolve_awaitable r : callfree (resolve_awaitable r).
Proof. destruct r as [y|a]; simpl; [done|]. by intros []. Qed.

Lemma arguments_of_one c a : arguments_of c [Invoked c a] = [a].
Proof. unfold arguments_of. simpl. by rewrite Nat.eqb_refl. Qed.

(** Resuming the callback part of a wrapper: the callback is entered, and
    what is left waits for its awaitable at most. *)
Lemma advance_callback c a (cb : call) p :
  callfree (_fut (advance c (r <- invoke a cb ;; resolve_awaitable r) p).1)
  ∧ arguments_of c (advance c (r <- invoke a cb ;; resolve_awaitable r) p).2 = [a].
Proof.
  destruct cb as [[y|o]|e]; unfold arguments_of; simpl; rewrite Nat.eqb_refl;
    (split; [|done]); try done.
  by intros [].
Qed.

Lemma fulfillment_resumed c v f o p :
  callfree (_fut (advance c (x <- resume_with o ;;
                             r <- invoke (ArgValue x) (f x) ;; resolve_awaitable r) p).1)
  ∧ (arguments_of c (advance c (x <- resume_with o ;;
                                r <- invoke (ArgValue x) (f x) ;; resolve_awaitable r) p).2
     = []
     ∨ arguments_of c (advance c (x <- resume_with o ;;
                                  r <- invoke (ArgValue x) (f x) ;; resolve_awaitable r) p).2
       = (finish o false (FulfillmentPromise._wrapper f (Shielded v))).2).
Proof.
  rewrite (proj1 (fulfillment_finish f v o)).
  destruct o as [x|e]; [|by split; [|left]].
  change (x0 <- resume_with (Fulfilled x) ;;
          r <- invoke (ArgValue x0) (f x0) ;; resolve_awaitable r)
    with (r <- invoke (ArgValue x) (f x) ;; resolve_awaitable r).
  destruct (advance_callback c (ArgValue x) (f x) p) as [H1 H2].
  split; [exact H1 | right; by rewrite H2].
Qed.

Lemma rejection_resumed c v g o p :
  callfree (_fut (advance c (try_except (resume_with o)
                     (RejectionPromise.clauses isinstance_Exception g)) p).1)
  ∧ (arguments_of c (advance c (try_except (resume_with o)
                       (RejectionPromise.clauses isinstance_Exception g)) p).2 = []
     ∨ arguments_of c (advance c (try_except (resume_with o)
                         (RejectionPromise.clauses isinstance_Exception g)) p).2
       = (finish o false (RejectionPromise._wrapper g (Shielded v))).2).
Proof.
  rewrite (proj1 (rejection_finish g v o)).
  destruct o as [x|[|n|n]]; try (by split; [|left]).
  change (try_except (resume_with (Raised (Exception n)))
            (RejectionPromise.clauses isinstance_Exception g))
    with (r <- invoke (ArgExn (Exception n)) (g (Exception n)) ;; resolve_awaitable r).
  destruct (advance_callback c (ArgExn (Exception n)) (g (Exception n)) p) as [H1 H2].
  split; [exact H1 | right; by rewrite H2].
Qed.

Lemma chain_link_resumed c v f o p :
  callfree (_fut (advance c (result <- resume_with o ;;
      SetWaitingChainResult false
        (r <- invoke (ArgValue result) (f result) ;;
         ChainLinkPromise._ensure_chain r)) p).1)
  ∧ (arguments_of c (advance c (result <- resume_with o ;;
        SetWaitingChainResult false
          (r <- invoke (ArgValue result) (f result) ;;
           ChainLinkPromise._ensure_chain r)) p).2 = []
     ∨ arguments_of c (advance c (result <- resume_with o ;;
          SetWaitingChainResult false
            (r <- invoke (ArgValue result) (f result) ;;
             ChainLinkPromise._ensure_chain r)) p).2
       = (finish o false (ChainLinkFulfillmentPromise._wrapper f (Shielded v))).2).
Proof.
  rewrite (proj1 (chain_link_finish f v o)).
  destruct o as [x|e]; [|by split; [|left]].
  destruct (advance_callback c (ArgValue x) (f x) (set_waiting_chain_result false p))
    as [H1 H2].
  split; [exact H1 | right; exact H2].
Qed.

Lemma resolution_resumed_arguments c v h o p :
  arguments_of c (advance c (try_finally (resume_with o)
                                         (ResolutionPromise.finalizer h)) p).2 = []
  ∨ arguments_of c (advance c (try_finally (resume_with o)
                                           (ResolutionPromise.finalizer h)) p).2
    = (finish o false (ResolutionPromise._wrapper h (Shielded v))).2.
Proof.
  rewrite (proj1 (resolution_finish h v o)).
  destruct p as [X m d w mc st fut].
  destruct o as [x|e], d; simpl; try (by left); right;
    destruct (h tt) as [[y|[y|e']]|e']; unfold arguments_of; simpl;
    by rewrite Nat.eqb_refl.
Qed.

Lemma chain_lifecycle k r s c s1 acts :
  wf s →
  chain k r s = Some (c, s1) →
  match state_of (run acts s1) r with
  | Some (Done o) =>
      arguments_of c (log (run acts s1)) = []
      ∨ arguments_of c (log (run acts s1)) = expected_arguments k o
  | _ => arguments_of c (log (run acts s1)) = []
  end.
Proof.
  intros Hs Hk. destruct k as [f|g|h|f]; simpl in Hk.
  - set (k0 := λ o, x <- resume_with o ;;
                    r <- invoke (ArgValue x) (f x) ;; resolve_awaitable r).
    destruct (born_lifecycle (λ x, FulfillmentPromise.__init__ x f) r s c s1 k0
                Hs Hk eq_refl eq_refl) as [Hne Hb].
    assert (∀ d, (FulfillmentC = ResolutionC → d = true) →
                 cancels_quietly d (k0 Cancelled)) as Hq by done.
    pose proof (lifecycle_arguments c r _ _ _
                  (lifecycle_run c r FulfillmentC k0 Hne _ eq_refl Hq
                     (fulfillment_resumed c r f) acts s1 Hb)) as H.
    destruct (state_of (run acts s1) r) as [[|o]|]; try done.
    change (Await (Shielded r) k0) with (FulfillmentPromise._wrapper f (Shielded r)) in H.
    rewrite (proj1 (fulfillment_finish f r o)) in H. by destruct o.
  - set (k0 := λ o, try_except (resume_with o)
                      (RejectionPromise.clauses isinstance_Exception g)).
    destruct (born_lifecycle (λ x, RejectionPromise.__init__ x g) r s c s1 k0
                Hs Hk eq_refl eq_refl) as [Hne Hb].
    assert (∀ d, (RejectionC = ResolutionC → d = true) →
                 cancels_quietly d (k0 Cancelled)) as Hq by done.
    pose proof (lifecycle_arguments c r _ _ _
                  (lifecycle_run c r RejectionC k0 Hne _ eq_refl Hq
                     (rejection_resumed c r g) acts s1 Hb)) as H.
    destruct (state_of (run acts s1) r) as [[|o]|]; try done.
    change (Await (Shielded r) k0) with (RejectionPromise._wrapper g (Shielded r)) in H.
    rewrite (proj1 (rejection_finish g r o)) in H.
    destruct o as [x|e]; [done|]. simpl.
    destruct (is_CancelledError e); [done|]. by destruct (isinstance_Exception e).
  - set (k0 := λ o, try_finally (resume_with o) (ResolutionPromise.finalizer h)).
    destruct (born_lifecycle (λ x, ResolutionPromise.__init__ x h) r s c s1 k0
                Hs Hk eq_refl eq_refl) as [Hne Hb].
    assert (∀ d, (ResolutionC = ResolutionC → d = true) →
                 cancels_quietly d (k0 Cancelled)) as Hq.
    { intros d Hd. by rewrite Hd. }
    pose proof (lifecycle_arguments c r _ _ _
                  (lifecycle_run c r ResolutionC k0 Hne _ eq_refl Hq
                     (λ o p, conj (proj1 (resolution_resumed h c o p))
                                  (resolution_resumed_arguments c r h o p))
                     acts s1 Hb)) as H.
    destruct (state_of (run acts s1) r) as [[|o]|]; try done.
    change (Await (Shielded r) k0) with (ResolutionPromise._wrapper h (Shielded r)) in H.
    by rewrite (proj1 (resolution_finish h r o)) in H.
  - set (k0 := λ o, result <- resume_with o ;;
                    SetWaitingChainResult false
                      (r <- invoke (ArgValue result) (f result) ;;
                       ChainLinkPromise._ensure_chain r)).
    destruct (born_lifecycle (λ x, ChainLinkFulfillmentPromise.__init__ x f) r s c s1 k0
                Hs Hk eq_refl eq_refl) as [Hne Hb].
    assert (∀ d, (ChainLinkFulfillmentC = ResolutionC → d = true) →
                 cancels_quietly d (k0 Cancelled)) as Hq by done.
    pose proof (lifecycle_arguments c r _ _ _
                  (lifecycle_run c r ChainLinkFulfillmentC k0 Hne _ eq_refl Hq
                     (chain_link_resumed c r f) acts s1 Hb)) as H.
    destruct (state_of (run acts s1) r) as [[|o]|]; try done.
    change (Await (Shielded r) k0) with (ChainLinkFulfillmentPromise._wrapper f (Shielded r)) in H.
    rewrite (proj1 (chain_link_finish f r o)) in H. by destruct o.
Qed.

Lemma expected_arguments_length k o : length (expected_arguments k o) ≤ 1.
Proof.
  destruct k, o as [x|e]; simpl; try lia;
    destruct (is_CancelledError e); simpl; try lia;
    destruct (isinstance_Exception e); simpl; lia.
Qed.

(** ** A link cancelled before its callback *)

Lemma local_callfree a h p :
  callfree (_fut p) → (local a h p).2 = [] ∧ callfree (_fut (local a h p).1).
Proof.
  intros Hcf. destruct a as [self|self|self|self]; simpl.
  - by apply task_step_callfree.
  - by destruct (cancel_method_attributes p) as (_ & _ & _ & _ & ->).
  - done.
  - by destruct (cancel_method_attributes p) as (_ & _ & _ & _ & ->).
Qed.

(** What is left of a coroutine enters no callback: none is entered. *)
Lemma callfree_quiet_run acts s c pc :
  heap s !! c = Some pc → callfree (_fut pc) →
  arguments_of c (log (run acts s)) = arguments_of c (log s).
Proof.
  revert s pc. induction acts as [|a acts IH]; intros s pc Hpc Hcf; simpl; [done|].
  destruct (decide (target a = c)) as [Hta|Hta].
  - assert (heap s !! target a = Some pc) as Hpc' by (by rewrite Hta).
    destruct (act_here a s pc Hpc') as [Hh Hl]. rewrite Hta in Hh.
    destruct (local_callfree a (heap s) pc Hcf) as [Hev Hcf'].
    rewrite (IH _ _ Hh Hcf'), Hl, Hev. by rewrite app_nil_r.
  - rewrite (IH (act a s) pc); [by apply act_arguments_other | | done].
    by rewrite act_other.
Qed.

Section WaitingOrSpent.
Context (c v : nat) (X : pclass) (k0 : outcome → coro value).
Context (Hres : ∀ o p, callfree (_fut (advance c (k0 o) p).1)).
Context (Hq : ∀ d, (X = ResolutionC → d = true) → cancels_quietly d (k0 Cancelled)).
Implicit Types (a : action) (s : world).

Lemma waiting_or_spent_act a s :
  waiting_or_spent c X (Await (Shielded v) k0) s →
  waiting_or_spent c X (Await (Shielded v) k0) (act a s).
Proof.
  intros (pc & Hpc & HX & Hcase).
  destruct (decide (target a = c)) as [Hta|Hta]; last first.
  { exists pc. rewrite act_other, (act_arguments_other a s c Hta) by done. done. }
  assert (heap s !! target a = Some pc) as Hpc' by (by rewrite Hta).
  destruct (act_here a s pc Hpc') as [Hh Hl]. rewrite Hta in Hh.
  destruct (local_attributes a (heap s) pc) as (Hcls & _).
  eexists. split; [exact Hh|]. split; [congruence|].
  destruct Hcase as [Hcf|(Hargs & Hfut & Hw)].
  { left. by apply local_callfree. }
  rewrite Hl.
  destruct a as [self|self|self|self]; simpl in Hta; subst self; simpl.
  - unfold task_step. rewrite Hfut. destruct (must_cancel pc).
    + left. destruct (started pc); [apply Hres | done].
    + destruct (poll (heap s) (Shielded v)) as [o|]; [left; apply Hres|].
      right. simpl. by rewrite app_nil_r.
  - right. rewrite app_nil_r.
    by destruct (cancel_method_attributes pc) as (_ & _ & _ & -> & ->).
  - right. by rewrite app_nil_r.
  - right. rewrite app_nil_r.
    by destruct (cancel_method_attributes pc) as (_ & _ & _ & -> & ->).
Qed.

Lemma waiting_or_spent_run acts s :
  waiting_or_spent c X (Await (Shielded v) k0) s →
  waiting_or_spent c X (Await (Shielded v) k0) (run acts s).
Proof.
  revert s. induction acts as [|a acts IH]; intros s Hs; simpl; [done|].
  by apply IH, waiting_or_spent_act.
Qed.

(** [cancel()] that reaches the link while its callback has not been
    entered: the callback is never entered. *)
Lemma waiting_or_spent_cancelled a pre post s :
  waiting_or_spent c X (Await (Shielded v) k0) s →
  cancels c a = true →
  arguments_of c (log (run pre s)) = [] →
  arguments_of c (log (run (pre ++ a :: post) s)) = [].
Proof.
  intros Hs Ha Hargs.
  apply (waiting_or_spent_run pre) in Hs as (pc & Hpc & HX & Hcase).
  rewrite run_app.
  destruct Hcase as [Hcf|(_ & Hfut & Hw)].
  { by rewrite (callfree_quiet_run (a :: post) _ c pc Hpc Hcf). }
  assert (heap (act a (run pre s)) !! c = Some (cancel_method pc).1
          ∧ log (act a (run pre s)) = log (run pre s)) as [Hh Hl].
  { destruct a as [self|self|self|self]; simpl in Ha; try done;
      apply Nat.eqb_eq in Ha; subst self;
      match goal with |- context [act ?a _] =>
        destruct (act_here a _ pc Hpc) as [Hh Hl] end;
      simpl in Hh, Hl; by rewrite Hh, Hl, app_nil_r. }
  simpl. destruct (doomed_run post _ c _ Hh) as [-> _].
  - apply (cancel_dooms pc (Shielded v) k0 Hfut); rewrite HX; [exact Hq | exact Hw].
  - by rewrite Hl.
Qed.

End WaitingOrSpent.

Lemma born_waiting (mk : nat → promise) self s c s1 k0 :
  wf s →
  (s' ← _assert_management self s; Some (new (mk self) s')) = Some (c, s1) →
  _fut (mk self) = Await (Shielded self) k0 →
  (cls (mk self) = ChainLinkFulfillmentC → _waiting_chain_result (mk self) = true) →
  waiting_or_spent c (cls (mk self)) (Await (Shielded self) k0) s1.
Proof.
  intros Hs (p & Hp & Hc & Hlt & Hh & Hl)%chain_spec Hfut Hw.
  exists (mk self). split; [by eapply born_lookup|]. split; [done|]. right.
  split_and!; [by eapply born_arguments, managed_diag | done | done].
Qed.

(** Each kind of link at its creation. *)
Lemma chain_waiting_or_spent k r s c s1 :
  wf s →
  chain k r s = Some (c, s1) →
  ∃ X k0,
    (∀ o p, callfree (_fut (advance c (k0 o) p).1))
    ∧ (∀ d, (X = ResolutionC → d = true) → cancels_quietly d (k0 Cancelled))
    ∧ waiting_or_spent c X (Await (Shielded r) k0) s1.
Proof.
  intros Hs Hk. destruct k as [f|g|h|f]; simpl in Hk.
  - exists FulfillmentC, (λ o, x <- resume_with o ;;
                              r <- invoke (ArgValue x) (f x) ;; resolve_awaitable r).
    split; [exact (λ o p, proj1 (fulfillment_resumed c r f o p))|].
    split; [done|].
    by apply (born_waiting (λ x, FulfillmentPromise.__init__ x f) r s c s1 _ Hs Hk eq_refl).
  - exists RejectionC, (λ o, try_except (resume_with o)
                             (RejectionPromise.clauses isinstance_Exception g)).
    split; [exact (λ o p, proj1 (rejection_resumed c r g o p))|].
    split; [done|].
    by apply (born_waiting (λ x, RejectionPromise.__init__ x g) r s c s1 _ Hs Hk eq_refl).
  - exists ResolutionC, (λ o, try_finally (resume_with o) (ResolutionPromise.finalizer h)).
    split; [exact (λ o p, proj1 (resolution_resumed h c o p))|].
    split; [intros d Hd; by rewrite Hd|].
    by apply (born_waiting (λ x, ResolutionPromise.__init__ x h) r s c s1 _ Hs Hk eq_refl).
  - exists ChainLinkFulfillmentC,
      (λ o, result <- resume_with o ;;
            SetWaitingChainResult false
              (r <- invoke (ArgValue result) (f result) ;;
               ChainLinkPromise._ensure_chain r)).
    split; [exact (λ o p, proj1 (chain_link_resumed c r f o p))|].
    split; [done|].
    by apply (born_waiting (λ x, ChainLinkFulfillmentPromise.__init__ x f) r s c s1 _
                Hs Hk eq_refl).
Qed.

(** Making another promise leaves the link as it is. *)
Lemma waiting_or_spent_grows c X W s s2 pnew diag :
  waiting_or_spent c X W s →
  heap s2 = heap s ++ [pnew] →
  log s2 = log s ++ diag →
  Forall (λ ev, ∃ q, ev = Diagnostic q) diag →
  waiting_or_spent c X W s2.
Proof.
  intros (pc & Hpc & HX & Hcase) Hh Hl Hdiag. exists pc.
  split; [rewrite Hh; by apply lookup_app_l_Some|]. split; [done|].
  destruct Hcase as [Hcf|(Hargs & Hrest)]; [by left | right].
  split; [|done].
  rewrite Hl, arguments_of_app, Hargs. simpl. clear Hl.
  unfold arguments_of. induction Hdiag as [|ev l [q ->] _ IH]; [done | exact IH].
Qed.

Lemma cancelled_before_callback k r s c s1 a pre post :
  wf s →
  chain k r s = Some (c, s1) →
  cancels c a = true →
  arguments_of c (log (run pre s1)) = [] →
  arguments_of c (log (run (pre ++ a :: post) s1)) = [].
Proof.
  intros Hs Hk Ha Hargs.
  destruct (chain_waiting_or_spent k r s c s1 Hs Hk) as (X & k0 & Hres & Hq & Hw).
  by apply (waiting_or_spent_cancelled c r X k0 Hres Hq a pre post s1).
Qed.

(** * The claims *)

(** ** Shielding of the parent *)

(** C1.  A chain link [c] derived from a parent [r] by [then], [catch] or
    [lastly].  In any interleaving of task steps and method calls, with
    [cancel()] called on the link wherever and as often as one likes, the
    parent goes through exactly the states it goes through when [c] is
    never derived: cancelling the link never changes the parent, which
    reaches the outcome it would have reached without the child.  And
    when [cancel()] reaches the link before its callback has been entered
    -- before its task has started or while it waits behind the shield,
    the parent pending or already done -- the callback is never entered,
    whatever came before and whatever follows. *)
Theorem cancelled_link_shields_parent
    (prog : list command) (r : nat) (k : handler) (c : nat) (s1 : world) :
  chain k r (exec prog empty) = Some (c, s1) →
  (∀ acts : list action,
     state_of (run acts s1) r = state_of (run acts (exec prog empty)) r)
  ∧ (∀ pre post : list action,
       arguments_of c (log (run pre s1)) = [] →
       invocations c (log (run (pre ++ Cancel c :: post) s1)) = 0).
Proof.
  intros Hk. pose proof (wf_program prog) as Hs. split.
  - intros acts.
    destruct (chain_born _ _ _ _ _ Hk) as (pc & p & k0 & Hp & Hc & Hh & _).
    destruct (run_prefix acts s1 (exec prog empty) pc Hs Hh) as [x' Hx'].
    unfold state_of. rewrite Hx', lookup_app_l; [done|].
    rewrite run_length. by eapply lookup_lt_Some.
  - intros pre post Hargs. unfold invocations.
    rewrite (cancelled_before_callback k r _ c s1 (Cancel c) pre post Hs Hk); try done.
    simpl. apply Nat.eqb_refl.
Qed.

Lemma cancelled_link_shields_parent_witness :
  chain (OnFulfilled plus_one) 0 (exec [New (Fulfilled (VInt 5))] empty)
    = Some (1, exec [New (Fulfilled (VInt 5)); Then 0 plus_one] empty)
  ∧ arguments_of 1 (log (run [Step 1]
        (exec [New (Fulfilled (VInt 5)); Then 0 plus_one] empty))) = []
  ∧ state_of (run [Step 1; Cancel 1; Step 0; Step 1]
                  (exec [New (Fulfilled (VInt 5)); Then 0 plus_one] empty)) 0
    = state_of (run [Step 1; Cancel 1; Step 0; Step 1]
                    (exec [New (Fulfilled (VInt 5))] empty)) 0
  ∧ invocations 1 (log (run ([Step 1] ++ Cancel 1 :: [Step 0; Step 1; Step 1])
                  (exec [New (Fulfilled (VInt 5)); Then 0 plus_one] empty))) = 0.
Proof.
  split; [reflexivity|]. split; [reflexivity|].
  destruct (cancelled_link_shields_parent [New (Fulfilled (VInt 5))] 0
              (OnFulfilled plus_one) 1 _ eq_refl) as [H1 H2].
  split; [exact (H1 [Step 1; Cancel 1; Step 0; Step 1])
         | exact (H2 [Step 1] [Step 0; Step 1; Step 1] eq_refl)].
Defined.

(** ** Rejection links and cancellation *)

(** C2.  A rejection link [c = v.catch(g)] whose parent was cancelled, in
    any interleaving of task steps and method calls: [g] was never entered,
    the link is pending or cancelled, and its next step ends it by
    re-raising the cancellation, still without entering [g]. *)
Theorem rejection_link_reraises_cancellation
    (prog : list command) (v : nat) (g : exn → call) (c : nat) (s1 : world)
    (acts : list action) :
  catch v g (exec prog empty) = Some (c, s1) →
  state_of (run acts s1) v = Some (Done Cancelled) →
  arguments_of c (log (run acts s1)) = []
  ∧ (state_of (run acts s1) c = Some Pending
     ∨ state_of (run acts s1) c = Some (Done Cancelled))
  ∧ arguments_of c (log (run (acts ++ [Step c]) s1)) = []
  ∧ state_of (run (acts ++ [Step c]) s1) c = Some (Done Cancelled).
Proof.
  intros Hcatch Hv.
  destruct (rejection_passive prog v g c s1 acts Cancelled Hcatch) as (H1 & H2 & H3 & H4);
    [done | done |].
  split_and!; [done | tauto | done | tauto].
Qed.

Lemma rejection_link_reraises_cancellation_witness :
  catch 0 recovered (exec [New (Fulfilled (VInt 5))] empty)
    = Some (1, exec [New (Fulfilled (VInt 5)); Catch 0 recovered] empty)
  ∧ state_of (run [Cancel 0; Step 0]
                  (exec [New (Fulfilled (VInt 5)); Catch 0 recovered] empty)) 0
    = Some (Done Cancelled)
  ∧ state_of (run ([Cancel 0; Step 0] ++ [Step 1])
                  (exec [New (Fulfilled (VInt 5)); Catch 0 recovered] empty)) 1
    = Some (Done Cancelled).
Proof.
  split; [reflexivity|]. split; [reflexivity|].
  apply (rejection_link_reraises_cancellation [New (Fulfilled (VInt 5))] 0 recovered 1
           _ [Cancel 0; Step 0]); reflexivity.
Defined.

(** ** Fulfillment links *)

(** C3.  A fulfillment link [v.then(f)], once the parent is done.  When
    the parent fulfilled with [v0] and nobody cancelled the link, two steps
    of the link finish it: [f] was entered exactly once, with [v0], and the
    link's outcome is what the call settles to, the value returned or the
    result of the awaitable returned (or the error raised).  When the
    parent failed or was cancelled, [f] is never entered, in any
    interleaving, and the link, unless cancelled itself, ends with the
    parent's error or cancellation.  And the scenario of the spec: a root
    fulfilling with 5, chained as [then(x => x+1).then(x => x*2)], fulfills
    with 12. *)
Theorem fulfillment_link_outcome
    (prog : list command) (v : nat) (f : value → call) (c : nat) (s1 : world)
    (acts : list action) (op : outcome) :
  then_ v f (exec prog empty) = Some (c, s1) →
  state_of (run acts s1) v = Some (Done op) →
  match op with
  | Fulfilled v0 =>
      never_cancels c acts = true →
      state_of (run (acts ++ [Step c; Step c]) s1) c = Some (Done (settled (f v0)))
      ∧ arguments_of c (log (run (acts ++ [Step c; Step c]) s1)) = [ArgValue v0]
  | Raised e =>
      arguments_of c (log (run (acts ++ [Step c; Step c]) s1)) = []
      ∧ (never_cancels c acts = true →
         state_of (run (acts ++ [Step c; Step c]) s1) c = Some (Done (Raised e)))
  end
  ∧ state_of scenario_then_then 2 = Some (Done (Fulfilled (VInt 12))).
Proof.
  intros Hthen Hv. split; [|reflexivity].
  destruct op as [v0|e].
  - intros Hacts.
    pose proof (fulfillment_settles prog v f c s1 acts _ Hthen Hacts Hv) as Hs.
    by injection Hs as -> ->.
  - split.
    + apply (fulfillment_passive prog v f c s1 _ e Hthen).
      rewrite run_app. by apply run_done_stable.
    + intros Hacts.
      pose proof (fulfillment_settles prog v f c s1 acts _ Hthen Hacts Hv) as Hs.
      by injection Hs as -> _.
Qed.

Lemma fulfillment_link_outcome_witness :
  then_ 0 slow_plus_one (exec [New (Fulfilled (VInt 5))] empty)
    = Some (1, exec [New (Fulfilled (VInt 5)); Then 0 slow_plus_one] empty)
  ∧ (state_of (run ([Step 0] ++ [Step 1; Step 1])
                   (exec [New (Fulfilled (VInt 5)); Then 0 slow_plus_one] empty)) 1
       = Some (Done (Fulfilled (VInt 6)))
     ∧ arguments_of 1 (log (run ([Step 0] ++ [Step 1; Step 1])
                   (exec [New (Fulfilled (VInt 5)); Then 0 slow_plus_one] empty)))
       = [ArgValue (VInt 5)]).
Proof.
  split; [reflexivity|].
  destruct (fulfillment_link_outcome [New (Fulfilled (VInt 5))] 0 slow_plus_one 1
              _ [Step 0] (Fulfilled (VInt 5)) eq_refl eq_refl) as [H _].
  exact (H eq_refl).
Defined.

(** ** Rejection links *)

(** C4, as amended.  A rejection link [v.catch(g)], once the parent is
    done.  When the parent failed with an instance of [Exception] and
    nobody cancelled the link, two steps of the link finish it: [g] was
    entered exactly once, with that error, and the link's outcome is what
    the call settles to, the value returned or the result of the awaitable
    returned, so that a caught rejection becomes a fulfillment.  When the
    parent fulfilled, [g] is never entered, in any interleaving, and the
    link, unless cancelled itself, fulfills with the same value.  And the
    scenario of the spec: a root rejecting with E, chained as
    [then(f).catch(e => "recovered")], fulfills with "recovered" and [f] is
    never entered. *)
Theorem rejection_link_outcome
    (prog : list command) (v : nat) (g : exn → call) (c : nat) (s1 : world)
    (acts : list action) (op : outcome) :
  catch v g (exec prog empty) = Some (c, s1) →
  state_of (run acts s1) v = Some (Done op) →
  match op with
  | Fulfilled x =>
      arguments_of c (log (run (acts ++ [Step c; Step c]) s1)) = []
      ∧ (never_cancels c acts = true →
         state_of (run (acts ++ [Step c; Step c]) s1) c = Some (Done (Fulfilled x)))
  | Raised e =>
      isinstance_Exception e = true →
      never_cancels c acts = true →
      state_of (run (acts ++ [Step c; Step c]) s1) c = Some (Done (settled (g e)))
      ∧ arguments_of c (log (run (acts ++ [Step c; Step c]) s1)) = [ArgExn e]
  end
  ∧ state_of scenario_then_catch 2 = Some (Done (Fulfilled (VStr "recovered")))
  ∧ invocations 1 (log scenario_then_catch) = 0.
Proof.
  intros Hcatch Hv. split; [|split; reflexivity].
  destruct op as [x|e].
  - split.
    + destruct (rejection_passive prog v g c s1 (acts ++ [Step c; Step c])
                  (Fulfilled x) Hcatch) as (H1 & _); [done | | done].
      rewrite run_app. by apply run_done_stable.
    + intros Hacts.
      pose proof (rejection_settles prog v g c s1 acts _ Hcatch Hacts Hv) as Hs.
      by injection Hs as -> _.
  - intros He Hacts.
    pose proof (rejection_settles prog v g c s1 acts _ Hcatch Hacts Hv) as Hs.
    destruct e as [|n|n]; try done. by injection Hs as -> ->.
Qed.

Lemma rejection_link_outcome_witness :
  catch 0 recovered (exec [New (Raised (Exception "E"))] empty)
    = Some (1, exec [New (Raised (Exception "E")); Catch 0 recovered] empty)
  ∧ state_of (run ([Step 0] ++ [Step 1; Step 1])
        (exec [New (Raised (Exception "E")); Catch 0 recovered] empty)) 1
    = Some (Done (Fulfilled (VStr "recovered")))
  ∧ arguments_of 1 (log (run ([Step 0] ++ [Step 1; Step 1])
        (exec [New (Raised (Exception "E")); Catch 0 recovered] empty)))
    = [ArgExn (Exception "E")].
Proof.
  split; [reflexivity|].
  destruct (rejection_link_outcome [New (Raised (Exception "E"))] 0 recovered 1 _
              [Step 0] (Raised (Exception "E")) eq_refl eq_refl) as [H _].
  exact (H eq_refl eq_refl).
Defined.

(** C4, as stated, fails: a parent that fails with an error other than the
    cancellation need not reach the callback.  Let [Shutdown] be a class
    deriving from [BaseException] only; the rejection link raises it again
    and never enters [g]. *)
Lemma rejection_link_misses_base_exceptions :
  ¬ ∀ (e : exn) (g : exn → call),
      e ≠ CancelledError →
      arguments_of 1 (log (exec [New (Raised e); Catch 0 g;
                                 Act (Step 0); Act (Step 1); Act (Step 1)] empty))
      = [ArgExn e]
      ∧ state_of (exec [New (Raised e); Catch 0 g;
                        Act (Step 0); Act (Step 1); Act (Step 1)] empty) 1
        = Some (Done (settled (g e))).
Proof.
  intros H. destruct (H (BaseOnly "Shutdown") recovered) as [Hargs _]; [done|].
  vm_compute in Hargs. discriminate Hargs.
Qed.

(** ** Resolution links *)

(** C5.  A resolution link [v.lastly(h)].  As long as [cancel()] is not
    called on the link itself: once the parent is done, by fulfillment, by
    rejection or by cancellation, two steps of the link finish it, and [h]
    was entered exactly once, whatever happens afterwards.  When
    [cancel()] is called on the link while the parent is pending, [h] is
    never entered, whatever happens afterwards. *)
Theorem finalizer_runs_exactly_once
    (prog : list command) (v : nat) (h : unit → call) (c : nat) (s1 : world)
    (acts later : list action) :
  lastly v h (exec prog empty) = Some (c, s1) →
  never_cancels c acts = true →
  (∀ op, state_of (run acts s1) v = Some (Done op) →
     (∃ o, state_of (run (acts ++ [Step c; Step c]) s1) c = Some (Done o))
     ∧ invocations c (log (run ((acts ++ [Step c; Step c]) ++ later) s1)) = 1)
  ∧ (state_of (run acts s1) v = Some Pending →
     invocations c (log (run (acts ++ Cancel c :: later) s1)) = 0).
Proof.
  intros Hlastly Hacts. split.
  - intros op Hv.
    destruct (resolution_settles prog v h c s1 acts op Hlastly Hacts Hv) as [H1 H2].
    split; [by eexists|].
    unfold invocations. rewrite run_app, (done_quiet_run _ _ _ _ H1), H2. done.
  - intros Hv.
    destruct (born_undisturbed (λ x, ResolutionPromise.__init__ x h) v _ c s1 _
                (wf_program prog) Hlastly eq_refl eq_refl eq_refl
                (λ q, resolution_wrapper_awaits q v h)) as [Hne Hu].
    apply (undisturbed_run c v _ Hne _ eq_refl acts) in Hu; [|done].
    destruct Hu as (pc & Hpc & _ & _ & _ & _ & Hpend & Htot).
    specialize (Hpend Hv).
    destruct (Htot Cancelled) as [Hargs _]; [by left|].
    rewrite Hpend in Hargs.
    apply (app_inv_tail _ _ []) in Hargs.
    assert (cls pc = ResolutionC) as Hcls.
    { apply (chain_spec (λ x, ResolutionPromise.__init__ x h)) in Hlastly
        as (p & _ & Hc & _ & Hh & _).
      destruct (run_cls acts s1 c _ (born_lookup _ _ _ _ Hc Hh)) as (pc' & Hpc' & Hcls).
      assert (pc' = pc) as -> by congruence. done. }
    rewrite run_app. simpl.
    destruct (act_here (Cancel c) (run acts s1) pc Hpc) as [Hh Hl]. simpl in Hh, Hl.
    destruct (doomed_run later _ c _ Hh) as [Hq _].
    { eapply cancel_dooms; [exact Hpend | | by rewrite Hcls].
      intros d Hd. rewrite (Hd Hcls). apply resolution_cancels_quietly. }
    unfold invocations. by rewrite Hq, Hl, app_nil_r, Hargs.
Qed.

Lemma finalizer_runs_exactly_once_witness :
  lastly 0 side_effect (exec [New (Fulfilled (VInt 1))] empty)
    = Some (1, exec [New (Fulfilled (VInt 1)); Lastly 0 side_effect] empty)
  ∧ invocations 1 (log (run (([Step 0] ++ [Step 1; Step 1]) ++ [Cancel 1; Step 1])
        (exec [New (Fulfilled (VInt 1)); Lastly 0 side_effect] empty))) = 1.
Proof.
  split; [reflexivity|].
  destruct (finalizer_runs_exactly_once [New (Fulfilled (VInt 1))] 0 side_effect 1 _
              [Step 0] [Cancel 1; Step 1] eq_refl eq_refl) as [H _].
  exact (proj2 (H (Fulfilled (VInt 1)) eq_refl)).
Defined.

(** C6, as amended.  A resolution link [v.lastly(h)] that runs to its end
    without being cancelled ends with the parent's own outcome (the same
    value, the same error, or the cancellation) whenever the finalizer
    ends normally, whatever it returned: a plain value, or an awaitable
    that fulfills.  When the finalizer raises, or the awaitable it returned
    fails, the link fails with that error instead.  A link that skips the
    finalizer, its [_direct_cancellation] flag being set, and is resumed
    with the parent's outcome ends with that outcome.  And the scenario of
    the spec: a root fulfilling with 1, chained as [lastly(sideEffect)],
    fulfills with 1 and [sideEffect] was entered exactly once. *)
Theorem resolution_link_outcome
    (prog : list command) (v : nat) (h : unit → call) (c : nat) (s1 : world)
    (acts : list action) (op : outcome) :
  lastly v h (exec prog empty) = Some (c, s1) →
  never_cancels c acts = true →
  state_of (run acts s1) v = Some (Done op) →
  state_of (run (acts ++ [Step c; Step c]) s1) c
    = Some (Done (match h tt with
                  | Returns (Plain _) | Returns (Awaitable (Fulfilled _)) => op
                  | Returns (Awaitable (Raised e)) | Raises e => Raised e
                  end))
  ∧ (∀ (p : promise) (others : list promise) (o : outcome),
       _fut p = ResolutionPromise._wrapper h (Shielded v) →
       _direct_cancellation p = true →
       must_cancel p = false →
       poll others (Shielded v) = Some o →
       done (task_step c others p).1 = Some o)
  ∧ state_of scenario_lastly 1 = Some (Done (Fulfilled (VInt 1)))
  ∧ invocations 1 (log scenario_lastly) = 1.
Proof.
  intros Hlastly Hacts Hv. split; [|split; [|split; reflexivity]].
  - destruct (resolution_settles prog v h c s1 acts op Hlastly Hacts Hv) as [-> _].
    by destruct (h tt) as [[y|[y|e]]|e].
  - intros p others o Hfut Hd Hmc Hpoll. unfold task_step.
    rewrite Hfut, resolution_wrapper_unfold. cbv beta iota.
    rewrite Hmc, Hpoll.
    destruct (resolution_resumed h c o (set_started true p)) as [_ Hev].
    rewrite Hev by done. by destruct o.
Qed.

Lemma resolution_link_outcome_witness :
  lastly 0 side_effect (exec [New (Raised (Exception "E"))] empty)
    = Some (1, exec [New (Raised (Exception "E")); Lastly 0 side_effect] empty)
  ∧ state_of (run ([Step 0] ++ [Step 1; Step 1])
        (exec [New (Raised (Exception "E")); Lastly 0 side_effect] empty)) 1
    = Some (Done (Raised (Exception "E"))).
Proof.
  split; [reflexivity|].
  apply (resolution_link_outcome [New (Raised (Exception "E"))] 0 side_effect 1 _
           [Step 0] (Raised (Exception "E")) eq_refl eq_refl eq_refl).
Defined.

(** C6, as stated, fails: a finalizer that raises changes the outcome.  The
    root fulfills with 1, the finalizer raises, and the link fails with the
    finalizer's error. *)
Lemma finalizer_error_replaces_outcome :
  ¬ ∀ (h : unit → call) (o : outcome),
      state_of (exec [New o; Lastly 0 h; Act (Step 0); Act (Step 1); Act (Step 1)]
                     empty) 1
      = Some (Done o).
Proof.
  intros H. specialize (H failing_cleanup (Fulfilled (VInt 1))).
  vm_compute in H. discriminate H.
Qed.

(** ** The non-cancellable window *)

(** C7 does not hold of the fulfillment link of promise.py.  A root
    fulfills with 5; the link's callback is entered and hands back an
    awaitable, on which the link is suspended: the callback has begun.
    [cancel()] on the link is then accepted, and the next step of the link
    ends it as cancelled, although the awaitable was about to give 6.  The
    link of chain_link/fulfillment.py, in the same situation, turns the
    request down and ends with 6. *)
Example fulfillment_link_cancelled_after_callback_start :
  arguments_of 1 (log (exec [New (Fulfilled (VInt 5)); Then 0 slow_plus_one;
                             Act (Step 0); Act (Step 1)] empty))
    = [ArgValue (VInt 5)]
  ∧ state_of (exec [New (Fulfilled (VInt 5)); Then 0 slow_plus_one;
                    Act (Step 0); Act (Step 1)] empty) 1 = Some Pending
  ∧ cancel_accepted 1 (exec [New (Fulfilled (VInt 5)); Then 0 slow_plus_one;
                             Act (Step 0); Act (Step 1)] empty) = true
  ∧ state_of (exec [New (Fulfilled (VInt 5)); Then 0 slow_plus_one;
                    Act (Step 0); Act (Step 1);
                    Act (Cancel 1); Act (Step 1)] empty) 1 = Some (Done Cancelled)
  ∧ state_of (exec [New (Fulfilled (VInt 5)); Then 0 slow_plus_one;
                    Act (Step 0); Act (Step 1);
                    Act (Step 1)] empty) 1 = Some (Done (Fulfilled (VInt 6)))
  ∧ cancel_accepted 1 (exec [New (Fulfilled (VInt 5)); ChainLinkThen 0 slow_plus_one;
                             Act (Step 0); Act (Step 1)] empty) = false
  ∧ state_of (exec [New (Fulfilled (VInt 5)); ChainLinkThen 0 slow_plus_one;
                    Act (Step 0); Act (Step 1);
                    Act (Cancel 1); Act (Step 1)] empty) 1
    = Some (Done (Fulfilled (VInt 6))).
Proof. repeat split; reflexivity. Qed.

(** ** The management guard *)

(** C8.  Chaining off any promise there is, with [then], [catch] or
    [lastly], always makes the link: nothing is raised and nothing waits.
    When the promise is unmanaged, the call puts exactly one diagnostic on
    the loop's error-reporting channel.  A chain link is managed by
    construction, the new link as well as any link chained off, so chaining
    off a link reports nothing: a diagnostic means the promise chained off
    is an unmanaged root. *)
Theorem chaining_reports_unmanaged_roots
    (prog : list command) (self : nat) (k : handler) (p : promise) :
  heap (exec prog empty) !! self = Some p →
  ∃ c s1 pc,
    chain k self (exec prog empty) = Some (c, s1)
    ∧ heap s1 !! c = Some pc
    ∧ cls pc ≠ PromiseC
    ∧ _is_managed pc = true
    ∧ (_is_managed p = false → log s1 = log (exec prog empty) ++ [Diagnostic self])
    ∧ (_is_managed p = true → log s1 = log (exec prog empty))
    ∧ (cls p ≠ PromiseC → _is_managed p = true)
    ∧ (log s1 ≠ log (exec prog empty) → cls p = PromiseC ∧ _is_managed p = false).
Proof.
  intros Hp. pose proof (wf_program prog) as Hs. set (s := exec prog empty) in *.
  pose proof (wf_managed s Hs self p Hp) as Hlink.
  assert (_assert_management self s
          = Some (if _is_managed p then s
                  else World (heap s) (log s ++ [Diagnostic self]))) as Ha.
  { unfold _assert_management. by rewrite Hp. }
  assert (∀ pc, cls pc ≠ PromiseC → _is_managed pc = true →
    ∃ c s1 pc',
      (s' ← _assert_management self s; Some (new pc s')) = Some (c, s1)
      ∧ heap s1 !! c = Some pc'
      ∧ cls pc' ≠ PromiseC
      ∧ _is_managed pc' = true
      ∧ (_is_managed p = false → log s1 = log s ++ [Diagnostic self])
      ∧ (_is_managed p = true → log s1 = log s)
      ∧ (cls p ≠ PromiseC → _is_managed p = true)
      ∧ (log s1 ≠ log s → cls p = PromiseC ∧ _is_managed p = false)) as Hmk.
  { intros pc Hc Hm. rewrite Ha. simpl.
    eexists _, _, pc. split; [done|].
    destruct (_is_managed p) eqn:Hman; simpl.
    - split_and!; try done. by rewrite lookup_app_r, Nat.sub_diag by lia.
    - split_and!; try done.
      + by rewrite lookup_app_r, Nat.sub_diag by lia.
      + intros _. split; [|done].
        destruct (cls p); try done; by discriminate Hlink. }
  destruct k as [f|g|h|f]; simpl; by apply Hmk.
Qed.

Lemma chaining_reports_unmanaged_roots_witness :
  heap (exec [New (Fulfilled (VInt 5))] empty) !! 0
    = Some (Promise.__init__ PromiseC (await (Foreign (Fulfilled (VInt 5)))))
  ∧ diagnostics_of 0 (log (exec [New (Fulfilled (VInt 5)); Then 0 plus_one] empty)) = 1
  ∧ ∃ c s1 pc,
      chain (OnFulfilled plus_one) 0 (exec [New (Fulfilled (VInt 5))] empty) = Some (c, s1)
      ∧ heap s1 !! c = Some pc
      ∧ _is_managed pc = true
      ∧ log s1 = log (exec [New (Fulfilled (VInt 5))] empty) ++ [Diagnostic 0].
Proof.
  split; [reflexivity|]. split; [reflexivity|].
  destruct (chaining_reports_unmanaged_roots [New (Fulfilled (VInt 5))] 0
              (OnFulfilled plus_one) _ eq_refl)
    as (c & s1 & pc & H1 & H2 & _ & H4 & H5 & _).
  exists c, s1, pc. split_and!; [exact H1 | exact H2 | exact H4 | exact (H5 eq_refl)].
Defined.

(** ** Base-level exceptions *)

(** C9.  The callback of a rejection link [v.catch(g)] is entered only
    when the parent failed with an instance of [Exception].  When the
    parent failed with a base-level exception (neither an instance of
    [Exception] nor the cancellation), [g] is never entered, in any
    interleaving, and the link, unless it was cancelled itself, ends by
    raising that same exception. *)
Theorem rejection_link_catches_only_exceptions
    (prog : list command) (v : nat) (g : exn → call) (c : nat) (s1 : world)
    (acts : list action) (op : outcome) :
  catch v g (exec prog empty) = Some (c, s1) →
  state_of (run acts s1) v = Some (Done op) →
  (arguments_of c (log (run (acts ++ [Step c]) s1)) ≠ [] →
   ∃ n, op = Raised (Exception n))
  ∧ ∀ n, op = Raised (BaseOnly n) →
      arguments_of c (log (run (acts ++ [Step c]) s1)) = []
      ∧ (never_cancels c acts = true →
         state_of (run (acts ++ [Step c]) s1) c = Some (Done (Raised (BaseOnly n)))).
Proof.
  intros Hcatch Hv. split.
  - intros Hargs.
    assert ((∃ n, op = Raised (Exception n)) ∨ ∀ n, op ≠ Raised (Exception n))
      as [|Hno]; [|done|].
    { destruct op as [x|[|n|n]]; [by right | by right | left; by exists n | by right]. }
    by destruct (rejection_passive prog v g c s1 acts op Hcatch Hno Hv)
      as (_ & _ & H3 & _).
  - intros n ->.
    destruct (rejection_passive prog v g c s1 acts (Raised (BaseOnly n)) Hcatch)
      as (_ & _ & H3 & H4); [done | done |].
    split; [done|]. intros Hacts.
    destruct H4 as [H4|H4]; [|done].
    pose proof (rejection_settles prog v g c s1 acts _ Hcatch Hacts Hv) as Hs.
    simpl in Hs. injection Hs as Hs _.
    replace (acts ++ [Step c; Step c]) with ((acts ++ [Step c]) ++ [Step c]) in Hs
      by (by rewrite <- app_assoc).
    rewrite run_app in Hs. simpl in Hs.
    apply (act_done_stable (Step c)) in H4. unfold Cancelled in H4. congruence.
Qed.

Lemma rejection_link_catches_only_exceptions_witness :
  catch 0 recovered (exec [New (Raised (BaseOnly "Shutdown"))] empty)
    = Some (1, exec [New (Raised (BaseOnly "Shutdown")); Catch 0 recovered] empty)
  ∧ arguments_of 1 (log (run ([Step 0] ++ [Step 1])
        (exec [New (Raised (BaseOnly "Shutdown")); Catch 0 recovered] empty)))
    = []
  ∧ state_of (run ([Step 0] ++ [Step 1])
        (exec [New (Raised (BaseOnly "Shutdown")); Catch 0 recovered] empty)) 1
    = Some (Done (Raised (BaseOnly "Shutdown"))).
Proof.
  split; [reflexivity|].
  destruct (rejection_link_catches_only_exceptions
              [New (Raised (BaseOnly "Shutdown"))] 0 recovered 1 _ [Step 0]
              (Raised (BaseOnly "Shutdown")) eq_refl eq_refl) as [_ H].
  destruct (H "Shutdown" eq_refl) as [H1 H2].
  split; [exact H1 | exact (H2 eq_refl)].
Defined.

(** ** Direct cancellation *)

(** C10.  A resolution link [v.lastly(h)], at any time, in any
    interleaving: once [cancel()] is called on the link, its
    [_direct_cancellation] flag is set and stays set, and the finalizer is
    never entered afterwards.  The flag is set before the cancellation
    request is passed to the base class and whatever that request returns.
    And a link whose flag is set but whose task is not cancelled ends,
    when its parent is done, with the parent's outcome and without
    entering the finalizer. *)
Theorem direct_cancellation_is_permanent
    (prog : list command) (v : nat) (h : unit → call) (c : nat) (s1 : world)
    (before later : list action) :
  lastly v h (exec prog empty) = Some (c, s1) →
  (∃ pc, heap (run (before ++ Cancel c :: later) s1) !! c = Some pc
         ∧ _direct_cancellation pc = true)
  ∧ arguments_of c (log (run (before ++ Cancel c :: later) s1))
    = arguments_of c (log (run before s1))
  ∧ (∀ (super_cancel : promise → promise * bool) (p : promise),
       (∀ q, _direct_cancellation (super_cancel q).1 = _direct_cancellation q) →
       _direct_cancellation (ResolutionPromise.cancel_via super_cancel p).1 = true)
  ∧ (∀ (p : promise) (others : list promise) (op : outcome),
       _fut p = ResolutionPromise._wrapper h (Shielded v) →
       _direct_cancellation p = true →
       must_cancel p = false →
       poll others (Shielded v) = Some op →
       done (task_step c others p).1 = Some op ∧ (task_step c others p).2 = []).
Proof.
  intros (p & _ & Hc & _ & Hh & _)%(chain_spec (λ x, ResolutionPromise.__init__ x h)).
  pose proof (born_lookup _ s1 c _ Hc Hh) as Hpc.
  destruct (resolution_run v h before s1 c _ Hpc) as (pA & HpA & HrA & _).
  { split; [done | by left]. }
  destruct (act_here (Cancel c) (run before s1) pA HpA) as [HhB HlB].
  simpl in HhB, HlB.
  assert (_direct_cancellation (cancel_method pA).1 = true) as HdB.
  { destruct HrA as [Hcls _]. destruct pA as [k m d w mc st fut]. simpl in *.
    subst k. simpl. by destruct fut. }
  destruct (resolution_run v h later _ c _ HhB) as (pC & HpC & _ & HdC).
  { destruct (resolution_local v h (Cancel c) [] pA HrA) as [Hr _]. exact Hr. }
  destruct (HdC HdB) as [Hd Hargs].
  rewrite run_app. simpl. split_and!.
  - by exists pC.
  - by rewrite Hargs, HlB, app_nil_r.
  - intros super_cancel q Hframe. unfold ResolutionPromise.cancel_via.
    by rewrite Hframe.
  - intros q others op Hfut Hq Hmc Hpoll. unfold task_step.
    change (poll others (Shielded v) = Some op) in Hpoll.
    rewrite Hfut, resolution_wrapper_unfold. cbv beta iota.
    rewrite Hmc, Hpoll.
    destruct (resolution_resumed h c op (set_started true q)) as [_ Hev].
    rewrite Hev by done. simpl. split; [|done]. by destruct op.
Qed.

Lemma direct_cancellation_is_permanent_witness :
  lastly 0 side_effect (exec [New (Fulfilled (VInt 1))] empty)
    = Some (1, exec [New (Fulfilled (VInt 1)); Lastly 0 side_effect] empty)
  ∧ arguments_of 1 (log (run ([Step 0] ++ Cancel 1 :: [Step 1; Step 1])
        (exec [New (Fulfilled (VInt 1)); Lastly 0 side_effect] empty)))
    = arguments_of 1 (log (run [Step 0]
        (exec [New (Fulfilled (VInt 1)); Lastly 0 side_effect] empty))).
Proof.
  split; [reflexivity|].
  destruct (direct_cancellation_is_permanent [New (Fulfilled (VInt 1))] 0 side_effect
              1 _ [Step 0] [Step 1; Step 1] eq_refl) as (_ & H & _).
  exact H.
Defined.

(** * Further properties *)

(** ** Callbacks and the outcome of the parent *)

(** X1.  A link derived by [then], [catch] or [lastly], in any interleaving
    of task steps and method calls, cancellations included: when its
    callback has been entered, the parent is done, and the callback was
    entered with the parent's own value (a fulfillment callback), with the
    parent's own error, an instance of [Exception] (a rejection callback),
    or with nothing (a finalizer).  No callback starts before the outcome
    of the parent is there. *)
Theorem callback_entered_only_after_parent
    (prog : list command) (k : handler) (r c : nat) (s1 : world)
    (acts : list action) :
  chain k r (exec prog empty) = Some (c, s1) →
  arguments_of c (log (run acts s1)) ≠ [] →
  ∃ o, state_of (run acts s1) r = Some (Done o)
       ∧ arguments_of c (log (run acts s1)) = expected_arguments k o.
Proof.
  intros Hk Hargs.
  pose proof (chain_lifecycle k r _ c s1 acts (wf_program prog) Hk) as H.
  destruct (state_of (run acts s1) r) as [[|o]|]; try done.
  exists o. split; [done|]. by destruct H.
Qed.

Lemma callback_entered_only_after_parent_witness :
  chain (OnRejected recovered) 0 (exec [New (Raised (Exception "E"))] empty)
    = Some (1, exec [New (Raised (Exception "E")); Catch 0 recovered] empty)
  ∧ ∃ o, state_of (run [Step 0; Cancel 0; Step 1]
                       (exec [New (Raised (Exception "E")); Catch 0 recovered] empty)) 0
         = Some (Done o)
         ∧ arguments_of 1 (log (run [Step 0; Cancel 0; Step 1]
                       (exec [New (Raised (Exception "E")); Catch 0 recovered] empty)))
           = expected_arguments (OnRejected recovered) o.
Proof.
  split; [reflexivity|].
  apply (callback_entered_only_after_parent [New (Raised (Exception "E"))]
           (OnRejected recovered) 0 1 _ [Step 0; Cancel 0; Step 1] eq_refl).
  vm_compute. discriminate.
Defined.

(** X2.  The callback of a link is entered at most once, in any
    interleaving of task steps and method calls, cancellations
    included. *)
Theorem callback_entered_at_most_once
    (prog : list command) (k : handler) (r c : nat) (s1 : world)
    (acts : list action) :
  chain k r (exec prog empty) = Some (c, s1) →
  invocations c (log (run acts s1)) ≤ 1.
Proof.
  intros Hk. unfold invocations.
  pose proof (chain_lifecycle k r _ c s1 acts (wf_program prog) Hk) as H.
  destruct (state_of (run acts s1) r) as [[|o]|]; try (rewrite H; simpl; lia).
  destruct H as [-> | ->]; [simpl; lia | apply expected_arguments_length].
Qed.

Lemma callback_entered_at_most_once_witness :
  chain (OnResolved side_effect) 0 (exec [New (Fulfilled (VInt 1))] empty)
    = Some (1, exec [New (Fulfilled (VInt 1)); Lastly 0 side_effect] empty)
  ∧ invocations 1 (log (run [Step 0; Step 1; Cancel 1; Step 1; Step 1]
        (exec [New (Fulfilled (VInt 1)); Lastly 0 side_effect] empty))) ≤ 1.
Proof.
  split; [reflexivity|].
  apply (callback_entered_at_most_once [New (Fulfilled (VInt 1))]
           (OnResolved side_effect) 0 1 _ [Step 0; Step 1; Cancel 1; Step 1; Step 1]
           eq_refl).
Defined.

(** ** Links on links *)

Lemma never_cancels_app c acts1 acts2 :
  never_cancels c (acts1 ++ acts2) = never_cancels c acts1 && never_cancels c acts2.
Proof. unfold never_cancels. apply forallb_app. Qed.

Lemma never_cancels_steps c q n : never_cancels c (replicate n (Step q)) = true.
Proof. induction n as [|n IH]; [done | exact IH]. Qed.

Lemma arguments_of_diagnostics c diag :
  Forall (λ ev, ∃ q, ev = Diagnostic q) diag → arguments_of c diag = [].
Proof.
  unfold arguments_of. induction 1 as [|ev l [q ->] _ IH]; [done | exact IH].
Qed.

(** Making another promise leaves an undisturbed link undisturbed. *)
Lemma undisturbed_grows c v W s s2 pnew diag :
  undisturbed c v W s →
  v < length (heap s) →
  heap s2 = heap s ++ [pnew] →
  log s2 = log s ++ diag →
  Forall (λ ev, ∃ q, ev = Diagnostic q) diag →
  undisturbed c v W s2.
Proof.
  intros (pc & Hpc & Hmc & Hd & Hrest & Hscope & Hpend & Htot) Hv Hh Hl Hdiag.
  assert (state_of s2 v = state_of s v) as Hsv.
  { unfold state_of. by rewrite Hh, lookup_app_l. }
  assert (arguments_of c (log s2) = arguments_of c (log s)) as Hargs.
  { by rewrite Hl, arguments_of_app, (arguments_of_diagnostics c diag Hdiag), app_nil_r. }
  exists pc. unfold parent_may_be. rewrite Hsv, Hargs. split_and!; try done.
  rewrite Hh. apply lookup_app_l_Some. done.
Qed.

(** Each link at its creation, and the undisturbed run of its wrapper. *)
Lemma chain_undisturbed k r s c s1 :
  wf s →
  chain k r s = Some (c, s1) →
  ∃ k0, r ≠ c
        ∧ undisturbed c r (Await (Shielded r) k0) s1
        ∧ ∀ op, finish op false (Await (Shielded r) k0)
                = (link_result k op, expected_arguments k op)
                ∧ suspensions op false (Await (Shielded r) k0) ≤ 2
                ∧ (hands_back_awaitable k op = false →
                   suspensions op false (Await (Shielded r) k0) ≤ 1).
Proof.
  intros Hs Hk. destruct k as [f|g|h|f]; simpl in Hk.
  - destruct (born_undisturbed (λ x, FulfillmentPromise.__init__ x f) r s c s1 _
                Hs Hk eq_refl eq_refl eq_refl
                (λ q, fulfillment_wrapper_awaits q r f)) as [Hne Hu].
    eexists. split; [done|]. split; [exact Hu|]. intros op.
    destruct (fulfillment_finish f r op) as [Hf Hn].
    split; [etrans; [exact Hf|]; by destruct op|]. split; [exact Hn|].
    unfold hands_back_awaitable. destruct op as [x|e]; simpl; [|lia].
    destruct (f x) as [[y|a]|e]; simpl; (done || lia).
  - destruct (born_undisturbed (λ x, RejectionPromise.__init__ x g) r s c s1 _
                Hs Hk eq_refl eq_refl eq_refl
                (λ q, rejection_wrapper_awaits q r g)) as [Hne Hu].
    eexists. split; [done|]. split; [exact Hu|]. intros op.
    destruct (rejection_finish g r op) as [Hf Hn].
    split; [|split; [exact Hn|]].
    + etrans; [exact Hf|]. destruct op as [x|e]; [done|]. simpl.
      destruct (is_CancelledError e); [done|]. by destruct (isinstance_Exception e).
    + unfold hands_back_awaitable. destruct op as [x|[|n|n]]; simpl; try lia.
      destruct (g (Exception n)) as [[y|a]|e]; simpl; (done || lia).
  - destruct (born_undisturbed (λ x, ResolutionPromise.__init__ x h) r s c s1 _
                Hs Hk eq_refl eq_refl eq_refl
                (λ q, resolution_wrapper_awaits q r h)) as [Hne Hu].
    eexists. split; [done|]. split; [exact Hu|]. intros op.
    destruct (resolution_finish h r op) as [Hf Hn].
    split; [etrans; [exact Hf|]; by destruct op|]. split; [exact Hn|].
    unfold hands_back_awaitable.
    destruct op as [x|e]; simpl; destruct (h tt) as [[y|a]|e']; simpl; (done || lia).
  - destruct (born_undisturbed (λ x, ChainLinkFulfillmentPromise.__init__ x f) r s c s1 _
                Hs Hk eq_refl eq_refl eq_refl
                (λ q, chain_link_wrapper_awaits q r f)) as [Hne Hu].
    eexists. split; [done|]. split; [exact Hu|]. intros op.
    destruct (chain_link_finish f r op) as [Hf Hn].
    split; [etrans; [exact Hf|]; by destruct op|]. split; [exact Hn|].
    unfold hands_back_awaitable. destruct op as [x|e]; simpl; [|lia].
    destruct (f x) as [[y|a]|e]; simpl; (done || lia).
Qed.

Lemma chain_grows k r s c s1 :
  chain k r s = Some (c, s1) →
  ∃ pnew diag, r < length (heap s) ∧ c = length (heap s)
    ∧ heap s1 = heap s ++ [pnew] ∧ log s1 = log s ++ diag
    ∧ Forall (λ ev, ∃ q, ev = Diagnostic q) diag.
Proof.
  intros (pc & p & k0 & Hp & Hc & Hh & Hl & _)%chain_born.
  eexists pc, _. split_and!; try done.
  - by eapply lookup_lt_Some.
  - apply managed_diag.
Qed.

Lemma wf_chain_made k r s c s1 : wf s → chain k r s = Some (c, s1) → wf s1.
Proof.
  intros Hs Hk. destruct k as [f|g|h|f]; simpl in Hk.
  - pose proof (wf_exec1 (Then r f) s Hs) as H. simpl in H. by rewrite Hk in H.
  - pose proof (wf_exec1 (Catch r g) s Hs) as H. simpl in H. by rewrite Hk in H.
  - pose proof (wf_exec1 (Lastly r h) s Hs) as H. simpl in H. by rewrite Hk in H.
  - pose proof (wf_exec1 (ChainLinkThen r f) s Hs) as H. simpl in H. by rewrite Hk in H.
Qed.

(** X3.  A link [c2] chained off a link [c1] chained off [v], by any two
    of [then], [catch] and [lastly], neither link cancelled: once [v] is
    done, two steps of [c1] and two of [c2] finish both, and [c2] treats
    what [c1] ended with as [c1] treats what [v] ended with.  So in
    [v.then(f).catch(g)] a [v] that rejects never reaches [f] and hands its
    error to [g], and a [v] that fulfills reaches [g] only with an
    exception that [f] raised. *)
Theorem chained_links_compose
    (prog : list command) (v : nat) (k1 k2 : handler) (c1 c2 : nat)
    (s1 s2 : world) (acts : list action) (op : outcome) :
  chain k1 v (exec prog empty) = Some (c1, s1) →
  chain k2 c1 s1 = Some (c2, s2) →
  never_cancels c1 acts = true →
  never_cancels c2 acts = true →
  state_of (run acts s2) v = Some (Done op) →
  state_of (run (acts ++ [Step c1; Step c1; Step c2; Step c2]) s2) c2
    = Some (Done (link_result k2 (link_result k1 op)))
  ∧ arguments_of c1 (log (run (acts ++ [Step c1; Step c1; Step c2; Step c2]) s2))
    = expected_arguments k1 op
  ∧ arguments_of c2 (log (run (acts ++ [Step c1; Step c1; Step c2; Step c2]) s2))
    = expected_arguments k2 (link_result k1 op).
Proof.
  intros Hk1 Hk2 Hn1 Hn2 Hv.
  pose proof (wf_program prog) as Hs.
  pose proof (wf_chain_made _ _ _ _ _ Hs Hk1) as Hs1.
  destruct (chain_undisturbed k1 v _ c1 s1 Hs Hk1) as (k01 & Hne1 & Hu1 & Hf1).
  destruct (chain_undisturbed k2 c1 _ c2 s2 Hs1 Hk2) as (k02 & Hne2 & Hu2 & Hf2).
  destruct (chain_grows _ _ _ _ _ Hk1) as (p1 & d1 & Hv1 & Hc1 & Hh1 & _).
  destruct (chain_grows _ _ _ _ _ Hk2) as (p2 & d2 & _ & Hc2 & Hh2 & Hl2 & Hd2).
  assert (undisturbed c1 v (Await (Shielded v) k01) s2) as Hu1'.
  { eapply undisturbed_grows; [exact Hu1 | | exact Hh2 | exact Hl2 | exact Hd2].
    rewrite Hh1, length_app. simpl. lia. }
  change [Step c1; Step c1; Step c2; Step c2]
    with (replicate 2 (Step c1) ++ replicate 2 (Step c2)).
  rewrite app_assoc, (run_app (acts ++ _)), (run_app acts).
  (* the first link *)
  apply (undisturbed_run c1 v k01 Hne1 _ eq_refl acts) in Hu1'; [|done].
  destruct (Hf1 op) as (Hfin1 & Hsus1 & _).
  destruct (undisturbed_settles c1 v k01 Hne1 _ eq_refl _ op 2 Hu1' Hv Hsus1)
    as [Hst1 Hargs1].
  rewrite Hfin1 in Hst1, Hargs1. simpl in Hst1, Hargs1.
  (* the second link *)
  apply (undisturbed_run c2 c1 k02 Hne2 _ eq_refl (acts ++ replicate 2 (Step c1)))
    in Hu2; [|by rewrite never_cancels_app, Hn2, never_cancels_steps].
  rewrite run_app in Hu2.
  destruct (Hf2 (link_result k1 op)) as (Hfin2 & Hsus2 & _).
  destruct (undisturbed_settles c2 c1 k02 Hne2 _ eq_refl _ _ 2 Hu2 Hst1 Hsus2)
    as [Hst2 Hargs2].
  rewrite Hfin2 in Hst2, Hargs2. simpl in Hst2, Hargs2.
  split_and!; [done | | done].
  by rewrite (done_quiet_run _ _ _ _ Hst1).
Qed.

Lemma chained_links_compose_witness :
  chain (OnFulfilled plus_one) 0 (exec [New (Raised (Exception "E"))] empty)
    = Some (1, exec [New (Raised (Exception "E")); Then 0 plus_one] empty)
  ∧ chain (OnRejected recovered) 1
          (exec [New (Raised (Exception "E")); Then 0 plus_one] empty)
    = Some (2, exec [New (Raised (Exception "E")); Then 0 plus_one;
                     Catch 1 recovered] empty)
  ∧ state_of (run ([Step 0] ++ [Step 1; Step 1; Step 2; Step 2])
                  (exec [New (Raised (Exception "E")); Then 0 plus_one;
                         Catch 1 recovered] empty)) 2
    = Some (Done (Fulfilled (VStr "recovered")))
  ∧ arguments_of 1 (log (run ([Step 0] ++ [Step 1; Step 1; Step 2; Step 2])
                  (exec [New (Raised (Exception "E")); Then 0 plus_one;
                         Catch 1 recovered] empty))) = []
  ∧ arguments_of 2 (log (run ([Step 0] ++ [Step 1; Step 1; Step 2; Step 2])
                  (exec [New (Raised (Exception "E")); Then 0 plus_one;
                         Catch 1 recovered] empty))) = [ArgExn (Exception "E")].
Proof.
  split; [reflexivity|]. split; [reflexivity|].
  apply (chained_links_compose [New (Raised (Exception "E"))] 0
           (OnFulfilled plus_one) (OnRejected recovered) 1 2 _ _ [Step 0]
           (Raised (Exception "E")) eq_refl eq_refl eq_refl eq_refl eq_refl).
Defined.

(** ** Fan-out *)

Section FanOut.
Context (c : nat).
Implicit Types (a : action) (sA sB : world).

Lemma agree_off_refl s :
  (∀ q pq, heap s !! q = Some pq → ¬ may_await c (_fut pq)) → agree_off c s s.
Proof. intros H. by split_and!. Qed.

(** An action on [c] on one side only. *)
Lemma agree_off_left a sA sB :
  target a = c → agree_off c sA sB → agree_off c (act a sA) sB.
Proof.
  intros Hta (Hlen & Hheap & Hlog & Hno). split_and!.
  - by rewrite act_length.
  - intros q Hq. rewrite act_other by congruence. by apply Hheap.
  - intros q Hq. rewrite act_arguments_other by congruence. by apply Hlog.
  - done.
Qed.

Lemma agree_off_right a sA sB :
  target a = c → agree_off c sA sB → agree_off c sA (act a sB).
Proof.
  intros Hta (Hlen & Hheap & Hlog & Hno). split_and!.
  - by rewrite act_length.
  - intros q Hq. rewrite act_other by congruence. by apply Hheap.
  - intros q Hq. rewrite act_arguments_other by congruence. by apply Hlog.
  - intros q pq (p0 & Hp0 & [->|[-> ->]])%act_lookup; [by eapply Hno|].
    intros H%local_may_await. by eapply Hno.
Qed.

(** The same action, on another promise, on both sides. *)
Lemma agree_off_both a sA sB :
  target a ≠ c → agree_off c sA sB → agree_off c (act a sA) (act a sB).
Proof.
  intros Hta (Hlen & Hheap & Hlog & Hno).
  pose proof (Hheap (target a) Hta) as Ht.
  destruct (heap sB !! target a) as [p|] eqn:Hp; cycle 1.
  { rewrite (act_missing a sA Ht), (act_missing a sB Hp). by split_and!. }
  assert (local a (heap sA) p = local a (heap sB) p) as Hloc.
  { apply local_heap. intros q Hq. apply Hheap. intros ->. by eapply Hno. }
  destruct (act_here a sA p Ht) as [HhA HlA].
  destruct (act_here a sB p Hp) as [HhB HlB].
  split_and!.
  - by rewrite !act_length.
  - intros q Hq. destruct (decide (q = target a)) as [->|Hne].
    + by rewrite HhA, HhB, Hloc.
    + rewrite !act_other by done. by apply Hheap.
  - intros q Hq. by rewrite HlA, HlB, Hloc, !arguments_of_app, Hlog.
  - intros q pq (p0 & Hp0 & [->|[-> ->]])%act_lookup; [by eapply Hno|].
    intros H%local_may_await. by eapply Hno.
Qed.

Lemma agree_off_run acts sA sB :
  agree_off c sA sB → agree_off c (run acts sA) (run (drop_cancels c acts) sB).
Proof.
  revert sA sB. induction acts as [|a acts IH]; intros sA sB H; simpl; [done|].
  destruct (cancels c a) eqn:Hca; simpl.
  - apply IH, agree_off_left; [|done].
    destruct a as [q|q|q|q]; simpl in *; try done; by apply Nat.eqb_eq.
  - apply IH. destruct (decide (target a = c)) as [Hta|Hta].
    + by apply agree_off_left, agree_off_right.
    + by apply agree_off_both.
Qed.

End FanOut.

(** X4.  Two links [c1] and [c2] derived from the same parent [r], and
    a [cancel()] on [c1], by the method or by leaving its scope, that
    reaches it before its callback has been entered, in any interleaving
    before and after, further [cancel()] calls on [c1] among them: the
    callback of [c1] is never entered, and the sibling [c2] and the parent
    go through the states, and their callbacks are entered with the
    arguments, of the interleaving with the [cancel()] calls on [c1] left
    out.  What a link cancelled behind its shield gives up is its own
    wait, and nothing of the parent's or of the sibling's. *)
Theorem cancelled_branch_spares_siblings
    (prog : list command) (r : nat) (k1 k2 : handler) (c1 c2 : nat)
    (s1 s2 : world) (pre : list action) (a : action) (post : list action)
    (q : nat) :
  chain k1 r (exec prog empty) = Some (c1, s1) →
  chain k2 r s1 = Some (c2, s2) →
  cancels c1 a = true →
  arguments_of c1 (log (run pre s2)) = [] →
  q = r ∨ q = c2 →
  arguments_of c1 (log (run (pre ++ a :: post) s2)) = []
  ∧ state_of (run (pre ++ a :: post) s2) q
    = state_of (run (drop_cancels c1 (pre ++ a :: post)) s2) q
  ∧ arguments_of q (log (run (pre ++ a :: post) s2))
    = arguments_of q (log (run (drop_cancels c1 (pre ++ a :: post)) s2)).
Proof.
  intros Hk1 Hk2 Ha Hargs Hq.
  pose proof (wf_program prog) as Hs.
  pose proof (wf_chain_made _ _ _ _ _ Hs Hk1) as Hs1.
  pose proof (wf_chain_made _ _ _ _ _ Hs1 Hk2) as Hs2.
  destruct (chain_undisturbed k2 r _ c2 s2 Hs1 Hk2)
    as (k02 & _ & (pc & Hpc & _ & _ & _ & Hscope & _) & _).
  destruct (chain_grows _ _ _ _ _ Hk1) as (p1 & d1 & Hr1 & Hc1 & Hh1 & _).
  destruct (chain_grows _ _ _ _ _ Hk2) as (p2 & d2 & _ & Hc2 & Hh2 & Hl2 & Hd2).
  split.
  { destruct (chain_waiting_or_spent k1 r _ c1 s1 Hs Hk1) as (X & k0 & Hres & Hqu & Hw).
    apply (waiting_or_spent_cancelled c1 r X k0 Hres Hqu a pre post s2); try done.
    by eapply waiting_or_spent_grows. }
  assert (q ≠ c1) as Hne.
  { rewrite Hh1, length_app in Hc2. simpl in Hc2. destruct Hq as [->| ->]; lia. }
  destruct (agree_off_run c1 (pre ++ a :: post) s2 s2) as (_ & Hheap & Hlog & _).
  { apply agree_off_refl. intros p pp Hp Haw.
    pose proof (wf_parent s2 Hs2 p pp c1 Hp Haw) as Hlt.
    pose proof (lookup_lt_Some _ _ _ Hp) as Hlen.
    rewrite Hh2, length_app in Hlen. simpl in Hlen.
    rewrite Hh1, length_app in Hlen, Hc2. simpl in Hlen, Hc2.
    assert (p = c2) as -> by lia.
    assert (pp = pc) as -> by congruence.
    apply Hscope in Haw. lia. }
  split; [|by apply Hlog]. unfold state_of. by rewrite Hheap.
Qed.

Lemma cancelled_branch_spares_siblings_witness :
  chain (OnFulfilled plus_one) 0 (exec [New (Fulfilled (VInt 5))] empty)
    = Some (1, exec [New (Fulfilled (VInt 5)); Then 0 plus_one] empty)
  ∧ chain (OnFulfilled times_two) 0
          (exec [New (Fulfilled (VInt 5)); Then 0 plus_one] empty)
    = Some (2, exec [New (Fulfilled (VInt 5)); Then 0 plus_one; Then 0 times_two] empty)
  ∧ arguments_of 1 (log (run [Step 1; Step 2]
        (exec [New (Fulfilled (VInt 5)); Then 0 plus_one; Then 0 times_two] empty)))
    = []
  ∧ arguments_of 1 (log (run ([Step 1; Step 2] ++ Cancel 1 :: [Step 0; Step 1; Step 2])
        (exec [New (Fulfilled (VInt 5)); Then 0 plus_one; Then 0 times_two] empty)))
    = []
  ∧ state_of (run ([Step 1; Step 2] ++ Cancel 1 :: [Step 0; Step 1; Step 2])
                  (exec [New (Fulfilled (VInt 5)); Then 0 plus_one;
                         Then 0 times_two] empty)) 2
    = state_of (run (drop_cancels 1
                       ([Step 1; Step 2] ++ Cancel 1 :: [Step 0; Step 1; Step 2]))
                  (exec [New (Fulfilled (VInt 5)); Then 0 plus_one;
                         Then 0 times_two] empty)) 2
  ∧ arguments_of 2 (log (run ([Step 1; Step 2] ++ Cancel 1 :: [Step 0; Step 1; Step 2])
        (exec [New (Fulfilled (VInt 5)); Then 0 plus_one; Then 0 times_two] empty)))
    = arguments_of 2 (log (run (drop_cancels 1
                       ([Step 1; Step 2] ++ Cancel 1 :: [Step 0; Step 1; Step 2]))
        (exec [New (Fulfilled (VInt 5)); Then 0 plus_one; Then 0 times_two] empty))).
Proof.
  split; [reflexivity|]. split; [reflexivity|]. split; [reflexivity|].
  apply (cancelled_branch_spares_siblings [New (Fulfilled (VInt 5))] 0
           (OnFulfilled plus_one) (OnFulfilled times_two) 1 2 _ _
           [Step 1; Step 2] (Cancel 1) [Step 0; Step 1; Step 2] 2
           eq_refl eq_refl eq_refl eq_refl).
  by right.
Defined.

(** ** Scopes *)

Lemma run_managed acts s p pp :
  heap s !! p = Some pp → _is_managed pp = true →
  ∃ pp', heap (run acts s) !! p = Some pp' ∧ _is_managed pp' = true.
Proof.
  revert s pp. induction acts as [|a acts IH]; intros s pp Hp Hm; simpl.
  - by exists pp.
  - destruct (decide (p = target a)) as [->|Hne].
    + destruct (act_here a s pp Hp) as [Hh _].
      eapply IH; [exact Hh|].
      destruct (local_attributes a (heap s) pp) as (_ & Hman & _). by apply Hman.
    + eapply IH; [|exact Hm]. by rewrite act_other.
Qed.

Lemma chain_managed k self s pp :
  heap s !! self = Some pp → _is_managed pp = true →
  ∃ c s1, chain k self s = Some (c, s1) ∧ log s1 = log s.
Proof.
  intros Hp Hm.
  assert (_assert_management self s = Some s) as Ha.
  { unfold _assert_management. rewrite Hp. simpl. by rewrite Hm. }
  destruct k as [f|g|h|f]; simpl;
    unfold then_, catch, lastly, chain_link_then; rewrite Ha; simpl;
    by eexists _, _.
Qed.

(** X5.  Once a promise has been entered as a context manager, chaining
    off it with [then], [catch] or [lastly] reports nothing to the loop's
    exception handler, whatever task steps and method calls have happened
    since, leaving the scope among them: nothing sets [_is_managed] back. *)
Theorem entered_promise_chains_silently
    (prog : list command) (self : nat) (k : handler) (p : promise)
    (acts : list action) :
  heap (exec prog empty) !! self = Some p →
  ∃ c s1,
    chain k self (run (Enter self :: acts) (exec prog empty)) = Some (c, s1)
    ∧ log s1 = log (run (Enter self :: acts) (exec prog empty)).
Proof.
  intros Hp. simpl.
  destruct (act_here (Enter self) _ p Hp) as [Hh _]. simpl in Hh.
  destruct (run_managed acts _ self _ Hh eq_refl) as (pp & Hpp & Hm).
  by eapply chain_managed.
Qed.

Lemma entered_promise_chains_silently_witness :
  heap (exec [New (Fulfilled (VInt 5))] empty) !! 0
    = Some (Promise.__init__ PromiseC (await (Foreign (Fulfilled (VInt 5)))))
  ∧ ∃ c s1,
      chain (OnFulfilled plus_one) 0
            (run (Enter 0 :: [Exit 0; Step 0]) (exec [New (Fulfilled (VInt 5))] empty))
      = Some (c, s1)
      ∧ log s1 = log (run (Enter 0 :: [Exit 0; Step 0])
                          (exec [New (Fulfilled (VInt 5))] empty)).
Proof.
  split; [reflexivity|].
  apply (entered_promise_chains_silently [New (Fulfilled (VInt 5))] 0
           (OnFulfilled plus_one) _ [Exit 0; Step 0] eq_refl).
Defined.

Section Yielding.
Implicit Types (a : action) (s : world) (p : promise).

Lemma advance_yields self res c p :
  yields res c → yields res (_fut (advance self c p).1).
Proof.
  revert p. induction c as [x|e|w k _|x k IH|k IH|b k IH]; intros p; simpl;
    [done | done | done | apply IH | | apply IH].
  intros H. apply IH, H.
Qed.

Lemma task_step_yields self h p res :
  yields res (_fut p) → yields res (_fut (task_step self h p).1).
Proof.
  destruct p as [X m d wt mc st fut]. unfold task_step. simpl.
  destruct fut as [x|e|w k| | |]; try done. intros [Hq Hk].
  destruct mc.
  - destruct st; [|done]. apply advance_yields, Hk.
  - destruct (poll h w) as [o|]; [|done]. apply advance_yields, Hk.
Qed.

Lemma local_yields a h p res :
  yields res (_fut p) → yields res (_fut (local a h p).1).
Proof.
  destruct a as [self|self|self|self]; simpl.
  - apply task_step_yields.
  - by destruct (cancel_method_attributes p) as (_ & _ & _ & _ & ->).
  - done.
  - by destruct (cancel_method_attributes p) as (_ & _ & _ & _ & ->).
Qed.

Lemma yielding_act a s : yielding s → yielding (act a s).
Proof.
  intros Hs q pq (p0 & Hp0 & [->|[-> ->]])%act_lookup Hc; [by eapply Hs|].
  destruct (local_attributes a (heap s) p0) as (Hcls & _).
  rewrite Hcls in Hc |- *. apply local_yields. by eapply Hs.
Qed.

Lemma yielding_new p s :
  yielding s →
  (cls p ≠ ChainLinkFulfillmentC → yields (is_resolution (cls p)) (_fut p)) →
  yielding (new p s).2.
Proof.
  intros Hs Hp q pq [Hq|[Hq Hx]]%lookup_app_Some Hc; [by eapply Hs|].
  apply list_lookup_singleton_Some in Hx as [_ ->]. by apply Hp.
Qed.

Lemma yields_callback res (arg : argument) (cb : call) :
  yields res (r <- invoke arg cb ;; resolve_awaitable r).
Proof.
  destruct cb as [[y|o]|e]; simpl; try done.
  split; [done|]. by intros [].
Qed.

Lemma yields_fulfillment f v : yields false (FulfillmentPromise._wrapper f (Shielded v)).
Proof.
  split; [done|]. intros [x|e]; [|done]. apply (yields_callback false).
Qed.

Lemma yields_rejection g v : yields false (RejectionPromise._wrapper g (Shielded v)).
Proof.
  split; [done|]. intros [x|[|n|n]]; try done. apply (yields_callback false).
Qed.

Lemma yields_resolution h v : yields true (ResolutionPromise._wrapper h (Shielded v)).
Proof.
  split; [by intros d ->|].
  assert (∀ (B : Type) (kB : unit → coro value) b,
            (∀ u, yields true (kB u)) →
            yields true
              ((if negb b
                then r <- invoke NoArg (h tt) ;; resolve_awaitable r ;;; Ret tt
                else Ret tt) ;;; kB tt)) as Hfin.
  { intros _ kB [|] HkB; simpl; [apply HkB|].
    destruct (h tt) as [[y|a]|e]; simpl; [apply HkB | | done].
    split; [done|]. intros [x|e]; simpl; [apply HkB | done]. }
  intros [x|e]; simpl; intros b.
  - apply (Hfin unit (λ _, Ret x)). done.
  - apply (Hfin unit (λ _, Throw e)). done.
Qed.

Lemma yielding_exec1 c s : yielding s → yielding (exec1 c s).
Proof.
  intros Hs. destruct c as [a|o|self f|self g|self h|self f]; simpl.
  - by apply yielding_act.
  - apply yielding_new; [done|]. intros _. simpl. split; [done|]. by intros [].
  - unfold then_. destruct (_assert_management self s) as [s'|] eqn:Ha; simpl; [|done].
    apply assert_management_spec in Ha as (p & _ & Hh & _).
    apply yielding_new; [intros q pq; rewrite Hh; apply Hs|].
    intros _. apply yields_fulfillment.
  - unfold catch. destruct (_assert_management self s) as [s'|] eqn:Ha; simpl; [|done].
    apply assert_management_spec in Ha as (p & _ & Hh & _).
    apply yielding_new; [intros q pq; rewrite Hh; apply Hs|].
    intros _. apply yields_rejection.
  - unfold lastly. destruct (_assert_management self s) as [s'|] eqn:Ha; simpl; [|done].
    apply assert_management_spec in Ha as (p & _ & Hh & _).
    apply yielding_new; [intros q pq; rewrite Hh; apply Hs|].
    intros _. apply yields_resolution.
  - unfold chain_link_then.
    destruct (_assert_management self s) as [s'|] eqn:Ha; simpl; [|done].
    apply assert_management_spec in Ha as (p & _ & Hh & _).
    apply yielding_new; [intros q pq; rewrite Hh; apply Hs|]. done.
Qed.

Lemma yielding_program cs : yielding (exec cs empty).
Proof.
  assert (∀ s, yielding s → yielding (exec cs s)) as H.
  { induction cs as [|c cs IH]; intros s Hs; simpl; [done|].
    by apply IH, yielding_exec1. }
  apply H. intros q pq Hq. done.
Qed.

Lemma cancel_method_pending p :
  done p = None → cls p ≠ ChainLinkFulfillmentC →
  must_cancel (cancel_method p).1 = true
  ∧ (cls p = ResolutionC → _direct_cancellation (cancel_method p).1 = true)
  ∧ (cls p ≠ ResolutionC →
     _direct_cancellation (cancel_method p).1 = _direct_cancellation p).
Proof.
  destruct p as [X m d wt mc st fut]. unfold done. simpl. intros Hd HX.
  destruct X, fut; simpl in *; done.
Qed.

End Yielding.

(** X6.  Leaving the scope of a promise of promise.py, a root or a link,
    that is pending and whose task has not started or waits behind the
    shield of its parent, cancels it: at its next step it ends as
    cancelled, and no callback is entered on the way, the finalizer of a
    [lastly] link included.  Leaving the scope of a promise that is done
    leaves it as it is.  (A task suspended on anything else hands the
    cancellation on to what it waits for, which may answer it as it
    likes.) *)
Theorem leaving_scope_cancels
    (prog : list command) (p : nat) (pp : promise) :
  heap (exec prog empty) !! p = Some pp →
  cls pp ≠ ChainLinkFulfillmentC →
  (state pp = Pending →
   started pp = false ∨ ∃ v k, _fut pp = Await (Shielded v) k) →
  state_of (run [Exit p; Step p] (exec prog empty)) p
    = Some (match state pp with Pending => Done Cancelled | Done o => Done o end)
  ∧ arguments_of p (log (run [Exit p; Step p] (exec prog empty)))
    = arguments_of p (log (exec prog empty)).
Proof.
  intros Hp HX Hwait. set (s := exec prog empty) in *.
  pose proof (wf_at_rest s (wf_program prog) p pp Hp) as Hrest.
  pose proof (yielding_program prog p pp Hp HX) as Hy.
  destruct (state pp) as [|o] eqn:Hst.
  - apply state_Pending in Hst.
    destruct (cancel_method_pending pp Hst HX) as (Hmc & Hres & Hkeep).
    destruct (cancel_method_attributes pp) as (_ & _ & Hstarted & _ & Hfut).
    simpl.
    destruct (act_here (Exit p) s pp Hp) as [Hh1 Hl1]. simpl in Hh1, Hl1.
    destruct (act_here (Step p) _ _ Hh1) as [Hh2 Hl2]. simpl in Hh2, Hl2.
    unfold state_of. rewrite Hh2, Hl2, Hl1, app_nil_r. simpl.
    unfold task_step. rewrite Hfut, Hmc, Hstarted.
    destruct (Hwait eq_refl) as [Hunstarted|(v & k & Hshield)].
    + rewrite Hunstarted. unfold done in Hst.
      destruct (_fut pp) as [x|e|w k| | |]; try done.
      simpl. by rewrite app_nil_r.
    + rewrite Hshield in Hy |- *. destruct Hy as [Hq _].
      destruct (started pp).
      * destruct (advance_cancels_quietly p (k Cancelled)
                    (set_must_cancel false (cancel_method pp).1)) as [Hev Hf].
        { apply Hq. simpl. intros HR.
          apply Hres. by destruct (cls pp). }
        rewrite Hev, app_nil_r. split; [|done].
        unfold state, done. by rewrite Hf.
      * simpl. by rewrite app_nil_r.
  - assert (state_of s p = Some (Done o)) as Hd
      by (unfold state_of; by rewrite Hp; simpl; rewrite Hst).
    split.
    + by apply run_done_stable.
    + by eapply done_quiet_run.
Qed.

Lemma leaving_scope_cancels_witness :
  heap (exec [New (Fulfilled (VInt 5)); Lastly 0 side_effect;
              Act (Enter 1); Act (Step 1)] empty) !! 1
    = Some (MkPromise ResolutionC true false false false true
              (ResolutionPromise._wrapper side_effect (Shielded 0)))
  ∧ state_of (run [Exit 1; Step 1]
       (exec [New (Fulfilled (VInt 5)); Lastly 0 side_effect;
              Act (Enter 1); Act (Step 1)] empty)) 1
    = Some (Done Cancelled)
  ∧ arguments_of 1 (log (run [Exit 1; Step 1]
       (exec [New (Fulfilled (VInt 5)); Lastly 0 side_effect;
              Act (Enter 1); Act (Step 1)] empty)))
    = [].
Proof.
  split; [reflexivity|].
  apply (leaving_scope_cancels
           [New (Fulfilled (VInt 5)); Lastly 0 side_effect;
            Act (Enter 1); Act (Step 1)] 1 _ eq_refl).
  - done.
  - intros _. right. by eexists _, _.
Defined.

(** ** Callbacks that hand back a plain value *)

(** X7.  A link that is not cancelled, on a parent that is done: when the
    callback is not entered, or returns a plain value or raises, one step
    of the link finishes it, since [resolve_awaitable] waits only for an
    awaitable. *)
Theorem plain_result_is_not_awaited
    (prog : list command) (r : nat) (k : handler) (c : nat) (s1 : world)
    (acts : list action) (op : outcome) :
  chain k r (exec prog empty) = Some (c, s1) →
  never_cancels c acts = true →
  state_of (run acts s1) r = Some (Done op) →
  hands_back_awaitable k op = false →
  state_of (run (acts ++ [Step c]) s1) c = Some (Done (link_result k op))
  ∧ arguments_of c (log (run (acts ++ [Step c]) s1)) = expected_arguments k op.
Proof.
  intros Hk Hn Hv Hplain.
  destruct (chain_undisturbed k r _ c s1 (wf_program prog) Hk) as (k0 & Hne & Hu & Hf).
  destruct (Hf op) as (Hfin & _ & Hsus). specialize (Hsus Hplain).
  apply (undisturbed_run c r k0 Hne _ eq_refl acts) in Hu; [|done].
  rewrite run_app.
  destruct (undisturbed_settles c r k0 Hne _ eq_refl _ op 1 Hu Hv Hsus) as [Hst Hargs].
  rewrite Hfin in Hst, Hargs. done.
Qed.

Lemma plain_result_is_not_awaited_witness :
  chain (OnFulfilled plus_one) 0 (exec [New (Fulfilled (VInt 5))] empty)
    = Some (1, exec [New (Fulfilled (VInt 5)); Then 0 plus_one] empty)
  ∧ state_of (run ([Step 1; Step 0] ++ [Step 1])
                  (exec [New (Fulfilled (VInt 5)); Then 0 plus_one] empty)) 1
    = Some (Done (Fulfilled (VInt 6)))
  ∧ arguments_of 1 (log (run ([Step 1; Step 0] ++ [Step 1])
                  (exec [New (Fulfilled (VInt 5)); Then 0 plus_one] empty)))
    = [ArgValue (VInt 5)].
Proof.
  split; [reflexivity|].
  apply (plain_result_is_not_awaited [New (Fulfilled (VInt 5))] 0
           (OnFulfilled plus_one) 1 _ [Step 1; Step 0] (Fulfilled (VInt 5))
           eq_refl eq_refl eq_refl eq_refl).
Defined.

(** ** The latch of chain_link/fulfillment.py *)

Section Window.
Context (c v : nat) (f : value → call).
Implicit Types (a : action) (s : world).

Lemma latched_act a s x : latched c v f x s → latched c v f x (act a s).
Proof.
  intros (Hv & Hargs & pc & Hpc & HX & Hw & Hmc & Hfut).
  split; [by apply act_done_stable|].
  destruct (decide (target a = c)) as [Hta|Hta]; last first.
  { rewrite act_arguments_other by done. split; [done|].
    exists pc. rewrite act_other by done. done. }
  assert (heap s !! target a = Some pc) as Hpc' by (by rewrite Hta).
  destruct (act_here a s pc Hpc') as [Hh Hl]. rewrite Hta in Hh.
  rewrite Hl, arguments_of_app, Hargs.
  assert ((local a (heap s) pc).2 = []
         ∧ cls (local a (heap s) pc).1 = ChainLinkFulfillmentC
         ∧ _waiting_chain_result (local a (heap s) pc).1 = false
         ∧ must_cancel (local a (heap s) pc).1 = false
         ∧ (_fut (local a (heap s) pc).1 = resume_with (settled (f x))
            ∨ ∃ o, f x = Returns (Awaitable o)
                   ∧ _fut (local a (heap s) pc).1 = await (Foreign o))) as H.
  { destruct pc as [X m d w mc st fut]. simpl in HX, Hw, Hmc, Hfut. subst X w mc.
    destruct a as [self|self|self|self]; simpl.
    - unfold task_step. simpl. destruct Hfut as [->|(o & Hfx & ->)].
      + by destruct (settled (f x)); split_and!; try done; left.
      + simpl. rewrite Hfx. simpl. by destruct o; split_and!; try done; left.
    - by split_and!.
    - by split_and!.
    - by split_and!. }
  destruct H as (Hev & H). rewrite Hev. simpl. split; [done|].
  eexists. split; [exact Hh | exact H].
Qed.

Lemma latched_run acts s x : latched c v f x s → latched c v f x (run acts s).
Proof.
  revert s. induction acts as [|a acts IH]; intros s Hs; simpl; [done|].
  by apply IH, latched_act.
Qed.

Lemma latched_settles s x :
  latched c v f x s →
  state_of (act (Step c) s) c = Some (Done (settled (f x))).
Proof.
  intros (_ & _ & pc & Hpc & _ & _ & Hmc & Hfut).
  destruct (act_here (Step c) s pc Hpc) as [Hh _]. simpl in Hh.
  unfold state_of. rewrite Hh. simpl. f_equal.
  destruct pc as [X m d w mc st fut]. simpl in Hmc, Hfut. subst mc.
  unfold task_step. simpl. destruct Hfut as [->|(o & Hfx & ->)].
  - by destruct (settled (f x)).
  - simpl. rewrite Hfx. simpl. by destruct o.
Qed.

Lemma latched_refuses s x : latched c v f x s → cancel_accepted c s = false.
Proof.
  intros (_ & _ & pc & Hpc & HX & Hw & _).
  unfold cancel_accepted, cancel_method, ChainLinkPromise.cancel.
  by rewrite Hpc, HX, Hw.
Qed.

Lemma window_act a s : window c v f s → window c v f (act a s).
Proof.
  intros [(Hargs & pc & Hpc & HX & Hfut)|[x Hx]]; [|right; exists x; by apply latched_act].
  destruct (decide (target a = c)) as [Hta|Hta]; last first.
  { left. rewrite act_arguments_other by done. split; [done|].
    exists pc. rewrite act_other by done. done. }
  assert (heap s !! target a = Some pc) as Hpc' by (by rewrite Hta).
  destruct (act_here a s pc Hpc') as [Hh Hl]. rewrite Hta in Hh. clear Hpc'.
  destruct a as [self|self|self|self]; simpl in Hta, Hh, Hl; subst self.
  - (* a step of the link *)
    destruct Hfut as [Hfut|[e Hfut]]; last first.
    { left. rewrite (task_step_done c (heap s) pc (Raised e)) in Hh, Hl
        by (unfold done; by rewrite Hfut).
      simpl in Hh, Hl. rewrite Hl, app_nil_r. split; [done|].
      exists pc. split_and!; [done | done | right; by exists e]. }
    destruct pc as [X m d w mc st fut]. simpl in HX, Hfut. subst X fut.
    unfold task_step in Hh, Hl. simpl in Hh, Hl. destruct mc.
    + left. destruct st; simpl in Hh, Hl; rewrite Hl, app_nil_r; (split; [done|]);
        eexists; (split; [exact Hh|]); (split; [done|]); right; by eexists.
    + destruct (heap s !! v) as [pv|] eqn:Hpv; simpl in Hh, Hl; last first.
      { left. rewrite Hl, app_nil_r. split; [done|].
        eexists. split; [exact Hh|]. split; [done|]. by left. }
      destruct (done pv) as [[x|e]|] eqn:Hdv; simpl in Hh, Hl.
      * right. exists x. split.
        { apply act_done_stable. unfold state_of. rewrite Hpv. simpl.
          f_equal. by apply state_Done. }
        destruct (f x) as [[y|o]|e] eqn:Hfx; simpl in Hh, Hl;
          (split; [by rewrite Hl, arguments_of_app, Hargs, arguments_of_one|]);
          eexists; (split; [exact Hh|]); split_and!; try done;
          [by left | right; by exists o | by left].
      * left. rewrite Hl, app_nil_r. split; [done|].
        eexists. split; [exact Hh|]. split; [done|]. right. by eexists.
      * left. rewrite Hl, app_nil_r. split; [done|].
        eexists. split; [exact Hh|]. split; [done|]. by left.
  - left. rewrite Hl, app_nil_r. split; [done|].
    destruct (cancel_method_attributes pc) as (HX' & _ & _ & _ & Hfut').
    eexists. split; [exact Hh|]. by rewrite HX', Hfut'.
  - left. rewrite Hl, app_nil_r. split; [done|].
    eexists. split; [exact Hh|]. done.
  - left. rewrite Hl, app_nil_r. split; [done|].
    destruct (cancel_method_attributes pc) as (HX' & _ & _ & _ & Hfut').
    eexists. split; [exact Hh|]. by rewrite HX', Hfut'.
Qed.

Lemma window_run acts s : window c v f s → window c v f (run acts s).
Proof.
  revert s. induction acts as [|a acts IH]; intros s Hs; simpl; [done|].
  by apply IH, window_act.
Qed.

End Window.

Lemma born_window r f s c s1 :
  wf s →
  chain (OnFulfilledChainLink f) r s = Some (c, s1) →
  window c r f s1.
Proof.
  intros Hs Hk. simpl in Hk.
  apply (chain_spec (λ x, ChainLinkFulfillmentPromise.__init__ x f)) in Hk
    as (p & Hp & Hc & Hlt & Hh & Hl).
  left. split.
  - by eapply born_arguments, managed_diag.
  - eexists. split; [by eapply born_lookup|]. split; [done | by left].
Qed.

(** X8.  The link of chain_link/fulfillment.py, in any interleaving of
    steps, [cancel()] calls and scope entries and exits: once its callback
    has been entered, the parent had fulfilled, [cancel()] on the link is
    turned down, and whatever is done next, [cancel()] on the link
    included, the link ends at its next step with what the callback
    settled to, the callback having been entered that one time. *)
Theorem entered_chain_link_runs_to_completion
    (prog : list command) (r : nat) (f : value → call) (c : nat) (s1 : world)
    (acts : list action) :
  chain (OnFulfilledChainLink f) r (exec prog empty) = Some (c, s1) →
  arguments_of c (log (run acts s1)) ≠ [] →
  ∃ x, state_of (run acts s1) r = Some (Done (Fulfilled x))
       ∧ cancel_accepted c (run acts s1) = false
       ∧ ∀ more,
           state_of (run (acts ++ more ++ [Step c]) s1) c
             = Some (Done (settled (f x)))
           ∧ arguments_of c (log (run (acts ++ more ++ [Step c]) s1))
             = [ArgValue x].
Proof.
  intros Hk Hargs.
  pose proof (born_window r f _ c s1 (wf_program prog) Hk) as Hw.
  apply (window_run c r f acts) in Hw.
  destruct Hw as [[Hnone _]|[x Hx]]; [done|].
  exists x. split; [apply Hx|]. split; [by eapply latched_refuses|].
  intros more. rewrite !run_app.
  apply (latched_run c r f more) in Hx.
  split; [by eapply latched_settles|].
  by destruct (latched_act c r f (Step c) _ x Hx) as (_ & ? & _).
Qed.

Lemma entered_chain_link_runs_to_completion_witness :
  chain (OnFulfilledChainLink slow_plus_one) 0 (exec [New (Fulfilled (VInt 5))] empty)
    = Some (1, exec [New (Fulfilled (VInt 5)); ChainLinkThen 0 slow_plus_one] empty)
  ∧ arguments_of 1 (log (run [Step 0; Step 1]
        (exec [New (Fulfilled (VInt 5)); ChainLinkThen 0 slow_plus_one] empty)))
    = [ArgValue (VInt 5)]
  ∧ ∃ x, state_of (run [Step 0; Step 1]
        (exec [New (Fulfilled (VInt 5)); ChainLinkThen 0 slow_plus_one] empty)) 0
         = Some (Done (Fulfilled x))
       ∧ cancel_accepted 1 (run [Step 0; Step 1]
        (exec [New (Fulfilled (VInt 5)); ChainLinkThen 0 slow_plus_one] empty)) = false
       ∧ ∀ more,
           state_of (run ([Step 0; Step 1] ++ more ++ [Step 1])
             (exec [New (Fulfilled (VInt 5)); ChainLinkThen 0 slow_plus_one] empty)) 1
             = Some (Done (settled (slow_plus_one x)))
           ∧ arguments_of 1 (log (run ([Step 0; Step 1] ++ more ++ [Step 1])
             (exec [New (Fulfilled (VInt 5)); ChainLinkThen 0 slow_plus_one] empty)))
             = [ArgValue x].
Proof.
  split; [reflexivity|]. split; [reflexivity|].
  apply (entered_chain_link_runs_to_completion [New (Fulfilled (VInt 5))] 0
           slow_plus_one 1 _ [Step 0; Step 1] eq_refl).
  vm_compute. discriminate.
Defined.

(** ** What entering a scope changes *)

Section Managed.
Implicit Types (a : action) (s sA sB : world) (p : promise) (m : bool).

Lemma advance_managed self (c : coro value) p m :
  advance self c (set_is_managed m p)
  = (set_is_managed m (advance self c p).1, (advance self c p).2).
Proof.
  revert p. induction c as [x|e|w k _|x k IH|k IH|b k IH]; intros p; simpl;
    [done | done | done | by rewrite IH | apply IH
    | apply (IH (set_waiting_chain_result b p))].
Qed.

Lemma task_step_managed self h p m :
  task_step self h (set_is_managed m p)
  = (set_is_managed m (task_step self h p).1, (task_step self h p).2).
Proof.
  unfold task_step. simpl. destruct (_fut p) as [x|e|w k| | |]; try done.
  destruct (must_cancel p).
  - destruct (started p); [|done].
    apply (advance_managed self (k Cancelled) (set_must_cancel false p)).
  - destruct (poll h w) as [o|]; [|done].
    apply (advance_managed self (k o) (set_started true p)).
Qed.

Lemma cancel_method_managed p m :
  (cancel_method (set_is_managed m p)).1 = set_is_managed m (cancel_method p).1.
Proof.
  unfold cancel_method, ResolutionPromise.cancel, ResolutionPromise.cancel_via,
    ChainLinkPromise.cancel, AbstractPromise.cancel, done.
  destruct p as [X m0 d w mc st fut]; simpl. by destruct X, w, fut.
Qed.

Lemma local_managed a h p m :
  forget_managed (local a h (set_is_managed m p)).1 = forget_managed (local a h p).1
  ∧ (local a h (set_is_managed m p)).2 = (local a h p).2.
Proof.
  destruct a as [self|self|self|self]; simpl.
  - by rewrite task_step_managed.
  - by rewrite cancel_method_managed.
  - done.
  - by rewrite cancel_method_managed.
Qed.

Lemma forget_managed_eq pA pB :
  forget_managed pA = forget_managed pB → pA = set_is_managed (_is_managed pA) pB.
Proof.
  destruct pA, pB. unfold forget_managed, set_is_managed. simpl.
  by intros [= -> -> -> -> -> ->].
Qed.

Lemma forget_managed_lookup sA sB q :
  forget_managed <$> heap sA = forget_managed <$> heap sB →
  forget_managed <$> heap sA !! q = forget_managed <$> heap sB !! q.
Proof. intros H. by rewrite <- !list_lookup_fmap, H. Qed.

Lemma forget_managed_poll sA sB w :
  forget_managed <$> heap sA = forget_managed <$> heap sB →
  poll (heap sA) w = poll (heap sB) w.
Proof.
  intros H. destruct w as [q|o]; [|done]. simpl.
  pose proof (forget_managed_lookup sA sB q H) as Hq.
  destruct (heap sA !! q) as [pA|], (heap sB !! q) as [pB|]; simpl in *; try done.
  apply (inj Some), forget_managed_eq in Hq. by rewrite Hq.
Qed.

Lemma task_step_poll self h h' p :
  (∀ w, poll h w = poll h' w) → task_step self h p = task_step self h' p.
Proof.
  intros H. unfold task_step. destruct (_fut p) as [x|e|w k| | |]; try done.
  by rewrite (H w).
Qed.

Lemma local_poll a h h' p :
  (∀ w, poll h w = poll h' w) → local a h p = local a h' p.
Proof. intros H. destruct a; simpl; [by apply task_step_poll | done..]. Qed.

Lemma same_but_managed_refl s : same_but_managed s s.
Proof. done. Qed.

(** The same action in both worlds. *)
Lemma same_but_managed_act a sA sB :
  same_but_managed sA sB → same_but_managed (act a sA) (act a sB).
Proof.
  intros [Hh Hl].
  pose proof (forget_managed_lookup sA sB (target a) Hh) as Hq.
  unfold act, modify.
  destruct (heap sA !! target a) as [pA|] eqn:HA,
           (heap sB !! target a) as [pB|] eqn:HB; simpl in Hq; try done.
  apply (inj Some), forget_managed_eq in Hq.
  destruct (local_managed a (heap sB) pB (_is_managed pA)) as [H1 H2].
  rewrite (local_poll a (heap sA) (heap sB))
    by (intros w; by apply forget_managed_poll).
  rewrite Hq. split; simpl.
  - by rewrite !list_fmap_insert, Hh, H1.
  - intros c. by rewrite !arguments_of_app, Hl, H2.
Qed.

(** [__enter__] in one of them only. *)
Lemma same_but_managed_enter q sA sB :
  same_but_managed sA sB → same_but_managed (act (Enter q) sA) sB.
Proof.
  intros [Hh Hl]. unfold act, modify. simpl.
  destruct (heap sA !! q) as [pA|] eqn:HA; [|done]. split; simpl.
  - rewrite list_fmap_insert, <- Hh.
    apply list_insert_id. by rewrite list_lookup_fmap, HA.
  - intros c. by rewrite app_nil_r.
Qed.

(** Making the same promise in both. *)
Lemma same_but_managed_new pnew sA sB diagA diagB :
  same_but_managed sA sB →
  Forall (λ ev, ∃ q, ev = Diagnostic q) diagA →
  Forall (λ ev, ∃ q, ev = Diagnostic q) diagB →
  same_but_managed (World (heap sA ++ [pnew]) (log sA ++ diagA))
                   (World (heap sB ++ [pnew]) (log sB ++ diagB)).
Proof.
  intros [Hh Hl] HA HB. split; simpl.
  - by rewrite !fmap_app, Hh.
  - intros c. by rewrite !arguments_of_app, (arguments_of_diagnostics c diagA HA),
      (arguments_of_diagnostics c diagB HB), Hl.
Qed.

Lemma same_but_managed_chain (mk : nat → promise) self sA sB :
  same_but_managed sA sB →
  same_but_managed
    (made sA (s' ← _assert_management self sA; Some (new (mk self) s')))
    (made sB (s' ← _assert_management self sB; Some (new (mk self) s'))).
Proof.
  intros H. pose proof (forget_managed_lookup sA sB self (proj1 H)) as Hq.
  unfold _assert_management.
  destruct (heap sA !! self) as [pA|], (heap sB !! self) as [pB|];
    simpl in *; try done.
  assert (∀ s p,
            World
              (heap (if _is_managed p then s
                     else World (heap s) (log s ++ [Diagnostic self])) ++ [mk self])
              (log (if _is_managed p then s
                    else World (heap s) (log s ++ [Diagnostic self])))
            = World (heap s ++ [mk self])
                    (log s ++ (if _is_managed p then [] else [Diagnostic self])))
    as Hnew.
  { intros s p. destruct (_is_managed p); simpl; [|done]. by rewrite app_nil_r. }
  rewrite !Hnew.
  apply same_but_managed_new; [done | apply managed_diag..].
Qed.

Lemma same_but_managed_exec1 c sA sB :
  same_but_managed sA sB → same_but_managed (exec1 c sA) (exec1 c sB).
Proof.
  intros H. destruct c as [a|o|self f|self g|self h|self f]; simpl.
  - by apply same_but_managed_act.
  - unfold promise_of, new. simpl.
    rewrite <- (app_nil_r (log sA)), <- (app_nil_r (log sB)).
    by apply same_but_managed_new.
  - apply (same_but_managed_chain (λ x, FulfillmentPromise.__init__ x f)), H.
  - apply (same_but_managed_chain (λ x, RejectionPromise.__init__ x g)), H.
  - apply (same_but_managed_chain (λ x, ResolutionPromise.__init__ x h)), H.
  - apply (same_but_managed_chain (λ x, ChainLinkFulfillmentPromise.__init__ x f)), H.
Qed.

Lemma same_but_managed_exec prog sA sB :
  same_but_managed sA sB →
  same_but_managed (exec prog sA) (exec (without_scopes prog) sB).
Proof.
  revert sA sB. induction prog as [|c prog IH]; intros sA sB H; simpl; [done|].
  destruct (is_enter c) eqn:Hc; simpl.
  - destruct c as [[| |q|]| | | | |]; try done. simpl.
    by apply IH, same_but_managed_enter.
  - by apply IH, same_but_managed_exec1.
Qed.

Lemma same_but_managed_state sA sB q :
  same_but_managed sA sB → state_of sA q = state_of sB q.
Proof.
  intros [Hh _]. pose proof (forget_managed_lookup sA sB q Hh) as Hq.
  unfold state_of.
  destruct (heap sA !! q) as [pA|], (heap sB !! q) as [pB|]; simpl in *; try done.
  apply (inj Some), forget_managed_eq in Hq. by rewrite Hq.
Qed.

End Managed.

(** X9.  Entering the scope of a promise changes no outcome and no
    callback entry: a program and the same program with its [__enter__]
    calls left out bring every promise to the same state and enter every
    callback with the same arguments.  [_is_managed] is read by the
    management guard alone. *)
Theorem entering_scope_changes_no_outcome (prog : list command) (q : nat) :
  state_of (exec prog empty) q = state_of (exec (without_scopes prog) empty) q
  ∧ arguments_of q (log (exec prog empty))
    = arguments_of q (log (exec (without_scopes prog) empty)).
Proof.
  pose proof (same_but_managed_exec prog empty empty (same_but_managed_refl empty)) as H.
  split; [by apply same_but_managed_state | apply H].
Qed.
